(** * Track matching engine: normalizer, scorer, matcher, batch pass

    A shallow embedding of the matching core of the playlist transfer
    application (lib/matching/normalize.ts, lib/matching/matcher.ts,
    lib/matching/types.ts, workers/matcher.worker.ts, the task and the
    model call of hooks/use-gemini-matching.ts, lib/gemini/client.ts and
    the matching step of the sync route), with the properties of its
    specification stated and settled on the embedding.

    Conventions of the embedding:
    - a JavaScript string is a [string], read as a sequence of code units
      below 256 (the Latin-1 range, on which [toLowerCase] is a map of
      single code units); members of a character class above U+00FF (the
      en dash of [[-–]]) lie outside this domain, and so does the
      lower-casing that looks at the letters around (a capital sigma at
      the end of a word): a property that lower-cases a text piece by
      piece is stated for this domain only;
    - a JavaScript number is an exact rational; the non-finite values that
      a division by zero creates are kept ([number]); rounding and the
      sign of zero are not modelled, so a bound on a score that is meant
      to hold of the double arithmetic of the code is stated with a
      margin;
    - the value that [JSON.parse] returns is untyped ([Js.json]): the code
      reads its properties without checking them, so its comparisons and
      its property keys go through the conversions of the language, which
      can throw;
    - a [Set<string>] is a [gset string];
    - an [async] function that calls its collaborators is a computation in
      a state-and-exception monad over the state of the outside world. *)

From Stdlib Require Import List Ascii String NArith ZArith QArith Qabs Qminmax Lia Lqa Bool
  DecimalString.
From stdpp Require Import gmap strings.
Import ListNotations.

Local Open Scope list_scope.

(** ** Strings as lists of code units *)

Module Str.

Definition chars (s : string) : list ascii := list_ascii_of_string s.
Definition of_chars (l : list ascii) : string := string_of_list_ascii l.

Definition code (c : ascii) : N := N_of_ascii c.

Definition between (lo hi : N) (c : ascii) : bool :=
  (N.leb lo (code c) && N.leb (code c) hi)%bool.

(** [String.prototype.toLowerCase] on one code unit of the Latin-1 range:
    A-Z, and the accented capitals U+00C0-U+00DE except U+00D7. *)
Definition toLowerCaseChar (c : ascii) : ascii :=
  if (between 65 90 c || between 192 214 c || between 216 222 c)%bool
  then ascii_of_N (code c + 32)
  else c.

(** [String.prototype.toLowerCase] on a text of the Latin-1 range, where
    it is a map of code units; beyond that range the result for a letter
    can depend on the letters around it, which this map does not cover. *)
Definition toLowerCase (l : list ascii) : list ascii := map toLowerCaseChar l.

(** White space and line terminators, the class [\s] and the set that
    [trim] strips: TAB, LF, VT, FF, CR, SP, NBSP. *)
Definition isSpace (c : ascii) : bool :=
  (between 9 13 c || N.eqb (code c) 32 || N.eqb (code c) 160)%bool.

(** The class [.] : anything but a line terminator. *)
Definition isDot (c : ascii) : bool :=
  negb (N.eqb (code c) 10 || N.eqb (code c) 13)%bool.

Fixpoint trimStart (l : list ascii) : list ascii :=
  match l with
  | c :: l' => if isSpace c then trimStart l' else l
  | [] => []
  end.

Fixpoint trimEnd (l : list ascii) : list ascii :=
  match l with
  | [] => []
  | c :: l' =>
      match trimEnd l' with
      | [] => if isSpace c then [] else [c]
      | t => c :: t
      end
  end.

Definition trim (l : list ascii) : list ascii := trimEnd (trimStart l).

End Str.

(** ** The fragment of regular expressions that the normalizer uses

    Quantifiers are greedy and apply to a character class ([\s*], [[^)]+],
    [.*]) or, for [?], to a group; matching backtracks in the priority
    order of the ECMAScript semantics. *)

Module Regex.
Import Str.

Inductive regex : Type :=
| Empty
| Char (p : ascii -> bool)
| Cat (r1 r2 : regex)
| Maybe (r : regex)
| Many (p : ascii -> bool)
| EndOfInput.

Definition cont : Type := list ascii -> option (list ascii).

Fixpoint many (p : ascii -> bool) (k : cont) (s : list ascii) : option (list ascii) :=
  match s with
  | c :: s' =>
      if p c then
        match many p k s' with
        | Some rest => Some rest
        | None => k s
        end
      else k s
  | [] => k s
  end.

(** [exec r s k]: match [r] at the head of [s], then continue with [k] on
    what is left; the first success in priority order wins. *)
Fixpoint exec (r : regex) (s : list ascii) (k : cont) : option (list ascii) :=
  match r with
  | Empty => k s
  | Char p =>
      match s with
      | c :: s' => if p c then k s' else None
      | [] => None
      end
  | Cat r1 r2 => exec r1 s (fun s' => exec r2 s' k)
  | Maybe r' =>
      match exec r' s k with
      | Some rest => Some rest
      | None => k s
      end
  | Many p => many p k s
  | EndOfInput =>
      match s with
      | [] => k s
      | _ :: _ => None
      end
  end.

(** The match of [r] that starts at the head of [s], as the text left
    after it. *)
Definition matchAt (r : regex) (s : list ascii) : option (list ascii) :=
  exec r s Some.

Definition consumed (s rest : list ascii) : list ascii :=
  firstn (length s - length rest) s.

(** [s.replace(/r/g, rep)]: leftmost matches, left to right, none
    overlapping. [skip] counts the code units of the current match still
    to be passed over. After an empty match the scan moves on by one code
    unit. *)
Fixpoint replaceAllFrom (r : regex) (rep : list ascii -> list ascii)
    (skip : nat) (s : list ascii) {struct s} : list ascii :=
  match s with
  | [] =>
      match skip with
      | O => match matchAt r [] with Some _ => rep [] | None => [] end
      | S _ => []
      end
  | c :: s' =>
      match skip with
      | S n => replaceAllFrom r rep n s'
      | O =>
          match matchAt r s with
          | Some rest =>
              rep (consumed s rest) ++
              match length s - length rest with
              | O => c :: replaceAllFrom r rep 0 s'
              | S n => replaceAllFrom r rep n s'
              end
          | None => c :: replaceAllFrom r rep 0 s'
          end
      end
  end.

Definition replaceAll (r : regex) (rep : list ascii -> list ascii)
    (s : list ascii) : list ascii :=
  replaceAllFrom r rep 0 s.

(** [s.replace(/r/, rep)] without the [g] flag: the leftmost match only. *)
Fixpoint replaceFirst (r : regex) (rep : list ascii -> list ascii)
    (s : list ascii) : list ascii :=
  match matchAt r s with
  | Some rest => rep (consumed s rest) ++ rest
  | None =>
      match s with
      | [] => []
      | c :: s' => c :: replaceFirst r rep s'
      end
  end.

(** Does [r] match somewhere in [s]? *)
Fixpoint occurs (r : regex) (s : list ascii) : bool :=
  match matchAt r s with
  | Some _ => true
  | None =>
      match s with
      | [] => false
      | _ :: s' => occurs r s'
      end
  end.

(** *** Building blocks *)

Definition one (a : ascii) : ascii -> bool := Ascii.eqb a.
Definition non (a : ascii) : ascii -> bool := fun c => negb (Ascii.eqb a c).

(** A literal character under the [i] flag: an ASCII letter matches in
    both cases, and no code unit above U+007F folds onto an ASCII one. *)
Definition isI (a : ascii) : ascii -> bool :=
  fun c => Ascii.eqb a (toLowerCaseChar c).

Definition plus (p : ascii -> bool) : regex := Cat (Char p) (Many p).

Fixpoint seq (rs : list regex) : regex :=
  match rs with
  | [] => Empty
  | [r] => r
  | r :: rs' => Cat r (seq rs')
  end.

(** A literal word under the [i] flag. *)
Definition textI (w : string) : regex := seq (map (fun a => Char (isI a)) (chars w)).

Definition with_ (w : string) : list ascii -> list ascii := fun _ => chars w.

End Regex.

(** ** normalize.ts *)

Module Normalize.
Import Str Regex.

Local Open Scope string_scope.
Local Open Scope char_scope.

Definition sp : regex := Many isSpace.
Definition sp1 : regex := plus isSpace.

(** [/\s*\(feat\.?\s+[^)]+\)/gi] *)
Definition reFeatParen : regex :=
  seq [sp; textI "(feat"; Maybe (Char (one ".")); sp1; plus (non ")"); Char (one ")")].
(** [/\s*\(ft\.?\s+[^)]+\)/gi] *)
Definition reFtParen : regex :=
  seq [sp; textI "(ft"; Maybe (Char (one ".")); sp1; plus (non ")"); Char (one ")")].
(** [/\s*\[feat\.?\s+[^\]]+\]/gi] *)
Definition reFeatBracket : regex :=
  seq [sp; textI "[feat"; Maybe (Char (one ".")); sp1; plus (non "]"); Char (one "]")].
(** [/\s*[-–]\s*(official\s+)?(music\s+)?video/gi]; the en dash is
    outside the Latin-1 domain. *)
Definition reVideo : regex :=
  seq [sp; Char (one "-"); sp; Maybe (seq [textI "official"; sp1]);
       Maybe (seq [textI "music"; sp1]); textI "video"].
(** [/\s*[-–]\s*official\s+audio/gi] *)
Definition reOfficialAudio : regex :=
  seq [sp; Char (one "-"); sp; textI "official"; sp1; textI "audio"].
(** [/\s*\(official\s+[^)]+\)/gi] *)
Definition reOfficialParen : regex :=
  seq [sp; textI "(official"; sp1; plus (non ")"); Char (one ")")].
(** [/\s*\(lyrics?\s*\)/gi] *)
Definition reLyrics : regex :=
  seq [sp; textI "(lyric"; Maybe (Char (isI "s")); sp; Char (one ")")].
(** [/\s*\(audio\s*\)/gi] *)
Definition reAudio : regex :=
  seq [sp; textI "(audio"; sp; Char (one ")")].
(** [/\s*\(visuali[sz]er\s*\)/gi] *)
Definition reVisualizer : regex :=
  seq [sp; textI "(visuali"; Char (fun c => isI "s" c || isI "z" c)%bool;
       textI "er"; sp; Char (one ")")].
(** [/\s*\|\s*.*$/g] *)
Definition rePipe : regex :=
  seq [sp; Char (one "|"); sp; Many isDot; EndOfInput].
(** [/['']/g]: both members of the class are the ASCII apostrophe. *)
Definition reApostrophe : regex := Char (fun c => one "'" c || one "'" c)%bool.
(** [/[""]/g]: both members of the class are the ASCII double quote. *)
Definition reQuote : regex := Char (fun c => one "034" c || one "034" c)%bool.
(** [/\s+/g] *)
Definition reSpaces : regex := sp1.

(** Method chaining: [x |> f] is [f x]. *)
Local Notation "x |> f" := (f x) (at level 71, left associativity, only parsing).

Definition normalizeTrackTitle (title : string) : string :=
  of_chars
    (chars title
     |> toLowerCase
     |> replaceAll reFeatParen (with_ "")
     |> replaceAll reFtParen (with_ "")
     |> replaceAll reFeatBracket (with_ "")
     |> replaceAll reVideo (with_ "")
     |> replaceAll reOfficialAudio (with_ "")
     |> replaceAll reOfficialParen (with_ "")
     |> replaceAll reLyrics (with_ "")
     |> replaceAll reAudio (with_ "")
     |> replaceAll reVisualizer (with_ "")
     |> replaceAll rePipe (with_ "")
     |> replaceAll reApostrophe (with_ "'")
     |> replaceAll reQuote (fun _ => ["034"])
     |> replaceAll reSpaces (with_ " ")
     |> trim).

(** [/vevo$/i] *)
Definition reVevo : regex := seq [textI "vevo"; EndOfInput].
(** [/\s*-?\s*topic$/i] *)
Definition reTopic : regex :=
  seq [sp; Maybe (Char (one "-")); sp; textI "topic"; EndOfInput].
(** [/\s*-?\s*official$/i] *)
Definition reOfficial : regex :=
  seq [sp; Maybe (Char (one "-")); sp; textI "official"; EndOfInput].
(** [/([a-z])([A-Z])/g], no [i] flag. *)
Definition reCamel : regex := Cat (Char (between 97 122)) (Char (between 65 90)).
(** The replacement ['$1 $2'] of a two-unit match. *)
Definition camelSpace (m : list ascii) : list ascii :=
  match m with
  | [a; b] => [a; " "; b]
  | _ => m
  end.
(** [/\s*&\s*/g] *)
Definition reAmpersand : regex := seq [sp; Char (one "&"); sp].
(** [/\s*,\s*/g] *)
Definition reComma : regex := seq [sp; Char (one ","); sp].

Definition normalizeArtistName (artist : string) : string :=
  of_chars
    (chars artist
     |> toLowerCase
     |> replaceFirst reVevo (with_ "")
     |> replaceFirst reTopic (with_ "")
     |> replaceFirst reOfficial (with_ "")
     |> replaceAll reCamel camelSpace
     |> replaceAll reAmpersand (with_ " and ")
     |> replaceAll reComma (with_ " and ")
     |> replaceAll reApostrophe (with_ "'")
     |> replaceAll reSpaces (with_ " ")
     |> trim).

End Normalize.

(** ** JavaScript numbers *)

Module Num.

Inductive number : Type :=
| NaN
| NegInf
| Fin (q : Q)
| PosInf.

Definition sign (q : Q) : comparison := (q ?= 0)%Q.

Definition inf (s : comparison) : number :=
  match s with
  | Lt => NegInf
  | Eq => NaN
  | Gt => PosInf
  end.

Definition flip (s : comparison) : comparison := CompOpp s.

Definition neg (a : number) : number :=
  match a with
  | NaN => NaN
  | NegInf => PosInf
  | Fin q => Fin (- q)
  | PosInf => NegInf
  end.

Definition add (a b : number) : number :=
  match a, b with
  | NaN, _ | _, NaN => NaN
  | PosInf, NegInf | NegInf, PosInf => NaN
  | PosInf, _ | _, PosInf => PosInf
  | NegInf, _ | _, NegInf => NegInf
  | Fin x, Fin y => Fin (x + y)
  end.

Definition sub (a b : number) : number := add a (neg b).

Definition mul (a b : number) : number :=
  match a, b with
  | NaN, _ | _, NaN => NaN
  | Fin x, Fin y => Fin (x * y)
  | PosInf, Fin y | Fin y, PosInf => inf (sign y)
  | NegInf, Fin y | Fin y, NegInf => inf (flip (sign y))
  | PosInf, PosInf | NegInf, NegInf => PosInf
  | PosInf, NegInf | NegInf, PosInf => NegInf
  end.

(** Division; a zero divisor is read as +0. *)
Definition div (a b : number) : number :=
  match a, b with
  | NaN, _ | _, NaN => NaN
  | Fin x, Fin y =>
      match sign y with
      | Eq => inf (sign x)
      | _ => Fin (x / y)
      end
  | Fin _, (PosInf | NegInf) => Fin 0
  | PosInf, Fin y => match sign y with Lt => NegInf | _ => PosInf end
  | NegInf, Fin y => match sign y with Lt => PosInf | _ => NegInf end
  | (PosInf | NegInf), (PosInf | NegInf) => NaN
  end.

(** Ordering; [None] when an operand is [NaN]. *)
Definition compare (a b : number) : option comparison :=
  match a, b with
  | NaN, _ | _, NaN => None
  | NegInf, NegInf => Some Eq
  | NegInf, _ => Some Lt
  | _, NegInf => Some Gt
  | PosInf, PosInf => Some Eq
  | PosInf, _ => Some Gt
  | _, PosInf => Some Lt
  | Fin x, Fin y => Some (x ?= y)%Q
  end.

(** [a > b], [a < b], [a >= b]: false when an operand is [NaN]. *)
Definition gt (a b : number) : bool :=
  match compare a b with Some Gt => true | _ => false end.
Definition lt (a b : number) : bool :=
  match compare a b with Some Lt => true | _ => false end.
Definition ge (a b : number) : bool :=
  match compare a b with Some Gt | Some Eq => true | _ => false end.

(** [Math.max(a, b)] and [Math.min(a, b)]: [NaN] when an operand is. *)
Definition Math_max (a b : number) : number :=
  match compare a b with
  | None => NaN
  | Some Lt => b
  | Some _ => a
  end.
Definition Math_min (a b : number) : number :=
  match compare a b with
  | None => NaN
  | Some Gt => b
  | Some _ => a
  end.

(** [0 <= a <= 1], which [NaN] and the infinities are not. *)
Definition inUnit (a : number) : Prop :=
  match a with
  | Fin q => (0 <= q /\ q <= 1)%Q
  | _ => False
  end.

End Num.

(** ** types.ts *)

Module Types.
Import Num.

Inductive Platform : Type := spotify | youtube.

Record UnifiedTrack : Type := {
  id : string;
  platform : Platform;
  title : string;
  artist : string;
  artists : list string;
  album : option string;
  durationMs : Q;
  isrc : option string;
  videoId : option string;
  raw : string
}.

Inductive MatchStatus : Type :=
| matched
| low_confidence
| not_found
| already_exists.

Record MatchResult : Type := {
  source : UnifiedTrack;
  target : option UnifiedTrack;
  confidence : number;
  status : MatchStatus;
  existingId : option string
}.

Record MatchConfig : Type := {
  highConfidenceThreshold : Q;
  lowConfidenceThreshold : Q;
  durationToleranceMs : Q;
  durationWeight : Q;
  titleWeight : Q;
  artistWeight : Q;
  maxSearchResults : Q
}.

Definition DEFAULT_MATCH_CONFIG : MatchConfig := {|
  highConfidenceThreshold := 80 # 100;
  lowConfidenceThreshold := 55 # 100;
  durationToleranceMs := 3000;
  durationWeight := 15 # 100;
  titleWeight := 55 # 100;
  artistWeight := 30 # 100;
  maxSearchResults := 10
|}.

(** [{ ...r, status: s }] *)
Definition withStatus (r : MatchResult) (s : MatchStatus) : MatchResult :=
  {| source := source r; target := target r; confidence := confidence r;
     status := s; existingId := existingId r |}.

(** Truthiness of an optional string: present and not empty. *)
Definition truthy (o : option string) : bool :=
  match o with
  | Some s => negb (String.eqb s "")
  | None => false
  end.

End Types.

(** ** Asynchronous computations that may throw *)

Module Async.
Section Monad.
Context {World Error : Type}.

Inductive outcome (A : Type) : Type :=
| Returns (a : A)
| Throws (e : Error).
Arguments Returns {A} a.
Arguments Throws {A} e.

Definition async (A : Type) : Type := World -> outcome A * World.

Definition ret {A} (a : A) : async A := fun w => (Returns a, w).

Definition throw {A} (e : Error) : async A := fun w => (Throws e, w).

Definition bind {A B} (m : async A) (f : A -> async B) : async B :=
  fun w =>
    match m w with
    | (Returns a, w') => f a w'
    | (Throws e, w') => (Throws e, w')
    end.

(** [try { m } catch (error) { h error }] *)
Definition tryCatch {A} (m : async A) (h : Error -> async A) : async A :=
  fun w =>
    match m w with
    | (Returns a, w') => (Returns a, w')
    | (Throws e, w') => h e w'
    end.

End Monad.

Arguments outcome : clear implicits.
Arguments async : clear implicits.
Arguments Returns {Error A} a.
Arguments Throws {Error A} e.

Notation "'await' x '<-' m ';' f" := (bind m (fun x => f))
  (at level 10, x name, m at level 100, f at level 200).

End Async.

(** ** matcher.ts *)

Module Matcher.
Import Str Regex Normalize Num Types Async.

(** [buildSearchQuery] of normalize.ts. *)
Definition buildSearchQuery (track : UnifiedTrack) : string :=
  let title := normalizeTrackTitle (Types.title track) in
  let artist := normalizeArtistName (Types.artist track) in
  String.append artist (String.append " " title).

Section WithFuzzy.

(** [fuzzy] of the fast-fuzzy package, an external collaborator. *)
Variable fuzzy : string -> string -> Q.

(** The body of the scoring loop: the final value of [compositeScore]
    for one candidate, in exact arithmetic. *)
Definition compositeScore (source candidate : UnifiedTrack) (config : MatchConfig)
    : number :=
  let normalizedSourceTitle := normalizeTrackTitle (title source) in
  let normalizedCandidateTitle := normalizeTrackTitle (title candidate) in
  let normalizedSourceArtist := normalizeArtistName (artist source) in
  let normalizedCandidateArtist := normalizeArtistName (artist candidate) in
  let titleScore := fuzzy normalizedSourceTitle normalizedCandidateTitle in
  let artistScore := fuzzy normalizedSourceArtist normalizedCandidateArtist in
  let titleScore :=
    if String.eqb normalizedSourceTitle normalizedCandidateTitle
    then Math_max (Fin titleScore) (Fin (98 # 100)) else Fin titleScore in
  let artistScore :=
    if String.eqb normalizedSourceArtist normalizedCandidateArtist
    then Math_max (Fin artistScore) (Fin (98 # 100)) else Fin artistScore in
  let durationDiff := Fin (Qabs (durationMs source - durationMs candidate)) in
  let durationScore :=
    Math_max (Fin 0)
      (sub (Fin 1) (div durationDiff (mul (Fin (durationToleranceMs config)) (Fin 3)))) in
  let compositeScore :=
    add (add (mul titleScore (Fin (titleWeight config)))
             (mul artistScore (Fin (artistWeight config))))
        (mul durationScore (Fin (durationWeight config))) in
  if (String.eqb normalizedSourceTitle normalizedCandidateTitle &&
      String.eqb normalizedSourceArtist normalizedCandidateArtist)%bool
  then Math_min (Fin (99 # 100)) (add compositeScore (Fin (10 # 100)))
  else compositeScore.

(** One turn of [for (const candidate of candidates)] on the pair
    [(bestMatch, bestScore)]. *)
Definition scoreStep (source : UnifiedTrack) (config : MatchConfig)
    (best : option UnifiedTrack * number) (candidate : UnifiedTrack)
    : option UnifiedTrack * number :=
  let score := compositeScore source candidate config in
  if gt score (snd best) then (Some candidate, score) else best.

Definition scoreAll (source : UnifiedTrack) (candidates : list UnifiedTrack)
    (config : MatchConfig) : option UnifiedTrack * number :=
  fold_left (scoreStep source config) candidates (None, Fin 0).

(** Lines 34-90 of [matchTrack]: the decision once the candidates of the
    general search are at hand. *)
Definition scoreAndClassify (source : UnifiedTrack) (candidates : list UnifiedTrack)
    (config : MatchConfig) : MatchResult :=
  match candidates with
  | [] =>
      {| source := source; target := None; confidence := Fin 0;
         status := not_found; existingId := None |}
  | _ :: _ =>
      let (bestMatch, bestScore) := scoreAll source candidates config in
      if (match bestMatch with None => true | Some _ => false end
          || lt bestScore (Fin (lowConfidenceThreshold config)))%bool
      then {| source := source; target := bestMatch; confidence := bestScore;
              status := not_found; existingId := None |}
      else {| source := source; target := bestMatch; confidence := bestScore;
              status := if ge bestScore (Fin (highConfidenceThreshold config))
                        then matched else low_confidence;
              existingId := None |}
  end.

Section WithSearch.
Context {World Error : Type}.
Variable searchFn : string -> async World Error (list UnifiedTrack).

(** The general path of [matchTrack], from [buildSearchQuery] on. *)
Definition generalPath (source : UnifiedTrack) (config : MatchConfig)
    : async World Error MatchResult :=
  let query := buildSearchQuery source in
  await candidates <- searchFn query;
  ret (scoreAndClassify source candidates config).

(** The fast path: [Some] result when the function returns from inside the
    [try] block, [None] when control reaches the general path. *)
Definition fastPath (source : UnifiedTrack) : async World Error (option MatchResult) :=
  if truthy (isrc source) then
    tryCatch
      (await isrcResults <- searchFn (default "" (isrc source));
       match isrcResults with
       | first :: _ =>
           ret (Some {| source := source; target := Some first;
                        confidence := Fin (99 # 100); status := matched;
                        existingId := None |})
       | [] => ret None
       end)
      (fun _ => ret None)
  else ret None.

Definition matchTrack (source : UnifiedTrack) (config : MatchConfig)
    : async World Error MatchResult :=
  await fast <- fastPath source;
  match fast with
  | Some result => ret result
  | None => generalPath source config
  end.

(** Lines 107-111 of [matchTracks]: the check against the tracks already
    present at the destination. *)
Definition checkExisting (existingIds : gset string) (result : MatchResult)
    : MatchResult :=
  match target result with
  | Some t =>
      if bool_decide (id t ∈ existingIds)
      then {| source := source result; target := target result;
              confidence := confidence result; status := already_exists;
              existingId := Some (id t) |}
      else result
  | None => result
  end.

(** The loop of [matchTracks]; [onProgress] and the delay between two
    searches leave the results untouched and are not modelled. *)
Fixpoint matchTracksLoop (sources : list UnifiedTrack) (existingIds : gset string)
    (config : MatchConfig) (results : list MatchResult)
    : async World Error (list MatchResult) :=
  match sources with
  | [] => ret results
  | source :: rest =>
      await result <- matchTrack source config;
      let result := checkExisting existingIds result in
      matchTracksLoop rest existingIds config (results ++ [result])
  end.

Definition matchTracks (sources : list UnifiedTrack) (existingIds : gset string)
    (config : MatchConfig) : async World Error (list MatchResult) :=
  matchTracksLoop sources existingIds config [].

End WithSearch.
End WithFuzzy.

(** [results.map] with the [seen] set threaded through. *)
Fixpoint deduplicateFrom (seen : gset string) (results : list MatchResult)
    : list MatchResult :=
  match results with
  | [] => []
  | r :: rest =>
      match target r with
      | None => r :: deduplicateFrom seen rest
      | Some t =>
          if bool_decide (id t ∈ seen)
          then withStatus r already_exists :: deduplicateFrom seen rest
          else r :: deduplicateFrom ({[id t]} ∪ seen) rest
      end
  end.

Definition deduplicateResults (results : list MatchResult) : list MatchResult :=
  deduplicateFrom ∅ results.

End Matcher.

(** ** matcher.worker.ts *)

Module Worker.
Import Normalize Num Types.

Record WorkerMessage : Type := {
  type : string;
  source : UnifiedTrack;
  candidates : list UnifiedTrack;
  config : MatchConfig;
  existingIds : list string
}.

Section WithFuzzy.
Variable fuzzy : string -> string -> Q.

(** The body of the worker's own scoring loop. *)
Definition compositeScore (source candidate : UnifiedTrack) (config : MatchConfig)
    : number :=
  let normalizedSourceTitle := normalizeTrackTitle (title source) in
  let normalizedCandidateTitle := normalizeTrackTitle (title candidate) in
  let normalizedSourceArtist := normalizeArtistName (artist source) in
  let normalizedCandidateArtist := normalizeArtistName (artist candidate) in
  let titleScore := fuzzy normalizedSourceTitle normalizedCandidateTitle in
  let artistScore := fuzzy normalizedSourceArtist normalizedCandidateArtist in
  let titleScore :=
    if String.eqb normalizedSourceTitle normalizedCandidateTitle
    then Math_max (Fin titleScore) (Fin (98 # 100)) else Fin titleScore in
  let artistScore :=
    if String.eqb normalizedSourceArtist normalizedCandidateArtist
    then Math_max (Fin artistScore) (Fin (98 # 100)) else Fin artistScore in
  let durationDiff := Fin (Qabs (durationMs source - durationMs candidate)) in
  let durationScore :=
    Math_max (Fin 0)
      (sub (Fin 1) (div durationDiff (mul (Fin (durationToleranceMs config)) (Fin 3)))) in
  let compositeScore :=
    add (add (mul titleScore (Fin (titleWeight config)))
             (mul artistScore (Fin (artistWeight config))))
        (mul durationScore (Fin (durationWeight config))) in
  if (String.eqb normalizedSourceTitle normalizedCandidateTitle &&
      String.eqb normalizedSourceArtist normalizedCandidateArtist)%bool
  then Math_min (Fin (99 # 100)) (add compositeScore (Fin (10 # 100)))
  else compositeScore.

Definition scoreStep (source : UnifiedTrack) (config : MatchConfig)
    (best : option UnifiedTrack * number) (candidate : UnifiedTrack)
    : option UnifiedTrack * number :=
  let score := compositeScore source candidate config in
  if gt score (snd best) then (Some candidate, score) else best.

(** [self.onmessage]: the result handed to [postMessage], [None] when the
    handler returns without posting. *)
Definition onmessage (data : WorkerMessage) : option MatchResult :=
  let source := source data in
  let candidates := candidates data in
  let config := config data in
  if negb (String.eqb (type data) "match") then None
  else
    match candidates with
    | [] =>
        Some {| Types.source := source; target := None; confidence := Fin 0;
                status := not_found; existingId := None |}
    | _ :: _ =>
        let existingIdSet : gset string := list_to_set (existingIds data) in
        let (bestMatch, bestScore) :=
          fold_left (scoreStep source config) candidates (None, Fin 0) in
        let status :=
          match bestMatch with
          | Some best =>
              if ge bestScore (Fin (lowConfidenceThreshold config)) then
                let status :=
                  if ge bestScore (Fin (highConfidenceThreshold config))
                  then matched else low_confidence in
                if bool_decide (id best ∈ existingIdSet) then already_exists
                else status
              else not_found
          | None => not_found
          end in
        Some {| Types.source := source; target := bestMatch;
                confidence := bestScore; status := status;
                existingId :=
                  match status, bestMatch with
                  | already_exists, Some best => Some (id best)
                  | _, _ => None
                  end |}
    end.

End WithFuzzy.
End Worker.

(** ** Values read from a parsed answer *)

Module Js.
Import Str Num Types Async.

#[local] Set Warnings "-register-all".

(** What [JSON.parse] returns. *)
Inductive json : Type :=
| JNull
| JBool (b : bool)
| JNum (n : number)
| JStr (s : string)
| JArr (items : list json)
| JObj (fields : list (string * json)).

(** A value read from it: [undefined] when the property is absent. *)
Inductive value : Type :=
| Undefined
| Val (j : json).

(** The primitive values that a conversion ends in. *)
Inductive prim : Type :=
| PUndefined
| PNull
| PBool (b : bool)
| PNum (n : number)
| PStr (s : string).

(** The two ways in which reading the answer throws a TypeError. *)
Inductive typeError : Type :=
| ReadOfNull
| NoPrimitiveValue.

(** What the engine brings along and what the code relies on without
    defining it: the text of a number, the number of a text, and the names
    of the members that an array inherits from [Array.prototype] and
    [Object.prototype]. *)
Record Engine : Type := {
  Number_toString : number -> string;
  String_toNumber : string -> number;
  inherited : string -> bool
}.

(** What [candidates[key]] and the fallbacks can put into [match]: a
    candidate, [null], [undefined], the length of the list, or an inherited
    member (a function or a prototype object). *)
Inductive picked : Type :=
| Track (t : UnifiedTrack)
| Null
| Missing
| Length (n : nat)
| Inherited (key : string).

Definition hasOwn (key : string) (fields : list (string * json)) : bool :=
  existsb (fun f => String.eqb (fst f) key) fields.

Fixpoint ownProperty (key : string) (fields : list (string * json)) : value :=
  match fields with
  | [] => Undefined
  | (k, j) :: rest => if String.eqb k key then Val j else ownProperty key rest
  end.

(** [result.key], for a key that is no built-in member of strings,
    numbers, booleans and arrays (as [bestMatchIndex], [confidence] and
    [reasoning]); [None] when the read throws, on [null]. *)
Definition get (key : string) (result : json) : option value :=
  match result with
  | JNull => None
  | JObj fields => Some (ownProperty key fields)
  | _ => Some Undefined
  end.

(** [ToBoolean] *)
Definition toBoolean (v : value) : bool :=
  match v with
  | Undefined | Val JNull => false
  | Val (JBool b) => b
  | Val (JNum n) =>
      match n with
      | NaN => false
      | Fin q => negb (Qeq_bool q 0)
      | _ => true
      end
  | Val (JStr s) => negb (String.eqb s "")
  | Val (JArr _) | Val (JObj _) => true
  end.

(** [v || 0] *)
Definition orZero (v : value) : value := if toBoolean v then v else Val (JNum (Fin 0)).

(** [v === n] for a number [n]. *)
Definition strictEquals (v : value) (n : number) : bool :=
  match v with
  | Val (JNum m) => match compare m n with Some Eq => true | _ => false end
  | _ => false
  end.

(** [v === null] *)
Definition isNull (v : value) : bool :=
  match v with
  | Val JNull => true
  | _ => false
  end.

(** [a || b] where evaluating an operand may throw. *)
Definition orElse (a b : option bool) : option bool :=
  match a with
  | Some false => b
  | _ => a
  end.

Definition truthyPicked (m : picked) : bool :=
  match m with
  | Track _ | Inherited _ => true
  | Null | Missing => false
  | Length n => negb (Nat.eqb n 0)
  end.

(** [m.id] for a truthy [m], [m?.id] for any: [None] is [undefined], which
    numbers, functions and prototype objects give. *)
Definition idOf (m : picked) : option string :=
  match m with
  | Track t => Some (id t)
  | _ => None
  end.

(** [candidates[0] || null] and [candidates[0]]. *)
Definition firstOrNull (candidates : list UnifiedTrack) : picked :=
  match candidates with
  | first :: _ => Track first
  | [] => Null
  end.
Definition first (candidates : list UnifiedTrack) : picked :=
  match candidates with
  | first :: _ => Track first
  | [] => Missing
  end.

(** [candidates.length] *)
Definition lengthOf (candidates : list UnifiedTrack) : number :=
  Fin (inject_Z (Z.of_nat (length candidates))).

(** The whole number that a number is, when it is one and not negative:
    the array index that its text names. *)
Definition wholeIndex (n : number) : option nat :=
  match n with
  | Fin q =>
      if (Z.leb 0 (Qnum q) && Z.eqb (Qnum q mod Zpos (Qden q)) 0)%bool
      then Some (Z.to_nat (Qnum q / Zpos (Qden q)))
      else None
  | _ => None
  end.

Fixpoint digits (acc : N) (s : list ascii) : option N :=
  match s with
  | [] => Some acc
  | c :: s' =>
      if between 48 57 c then digits (acc * 10 + (code c - 48)) s' else None
  end.

(** The array index that a key names: [0], or digits that do not start
    with a zero. *)
Definition arrayIndex (key : string) : option nat :=
  match chars key with
  | [] => None
  | c :: rest =>
      if (N.eqb (code c) 48 && negb (Nat.eqb (length rest) 0))%bool then None
      else option_map N.to_nat (digits 0 (c :: rest))
  end.

Definition element (candidates : list UnifiedTrack) (i : nat) : picked :=
  match nth_error candidates i with
  | Some t => Track t
  | None => Missing
  end.

Definition orThrow {World Error A : Type} (e : Error) (o : option A)
    : async World Error A :=
  match o with
  | Some a => ret a
  | None => throw e
  end.

Section WithEngine.
Variable engine : Engine.

(** [String(j)], [None] when it throws: a parsed object that has a
    property toString of its own has no callable conversion left. An array
    is the texts of its items between commas, with nothing for [null]. *)
Fixpoint toString (j : json) : option string :=
  match j with
  | JNull => Some "null"%string
  | JBool b => Some (if b then "true" else "false")%string
  | JNum n => Some (Number_toString engine n)
  | JStr s => Some s
  | JArr items =>
      (fix join (items : list json) : option string :=
         match items with
         | [] => Some EmptyString
         | item :: rest =>
             match match item with JNull => Some EmptyString | _ => toString item end with
             | None => None
             | Some text =>
                 match rest with
                 | [] => Some text
                 | _ :: _ =>
                     option_map (fun more => String.append text (String.append "," more))
                       (join rest)
                 end
             end
         end) items
  | JObj fields =>
      if hasOwn "toString" fields then None else Some "[object Object]"%string
  end.

(** [ToPrimitive]; arrays and objects parsed from a text have no
    [valueOf] that returns a primitive, so both hints end in [toString]. *)
Definition toPrimitive (v : value) : option prim :=
  match v with
  | Undefined => Some PUndefined
  | Val JNull => Some PNull
  | Val (JBool b) => Some (PBool b)
  | Val (JNum n) => Some (PNum n)
  | Val (JStr s) => Some (PStr s)
  | Val j => option_map PStr (toString j)
  end.

(** [ToNumber] of a primitive. *)
Definition toNumber (p : prim) : number :=
  match p with
  | PUndefined => NaN
  | PNull => Fin 0
  | PBool b => if b then Fin 1 else Fin 0
  | PNum n => n
  | PStr s => String_toNumber engine s
  end.

(** [v < n] and [v >= n] for a number [n]; [None] when the conversion of
    [v] throws. *)
Definition lessThan (v : value) (n : number) : option bool :=
  option_map (fun p => lt (toNumber p) n) (toPrimitive v).
Definition atLeast (v : value) (n : number) : option bool :=
  option_map (fun p => ge (toNumber p) n) (toPrimitive v).

(** [candidates[p]] for a primitive key. The text of a number is an index
    when the number is whole and not negative, and is the name of no other
    member; so are undefined, null, true and false. *)
Definition member (candidates : list UnifiedTrack) (p : prim) : picked :=
  match p with
  | PNum n =>
      match wholeIndex n with
      | Some i => element candidates i
      | None => Missing
      end
  | PStr key =>
      match arrayIndex key with
      | Some i => element candidates i
      | None =>
          if String.eqb key "length" then Length (length candidates)
          else if inherited engine key then Inherited key
          else Missing
      end
  | PUndefined | PNull | PBool _ => Missing
  end.

(** [candidates[v]], [None] when the conversion of [v] to a key throws. *)
Definition at_ (candidates : list UnifiedTrack) (v : value) : option picked :=
  option_map (member candidates) (toPrimitive v).

End WithEngine.

End Js.

(** A [MatchResult] as it is at run time when its target and its
    confidence come from a parsed answer. *)

Module Loose.
Import Types Js.

Record MatchResult : Type := {
  source : UnifiedTrack;
  target : picked;
  confidence : value;
  status : MatchStatus;
  existingId : option string
}.

End Loose.

(** ** use-gemini-matching.ts: the call to the language model *)

Module Gemini.
Import Str Regex Num Types Async Js.

Local Open Scope char_scope.

(** What the catch block of [callGeminiAPI] can receive. *)
Inductive error : Type :=
| NetworkError (reason : string)
| GeminiApiError (status : Z)
| BodyError
| NoJsonInResponse
| JsonSyntaxError
| TypeError (cause : typeError).

(** An HTTP response: [json] is the outcome of [response.json()] followed
    by the optional chain [data.candidates?.[0]?.content?.parts?.[0]?.text];
    it throws as well when that chain does, or when the text found is no
    string and has no [match] to call. *)
Record Response : Type := {
  ok : bool;
  httpStatus : Z;
  json : outcome error (option string)
}.

Record GeminiResult : Type := {
  match_ : picked;
  confidence : value
}.

(** [/\{[\s\S]*\}/] *)
Definition reJsonObject : regex :=
  seq [Char (one "{"); Many (fun c => isSpace c || negb (isSpace c))%bool; Char (one "}")].

(** [text.match(re)] without the [g] flag: the text of the leftmost match. *)
Fixpoint search (r : regex) (s : list ascii) : option (list ascii) :=
  match matchAt r s with
  | Some rest => Some (consumed s rest)
  | None =>
      match s with
      | [] => None
      | _ :: s' => search r s'
      end
  end.

Section WithWorld.
Context {World : Type}.

Variable engine : Engine.
(** [fetch] of the prompt built from the source track and the candidates. *)
Variable fetch : UnifiedTrack -> list UnifiedTrack -> async World error Response.
(** [JSON.parse], [None] when it throws a [SyntaxError]. *)
Variable JSON_parse : string -> option Js.json.

Definition callGeminiAPI (sourceTrack : UnifiedTrack) (candidates : list UnifiedTrack)
    : async World error GeminiResult :=
  tryCatch
    (await response <- fetch sourceTrack candidates;
     if negb (ok response) then throw (GeminiApiError (httpStatus response))
     else
       await data <- (fun w => (json response, w));
       let text := default EmptyString data in
       match search reJsonObject (chars text) with
       | None => throw NoJsonInResponse
       | Some jsonMatch =>
           match JSON_parse (of_chars jsonMatch) with
           | None => throw JsonSyntaxError
           | Some result =>
               await bestMatchIndex <-
                 orThrow (TypeError ReadOfNull) (get "bestMatchIndex" result);
               await outside <-
                 orThrow (TypeError NoPrimitiveValue)
                   (orElse (Some (strictEquals bestMatchIndex (Fin (-1))))
                      (orElse (lessThan engine bestMatchIndex (Fin 0))
                         (atLeast engine bestMatchIndex (lengthOf candidates))));
               if outside then
                 await confidence <- orThrow (TypeError ReadOfNull) (get "confidence" result);
                 ret {| match_ := Null; confidence := orZero confidence |}
               else
                 await found <-
                   orThrow (TypeError NoPrimitiveValue) (at_ engine candidates bestMatchIndex);
                 await confidence <- orThrow (TypeError ReadOfNull) (get "confidence" result);
                 ret {| match_ := found; confidence := orZero confidence |}
           end
       end)
    (fun _ =>
       ret {| match_ := firstOrNull candidates; confidence := Val (JNum (Fin (3 # 10))) |}).

End WithWorld.
End Gemini.

(** ** use-gemini-matching.ts: one track of the hook's [matchTracks] *)

Module GeminiHook.
Import Num Types Async Js.

Section WithWorld.
Context {World Error : Type}.

Variable engine : Engine.
Variable searchFn : string -> async World Error (list UnifiedTrack).
Variable fetch : UnifiedTrack -> list UnifiedTrack -> async World Gemini.error Gemini.Response.
Variable JSON_parse : string -> option Js.json.
(** [new Error('Matching cancelled')] *)
Variable cancelled : Error.
(** An error of the model call, seen as an error of the hook. *)
Variable wrap : Gemini.error -> Error.

Definition liftGemini {A} (m : async World Gemini.error A) : async World Error A :=
  fun w =>
    match m w with
    | (Returns a, w') => (Returns a, w')
    | (Throws e, w') => (Throws (wrap e), w')
    end.

(** [existingIdsArray.includes(x)] for [x] a string or [undefined]. *)
Definition includes (existingIdsArray : list string) (x : option string) : bool :=
  match x with
  | Some i => bool_decide (i ∈ existingIdsArray)
  | None => false
  end.

(** [processTrack(index)] for [source = sources[index]]: the record
    stored in [results[index]]. [aborted] is the state of the abort
    signal when the task starts; the delays and the progress callbacks are
    not modelled. *)
Definition processTrack (aborted : bool) (source : UnifiedTrack)
    (existingIdsArray : list string) : async World Error Loose.MatchResult :=
  if aborted then throw cancelled
  else
    tryCatch
      (let query := Matcher.buildSearchQuery source in
       await candidates <- searchFn query;
       match candidates with
       | [] =>
           ret {| Loose.source := source; Loose.target := Null;
                  Loose.confidence := Val (JNum (Fin 0));
                  Loose.status := not_found; Loose.existingId := None |}
       | _ :: _ =>
           await geminiResult <-
             liftGemini (Gemini.callGeminiAPI engine fetch JSON_parse source candidates);
           await status <-
             (if truthyPicked (Gemini.match_ geminiResult) then
                if includes existingIdsArray (idOf (Gemini.match_ geminiResult))
                then ret already_exists
                else
                  await high <-
                    orThrow (wrap (Gemini.TypeError NoPrimitiveValue))
                      (atLeast engine (Gemini.confidence geminiResult) (Fin (70 # 100)));
                  ret (if high : bool then matched else low_confidence)
              else ret not_found);
           ret {| Loose.source := source;
                  Loose.target := Gemini.match_ geminiResult;
                  Loose.confidence := Gemini.confidence geminiResult;
                  Loose.status := status;
                  Loose.existingId :=
                    match status with
                    | already_exists => idOf (Gemini.match_ geminiResult)
                    | _ => None
                    end |}
       end)
      (fun _ =>
         ret {| Loose.source := source; Loose.target := Null;
                Loose.confidence := Val (JNum (Fin 0));
                Loose.status := not_found; Loose.existingId := None |}).

End WithWorld.
End GeminiHook.

(** ** lib/gemini/client.ts *)

Module GeminiClient.
Import Str Regex Num Types Async Js.

Inductive error : Type :=
| ApiKeyMissing
| NetworkError (reason : string)
| GeminiApiError (status : Z)
| BodyError
| NoJsonFound
| JsonSyntaxError
| TypeError (cause : typeError)
| InvalidMatchIndex (index : value)
| SearchError (reason : string).

(** An HTTP response, as in the hook: [json] is the outcome of
    [response.json()] followed by the optional chain to the text, and
    throws as well when the text found is no string. *)
Record Response : Type := {
  ok : bool;
  httpStatus : Z;
  json : outcome error (option string)
}.

(** What [matchWithGemini] returns; confidence and reasoning are the
    properties of the parsed answer as they are. *)
Record GeminiMatch : Type := {
  match_ : picked;
  matchConfidence : value;
  matchReasoning : value
}.

Section WithWorld.
Context {World : Type}.

Variable engine : Engine.
(** [process.env.GEMINI_API_KEY || ''] *)
Variable GEMINI_API_KEY : string.
Variable fetch : UnifiedTrack -> list UnifiedTrack -> async World error Response.
Variable JSON_parse : string -> option Js.json.
(** The text of [`${error}`]. *)
Variable showError : error -> string.

Definition matchWithGemini (sourceTrack : UnifiedTrack) (candidates : list UnifiedTrack)
    : async World error GeminiMatch :=
  if String.eqb GEMINI_API_KEY "" then throw ApiKeyMissing
  else
    match candidates with
    | [] =>
        ret {| match_ := Null; matchConfidence := Val (JNum (Fin 0));
               matchReasoning := Val (JStr "No candidates provided") |}
    | _ :: _ =>
        tryCatch
          (await response <- fetch sourceTrack candidates;
           if negb (ok response) then throw (GeminiApiError (httpStatus response))
           else
             await data <- (fun w => (json response, w));
             let text := default EmptyString data in
             match Gemini.search Gemini.reJsonObject (chars text) with
             | None => throw NoJsonFound
             | Some jsonMatch =>
                 match JSON_parse (of_chars jsonMatch) with
                 | None => throw JsonSyntaxError
                 | Some result =>
                     await bestMatchIndex <-
                       orThrow (TypeError ReadOfNull) (get "bestMatchIndex" result);
                     if (strictEquals bestMatchIndex (Fin (-1)) || isNull bestMatchIndex)%bool
                     then
                       await confidence <-
                         orThrow (TypeError ReadOfNull) (get "confidence" result);
                       await reasoning <-
                         orThrow (TypeError ReadOfNull) (get "reasoning" result);
                       ret {| match_ := Null; matchConfidence := confidence;
                              matchReasoning := reasoning |}
                     else
                       await outside <-
                         orThrow (TypeError NoPrimitiveValue)
                           (orElse (lessThan engine bestMatchIndex (Fin 0))
                              (atLeast engine bestMatchIndex (lengthOf candidates)));
                       if outside then throw (InvalidMatchIndex bestMatchIndex)
                       else
                         await found <-
                           orThrow (TypeError NoPrimitiveValue)
                             (at_ engine candidates bestMatchIndex);
                         await confidence <-
                           orThrow (TypeError ReadOfNull) (get "confidence" result);
                         await reasoning <-
                           orThrow (TypeError ReadOfNull) (get "reasoning" result);
                         ret {| match_ := found; matchConfidence := confidence;
                                matchReasoning := reasoning |}
                 end
             end)
          (fun e =>
             ret {| match_ := first candidates;
                    matchConfidence := Val (JNum (Fin (3 # 10)));
                    matchReasoning :=
                      Val (JStr (String.append "Gemini matching failed: "
                                   (String.append (showError e)
                                      ". Using first candidate as fallback."))) |})
    end.

Variable searchFn : string -> async World error (list UnifiedTrack).

(** [existingIds.has(x)] for [x] a string or [undefined]. *)
Definition has (existingIds : gset string) (x : option string) : bool :=
  match x with
  | Some i => bool_decide (i ∈ existingIds)
  | None => false
  end.

(** The status that [batchMatchWithGemini] gives to one answer; [None]
    when comparing the confidence throws. *)
Definition batchStatus (existingIds : gset string) (m : GeminiMatch)
    : option MatchStatus :=
  if truthyPicked (match_ m) then
    if has existingIds (idOf (match_ m)) then Some already_exists
    else
      match atLeast engine (matchConfidence m) (Fin (75 # 100)) with
      | None => None
      | Some true => Some matched
      | Some false =>
          match atLeast engine (matchConfidence m) (Fin (50 # 100)) with
          | None => None
          | Some true => Some low_confidence
          | Some false => Some not_found
          end
      end
  else Some not_found.

(** The loop of [batchMatchWithGemini]; the delays and [onProgress] are not
    modelled. *)
Fixpoint batchLoop (sources : list UnifiedTrack) (existingIds : gset string)
    (results : list Loose.MatchResult) : async World error (list Loose.MatchResult) :=
  match sources with
  | [] => ret results
  | source :: rest =>
      let query := String.append (artist source) (String.append " " (title source)) in
      await candidates <- searchFn query;
      await m <- matchWithGemini source candidates;
      await status <- orThrow (TypeError NoPrimitiveValue) (batchStatus existingIds m);
      batchLoop rest existingIds
        (results ++
         [{| Loose.source := source; Loose.target := match_ m;
             Loose.confidence := matchConfidence m; Loose.status := status;
             Loose.existingId :=
               match status with
               | already_exists => idOf (match_ m)
               | _ => None
               end |}])
  end.

Definition batchMatchWithGemini (sources : list UnifiedTrack) (existingIds : gset string)
    : async World error (list Loose.MatchResult) :=
  batchLoop sources existingIds [].

End WithWorld.
End GeminiClient.

(** ** The matching route: matchTracks, deduplicateResults and the counts *)

Module SyncRoute.
Import Num Types Async.

Record Stats : Type := {
  statMatched : nat;
  lowConfidence : nat;
  notFound : nat;
  alreadyExists : nat
}.

Definition hasStatus (s : MatchStatus) (r : MatchResult) : bool :=
  match s, status r with
  | matched, matched | low_confidence, low_confidence
  | not_found, not_found | already_exists, already_exists => true
  | _, _ => false
  end.

(** [dedupedResults.filter((r) => r.status === s).length] for the four
    statuses. *)
Definition stats (dedupedResults : list MatchResult) : Stats :=
  {| statMatched := length (List.filter (hasStatus matched) dedupedResults);
     lowConfidence := length (List.filter (hasStatus low_confidence) dedupedResults);
     notFound := length (List.filter (hasStatus not_found) dedupedResults);
     alreadyExists := length (List.filter (hasStatus already_exists) dedupedResults) |}.

Section WithSearch.
Context {World Error : Type}.
Variable fuzzy : string -> string -> Q.
Variable searchFn : string -> async World Error (list UnifiedTrack).

(** The body of the handler from [matchTracks] on: the results sent back
    and their counts. *)
Definition matchAndDeduplicate (sourceTracks : list UnifiedTrack)
    (existingIds : gset string) : async World Error (list MatchResult * Stats) :=
  await results <-
    Matcher.matchTracks fuzzy searchFn sourceTracks existingIds DEFAULT_MATCH_CONFIG;
  let dedupedResults := Matcher.deduplicateResults results in
  ret (dedupedResults, stats dedupedResults).

End WithSearch.
End SyncRoute.

(** ** A reader of JSON texts

    The samples need a [JSON.parse]. This one reads the JSON grammar on
    texts of code units below 256: where it answers, [JSON.parse] gives the
    same value (numbers being exact); it gives up, as on a syntax error, on
    what lies outside its range: an escape [\u] above 00FF, a number of
    more than 100 digits or with an exponent beyond 100. A later member of
    an object hides an earlier one of the same name. *)

Module JsonText.
Import Str Num Js.

Local Open Scope char_scope.

Definition isWs (c : ascii) : bool :=
  (N.eqb (code c) 32 || N.eqb (code c) 9 || N.eqb (code c) 10 || N.eqb (code c) 13)%bool.

Fixpoint skipWs (s : list ascii) : list ascii :=
  match s with
  | c :: s' => if isWs c then skipWs s' else s
  | [] => []
  end.

Definition isDigit (c : ascii) : bool := between 48 57 c.

(** The longest run of digits at the start of [s], and what follows. *)
Fixpoint digitRun (s : list ascii) : list ascii * list ascii :=
  match s with
  | c :: s' =>
      if isDigit c then let (run, rest) := digitRun s' in (c :: run, rest)
      else ([], s)
  | [] => ([], [])
  end.

Definition decimal (run : list ascii) : Z :=
  fold_left (fun acc c => acc * 10 + Z.of_N (code c - 48))%Z run 0%Z.

Definition isNil {A} (l : list A) : bool :=
  match l with
  | [] => true
  | _ :: _ => false
  end.

(** [prefix] taken off the start of [s]. *)
Fixpoint strip (prefix s : list ascii) : option (list ascii) :=
  match prefix, s with
  | [], _ => Some s
  | p :: prefix', c :: s' => if Ascii.eqb p c then strip prefix' s' else None
  | _ :: _, [] => None
  end.

(** The fraction of a number: [.] and digits, or nothing. *)
Definition fraction (s : list ascii) : option (list ascii * list ascii) :=
  match s with
  | c :: s' =>
      if Ascii.eqb c "." then
        let (run, rest) := digitRun s' in
        if isNil run then None else Some (run, rest)
      else Some ([], s)
  | [] => Some ([], [])
  end.

(** The exponent of a number: [e] or [E], a sign, digits; or nothing. *)
Definition exponent (s : list ascii) : option (Z * list ascii) :=
  match s with
  | c :: s' =>
      if (Ascii.eqb c "e" || Ascii.eqb c "E")%bool then
        let (sign, s'') :=
          match s' with
          | d :: t => if Ascii.eqb d "-" then ((-1)%Z, t)
                      else if Ascii.eqb d "+" then (1%Z, t) else (1%Z, s')
          | [] => (1%Z, s')
          end in
        let (run, rest) := digitRun s'' in
        if isNil run then None else Some ((sign * decimal run)%Z, rest)
      else Some (0%Z, s)
  | [] => Some (0%Z, [])
  end.

Definition parseNumber (s : list ascii) : option (number * list ascii) :=
  let (negative, s1) :=
    match s with
    | c :: s' => if Ascii.eqb c "-" then (true, s') else (false, s)
    | [] => (false, s)
    end in
  let (whole, s2) := digitRun s1 in
  match whole with
  | [] => None
  | c :: more =>
      if (Ascii.eqb c "0" && negb (isNil more))%bool then None
      else
        match fraction s2 with
        | None => None
        | Some (part, s3) =>
            match exponent s3 with
            | None => None
            | Some (e, s4) =>
                if (Nat.ltb 100 (length whole + length part) || Z.ltb 100 (Z.abs e))%bool
                then None
                else
                  let mantissa := decimal (whole ++ part) in
                  let scale := (e - Z.of_nat (length part))%Z in
                  let q :=
                    if (0 <=? scale)%Z then Qmake (mantissa * 10 ^ scale) 1
                    else Qmake mantissa (Z.to_pos (10 ^ (- scale))) in
                  Some (Fin (if negative : bool then Qopp q else q), s4)
            end
        end
  end.

Definition hexDigit (c : ascii) : option N :=
  if between 48 57 c then Some (code c - 48)%N
  else if between 97 102 c then Some (code c - 87)%N
  else if between 65 70 c then Some (code c - 55)%N
  else None.

(** The code unit that [\c] stands for, [\u] apart. *)
Definition escaped (c : ascii) : option ascii :=
  if N.eqb (code c) 34 then Some c
  else if N.eqb (code c) 92 then Some c
  else if Ascii.eqb c "/" then Some c
  else if Ascii.eqb c "b" then Some (ascii_of_N 8)
  else if Ascii.eqb c "f" then Some (ascii_of_N 12)
  else if Ascii.eqb c "n" then Some (ascii_of_N 10)
  else if Ascii.eqb c "r" then Some (ascii_of_N 13)
  else if Ascii.eqb c "t" then Some (ascii_of_N 9)
  else None.

Definition pushUnit (c : ascii) (r : option (list ascii * list ascii))
    : option (list ascii * list ascii) :=
  match r with
  | Some (text, rest) => Some (c :: text, rest)
  | None => None
  end.

(** A string, from behind its opening quote to its closing quote. *)
Fixpoint parseString (s : list ascii) : option (list ascii * list ascii) :=
  match s with
  | [] => None
  | c :: r =>
      if N.eqb (code c) 34 then Some ([], r)
      else if N.eqb (code c) 92 then
        match r with
        | [] => None
        | e :: r' =>
            match escaped e with
            | Some u => pushUnit u (parseString r')
            | None =>
                if Ascii.eqb e "u" then
                  match r' with
                  | a :: b :: c' :: d :: r'' =>
                      match hexDigit a, hexDigit b, hexDigit c', hexDigit d with
                      | Some 0%N, Some 0%N, Some x, Some y =>
                          pushUnit (ascii_of_N (x * 16 + y)) (parseString r'')
                      | _, _, _, _ => None
                      end
                  | _ => None
                  end
                else None
            end
        end
      else if N.ltb (code c) 32 then None
      else pushUnit c (parseString r)
  end.

Fixpoint parseValue (fuel : nat) (s : list ascii) : option (json * list ascii) :=
  match fuel with
  | O => None
  | S fuel =>
      let s := skipWs s in
      match strip (chars "null") s with
      | Some r => Some (JNull, r)
      | None =>
      match strip (chars "true") s with
      | Some r => Some (JBool true, r)
      | None =>
      match strip (chars "false") s with
      | Some r => Some (JBool false, r)
      | None =>
      match s with
      | [] => None
      | c :: r =>
          if N.eqb (code c) 34 then
            match parseString r with
            | Some (text, r') => Some (JStr (of_chars text), r')
            | None => None
            end
          else if Ascii.eqb c "[" then
            match skipWs r with
            | c' :: r' =>
                if Ascii.eqb c' "]" then Some (JArr [], r')
                else
                  match parseElements fuel r with
                  | Some (items, r'') => Some (JArr items, r'')
                  | None => None
                  end
            | [] => None
            end
          else if Ascii.eqb c "{" then
            match skipWs r with
            | c' :: r' =>
                if Ascii.eqb c' "}" then Some (JObj [], r')
                else
                  match parseMembers fuel r with
                  | Some (fields, r'') => Some (JObj (rev fields), r'')
                  | None => None
                  end
            | [] => None
            end
          else
            match parseNumber s with
            | Some (n, r') => Some (JNum n, r')
            | None => None
            end
      end end end end
  end
with parseElements (fuel : nat) (s : list ascii) : option (list json * list ascii) :=
  match fuel with
  | O => None
  | S fuel =>
      match parseValue fuel s with
      | None => None
      | Some (item, r) =>
          match skipWs r with
          | c :: r' =>
              if Ascii.eqb c "," then
                match parseElements fuel r' with
                | Some (items, r'') => Some (item :: items, r'')
                | None => None
                end
              else if Ascii.eqb c "]" then Some ([item], r')
              else None
          | [] => None
          end
      end
  end
with parseMembers (fuel : nat) (s : list ascii)
    : option (list (string * json) * list ascii) :=
  match fuel with
  | O => None
  | S fuel =>
      match skipWs s with
      | [] => None
      | q :: r =>
          if negb (N.eqb (code q) 34) then None
          else
            match parseString r with
            | None => None
            | Some (key, r1) =>
                match skipWs r1 with
                | [] => None
                | colon :: r2 =>
                    if negb (Ascii.eqb colon ":") then None
                    else
                      match parseValue fuel r2 with
                      | None => None
                      | Some (j, r3) =>
                          match skipWs r3 with
                          | c :: r4 =>
                              if Ascii.eqb c "," then
                                match parseMembers fuel r4 with
                                | Some (fields, r5) =>
                                    Some ((of_chars key, j) :: fields, r5)
                                | None => None
                                end
                              else if Ascii.eqb c "}" then Some ([(of_chars key, j)], r4)
                              else None
                          | [] => None
                          end
                      end
                end
            end
      end
  end.

(** The whole text is one value, white space around it apart. Two calls
    of the reader in a row take at least one code unit, so twice the
    length is fuel enough. *)
Definition parse (text : string) : option json :=
  let s := chars text in
  match parseValue (2 * length s + 2) s with
  | Some (j, rest) => if isNil (skipWs rest) then Some j else None
  | None => None
  end.

End JsonText.

(** * Sample data and notions *)

Import Str Regex Normalize Num Types Async.

(** ** Sample data *)

Module Samples.

Definition track (p : Platform) (i t a : string) (d : Q) (code : option string)
    : UnifiedTrack :=
  {| id := i; platform := p; title := t; artist := a; artists := [a];
     album := None; durationMs := d; isrc := code; videoId := None; raw := "" |}.

(** A stand-in for the similarity ratio: 1 on equal strings, 0 otherwise. *)
Definition exactFuzzy (a b : string) : Q := if String.eqb a b then 1 else 0.

Definition hello : UnifiedTrack := track spotify "sp:1" "Hello" "Adele" 295000 None.
Definition helloCoded : UnifiedTrack := track spotify "sp:1" "Hello" "Adele" 295000 (Some "GBBKS1500214").
Definition helloVideo : UnifiedTrack :=
  track youtube "yt:hello" "Hello (Official Video)" "AdeleVEVO" 296000 None.
Definition goodbye : UnifiedTrack := track youtube "yt:bye" "Goodbye" "Someone" 295000 None.

(** The outside world counts the searches made so far. *)
Definition searchHit : string -> async nat string (list UnifiedTrack) :=
  fun q n => (Returns [helloVideo; goodbye], S n).
Definition searchNothing : string -> async nat string (list UnifiedTrack) :=
  fun q n => (Returns [], S n).
Definition searchDown : string -> async nat string (list UnifiedTrack) :=
  fun q n => (Throws "503", S n).
(** Fails on the first search, answers the later ones. *)
Definition searchFlaky : string -> async nat string (list UnifiedTrack) :=
  fun q n => match n with
             | O => (Throws "timeout", S n)
             | S _ => (Returns [helloVideo], S n)
             end.

Definition result (s t : UnifiedTrack) (c : Q) (st : MatchStatus) : MatchResult :=
  {| source := s; target := Some t; confidence := Fin c; status := st;
     existingId := None |}.

(** Two sources matched to the same video, the second one below the
    low-confidence threshold. *)
Definition strong : MatchResult := result hello helloVideo (99 # 100) matched.
Definition weak : MatchResult := result goodbye helloVideo (15 # 100) not_found.

(** A configuration that asks for equal durations: tolerance 0. *)
Definition strictConfig : MatchConfig := {|
  highConfidenceThreshold := 80 # 100;
  lowConfidenceThreshold := 55 # 100;
  durationToleranceMs := 0;
  durationWeight := 15 # 100;
  titleWeight := 55 # 100;
  artistWeight := 30 # 100;
  maxSearchResults := 10
|}.

Definition untimed : UnifiedTrack := track spotify "sp:2" "Intro" "Nobody" 0 None.
Definition untimedVideo : UnifiedTrack := track youtube "yt:intro" "Intro" "Nobody" 0 None.

Import Js.

(** *** Answers of the model *)

Definition quote : string := String (ascii_of_nat 34) EmptyString.

(** The text of a JSON string, for a text without quotes and backslashes. *)
Definition quoted (s : string) : string := String.append quote (String.append s quote).

(** The text of an object with the given members. *)
Fixpoint members (fields : list (string * string)) : string :=
  match fields with
  | [] => EmptyString
  | [(name, text)] => String.append (quoted name) (String.append ": " text)
  | (name, text) :: rest =>
      String.append (quoted name)
        (String.append ": " (String.append text (String.append ", " (members rest))))
  end.
Definition object (fields : list (string * string)) : string :=
  String.append "{" (String.append (members fields) "}").

(** The service answers with the given text. *)
Definition answering (text : string)
    : UnifiedTrack -> list UnifiedTrack -> async nat Gemini.error Gemini.Response :=
  fun _ _ n => (Returns {| Gemini.ok := true; Gemini.httpStatus := 200;
                           Gemini.json := Returns (Some text) |}, S n).


(** *** The engine of the samples *)

Definition digitsText (z : Z) : string := DecimalString.NilZero.string_of_int (Z.to_int z).

(** [z] without its zeros at the end, and their number; [fuel] bounds the
    search. *)
Fixpoint stripZeros (fuel : nat) (z : Z) (dropped : Z) : Z * Z :=
  match fuel with
  | O => (z, dropped)
  | S fuel =>
      if ((z =? 0) || negb (z mod 10 =? 0))%Z%bool then (z, dropped)
      else stripZeros fuel (z / 10)%Z (dropped + 1)%Z
  end.

(** The least [j] below [fuel] with [a * 10^j] a multiple of [d]: the
    number of decimals of [a / d], when it has a finite decimal text. *)
Fixpoint decimals (fuel : nat) (a d : Z) (j : Z) : option Z :=
  match fuel with
  | O => None
  | S fuel =>
      if (a mod d =? 0)%Z then Some j else decimals fuel (a * 10)%Z d (j + 1)%Z
  end.

Definition zeros (n : Z) : string := string_of_list_ascii (repeat "0"%char (Z.to_nat n)).

Definition headText (n : nat) (s : string) : string :=
  string_of_list_ascii (firstn n (list_ascii_of_string s)).
Definition tailText (n : nat) (s : string) : string :=
  string_of_list_ascii (skipn n (list_ascii_of_string s)).

(** The text of the positive number [s * 10^(n - k)] whose digits are the
    [k] digits of [s], as Number::toString lays it out. *)
Definition layout (s : Z) (k n : Z) : string :=
  let text := digitsText s in
  if ((k <=? n) && (n <=? 21))%Z%bool then String.append text (zeros (n - k))
  else if ((0 <? n) && (n <=? 21))%Z%bool then
    String.append (headText (Z.to_nat n) text)
      (String.append "." (tailText (Z.to_nat n) text))
  else if ((-6 <? n) && (n <=? 0))%Z%bool then
    String.append "0." (String.append (zeros (- n)) text)
  else
    let mantissa :=
      if (k =? 1)%Z then text
      else String.append (headText 1 text) (String.append "." (tailText 1 text)) in
    String.append mantissa
      (String.append "e"
         (String.append (if (0 <=? n - 1)%Z then "+" else "-") (digitsText (Z.abs (n - 1))))).

(** The text of a number: Number::toString for a number that has a
    decimal text of at most 15 digits, as the numbers of an answer have;
    the text of the whole part for any other, which the samples do not
    convert. *)
Definition numberText (x : number) : string :=
  match x with
  | NaN => "NaN"
  | NegInf => "-Infinity"
  | PosInf => "Infinity"
  | Fin q =>
      let a := Z.abs (Qnum q) in
      let d := Zpos (Qden q) in
      if (a =? 0)%Z then "0"
      else
        let sign := if (Qnum q <? 0)%Z then "-" else "" in
        match decimals 400 a d 0 with
        | None => String.append sign (digitsText (a / d))
        | Some j =>
            let (s, dropped) := stripZeros 400 (a * 10 ^ j / d) 0 in
            let k := Z.of_nat (String.length (digitsText s)) in
            String.append sign (layout s k (k + dropped - j))
        end
  end.

Definition startsWith (p s : list ascii) : bool :=
  match JsonText.strip p s with
  | Some _ => true
  | None => false
  end.

Fixpoint radixValue (radix : N) (acc : N) (s : list ascii) : option N :=
  match s with
  | [] => Some acc
  | c :: s' =>
      match JsonText.hexDigit c with
      | Some v => if N.ltb v radix then radixValue radix (acc * radix + v) s' else None
      | None => None
      end
  end.

(** A number as a double holds it: infinite from 2^1024 - 2^970 on, zero
    up to 2^-1075. [size] is the number of digits before the decimal
    point, by which the far cases are told without computing the power. *)
Definition ranged (negative : bool) (mantissa scale size : Z) : number :=
  if (mantissa =? 0)%Z then Fin 0
  else if (400 <? size)%Z then (if negative then NegInf else PosInf)
  else if (size <? -400)%Z then Fin 0
  else
    let q := if (0 <=? scale)%Z then Qmake (mantissa * 10 ^ scale) 1
             else Qmake mantissa (Z.to_pos (10 ^ (- scale))) in
    if Qle_bool (Qmake (2 ^ 1024 - 2 ^ 970) 1) q then (if negative then NegInf else PosInf)
    else if Qle_bool q (Qmake 1 (Z.to_pos (2 ^ 1075))) then Fin 0
    else Fin (if negative then Qopp q else q).

(** A literal with a radix prefix: 0x, 0o or 0b in either case, and digits
    of that radix; [None] when the text has no such prefix. *)
Definition radixLiteral (s : list ascii) : option number :=
  match s with
  | zero :: letter :: ds =>
      if negb (Ascii.eqb zero "0") then None
      else
        let radix :=
          if (Ascii.eqb letter "x" || Ascii.eqb letter "X")%bool then Some 16%N
          else if (Ascii.eqb letter "o" || Ascii.eqb letter "O")%bool then Some 8%N
          else if (Ascii.eqb letter "b" || Ascii.eqb letter "B")%bool then Some 2%N
          else None in
        match radix with
        | None => None
        | Some r =>
            match ds, radixValue r 0 ds with
            | _ :: _, Some n =>
                Some (ranged false (Z.of_N n) 0
                        (Z.of_nat (String.length (digitsText (Z.of_N n)))))
            | _, _ => Some NaN
            end
        end
  | _ => None
  end.

(** A decimal literal without its sign: digits, a point, digits, an
    exponent, with a digit before or after the point. *)
Definition decimalLiteral (negative : bool) (s : list ascii) : number :=
  let (whole, s1) := JsonText.digitRun s in
  let (part, s2) :=
    match s1 with
    | c :: r => if Ascii.eqb c "." then JsonText.digitRun r else ([], s1)
    | [] => ([], s1)
    end in
  if (JsonText.isNil whole && JsonText.isNil part)%bool then NaN
  else
    match JsonText.exponent s2 with
    | Some (e, []) =>
        let mantissa := JsonText.decimal (whole ++ part) in
        if (1000000 <? Z.abs e)%Z then
          if ((mantissa =? 0) || (e <? 0))%Z%bool then Fin 0
          else if negative then NegInf else PosInf
        else
          let scale := (e - Z.of_nat (length part))%Z in
          ranged negative mantissa scale
            (Z.of_nat (String.length (digitsText mantissa)) + scale)
    | _ => NaN
    end.

(** The number of a text: StringToNumber on code units below 256, the
    number being exact where a double rounds. *)
Definition textNumber (s : string) : number :=
  match trim (chars s) with
  | [] => Fin 0
  | c :: rest =>
      match radixLiteral (c :: rest) with
      | Some n => n
      | None =>
          let (negative, body) :=
            if Ascii.eqb c "-" then (true, rest)
            else if Ascii.eqb c "+" then (false, rest)
            else (false, c :: rest) in
          if String.eqb (of_chars body) "Infinity"
          then (if negative : bool then NegInf else PosInf)
          else decimalLiteral negative body
      end
  end.

(** What an array inherits: the members of Array.prototype and of
    Object.prototype. *)
Definition arrayMembers : list string :=
  ["constructor"; "at"; "concat"; "copyWithin"; "fill"; "find"; "findIndex";
   "findLast"; "findLastIndex"; "lastIndexOf"; "pop"; "push"; "reverse"; "shift";
   "unshift"; "slice"; "sort"; "splice"; "includes"; "indexOf"; "join"; "keys";
   "entries"; "values"; "forEach"; "filter"; "flat"; "flatMap"; "map"; "every";
   "some"; "reduce"; "reduceRight"; "toLocaleString"; "toString"; "toReversed";
   "toSorted"; "toSpliced"; "with"; "hasOwnProperty"; "isPrototypeOf";
   "propertyIsEnumerable"; "valueOf"; "__proto__"; "__defineGetter__";
   "__defineSetter__"; "__lookupGetter__"; "__lookupSetter__"].

Definition engine : Engine :=
  {| Number_toString := numberText;
     String_toNumber := textNumber;
     inherited := fun key => bool_decide (key ∈ arrayMembers) |}.

End Samples.

(** ** Notions used to state the properties *)

Module Notions.
Import Matcher.

Local Open Scope char_scope.

(** *** Text *)

(** What is left after a match is a suffix of the text. *)
Definition shrinking (k : cont) : Prop :=
  forall s rest, k s = Some rest -> rest `suffix_of` s.

(** [p*] followed by nothing takes the longest run. *)
Fixpoint dropRun (p : ascii -> bool) (s : list ascii) : list ascii :=
  match s with
  | c :: s' => if p c then dropRun p s' else s
  | [] => []
  end.

(** A code unit that [toLowerCase] leaves alone. *)
Definition lowered (c : ascii) : Prop := toLowerCaseChar c = c.

Definition startsClean (s : list ascii) : bool :=
  match s with
  | c :: _ => negb (isSpace c)
  | [] => true
  end.

(** Every white-space unit is a single space between two other units, or
    before the end. *)
Fixpoint tidy (s : list ascii) : Prop :=
  match s with
  | [] => True
  | c :: s' => (isSpace c = true -> c = " " /\ startsClean s' = true) /\ tidy s'
  end.

Definition collapse : list ascii -> list ascii := replaceAll reSpaces (with_ " ").

(** [\s*a\s*] for one code unit [a]. *)
Definition reSeparator (a : ascii) : regex := seq [sp; Char (one a); sp].

(** The ten patterns that normalizeTrackTitle deletes. *)
Definition titlePatterns : list regex :=
  [reFeatParen; reFtParen; reFeatBracket; reVideo; reOfficialAudio;
   reOfficialParen; reLyrics; reAudio; reVisualizer; rePipe].

(** The three suffixes that normalizeArtistName deletes. *)
Definition artistSuffixes : list regex := [reVevo; reTopic; reOfficial].

(** None of the patterns matches anywhere in [s]. *)
Definition free (rs : list regex) (s : string) : bool :=
  forallb (fun r => negb (occurs r (chars s))) rs.

(** *** Results *)

(** What either pass may do to one result: leave it as it is, or, when it
    has a target, set its status to already_exists. *)
Definition keptOrEscalated (r r' : MatchResult) : Prop :=
  target r' = target r /\ source r' = source r /\ confidence r' = confidence r /\
  (target r = None -> r' = r) /\
  (status r = already_exists -> status r' = already_exists) /\
  (status r' <> status r -> status r' = already_exists /\ target r <> None).

(** A result marked already_exists names a target that is at the
    destination. *)
Definition flagged (existing : gset string) (r : MatchResult) : Prop :=
  status r = already_exists ->
  exists t, target r = Some t /\ id t ∈ existing /\ existingId r = Some (id t).

(** The sequential path on candidates already fetched: the decision of
    matchTrack, then the check of matchTracks. *)
Definition sequential (fuzzy : string -> string -> Q) (source : UnifiedTrack)
    (candidates : list UnifiedTrack) (config : MatchConfig)
    (existingIds : list string) : MatchResult :=
  checkExisting (list_to_set existingIds)
    (scoreAndClassify fuzzy source candidates config).

Definition message (source : UnifiedTrack) (candidates : list UnifiedTrack)
    (config : MatchConfig) (existingIds : list string) : Worker.WorkerMessage :=
  {| Worker.type := "match"; Worker.source := source;
     Worker.candidates := candidates; Worker.config := config;
     Worker.existingIds := existingIds |}.

(** The best candidate scored below the low-confidence threshold, and is
    already at the destination. *)
Definition belowThresholdAtDestination (fuzzy : string -> string -> Q)
    (source : UnifiedTrack) (candidates : list UnifiedTrack) (config : MatchConfig)
    (existingIds : list string) : bool :=
  let direct := scoreAndClassify fuzzy source candidates config in
  match status direct, target direct with
  | not_found, Some t => bool_decide (id t ∈ (list_to_set existingIds : gset string))
  | _, _ => false
  end.

Import Js.

(** The documented fallback: the first candidate, confidence 0.3. *)
Definition fallback (candidates : list UnifiedTrack) : Gemini.GeminiResult :=
  {| Gemini.match_ := firstOrNull candidates;
     Gemini.confidence := Val (JNum (Fin (3 # 10))) |}.

(** An answer that cannot be read: it is [null], or its bestMatchIndex is
    an array or an object that has no primitive value. *)
Definition unreadable (engine : Engine) (result : json) : Prop :=
  get "bestMatchIndex" result = None \/
  exists index, get "bestMatchIndex" result = Some index /\
                toPrimitive engine index = None.

(** The failures that reach the catch block. *)
Inductive failed {World : Type} (engine : Engine)
    (fetch : UnifiedTrack -> list UnifiedTrack -> async World Gemini.error Gemini.Response)
    (JSON_parse : string -> option json)
    (sourceTrack : UnifiedTrack) (candidates : list UnifiedTrack) (w : World)
    : World -> Prop :=
| fetch_rejects e w' :
    fetch sourceTrack candidates w = (Throws e, w') ->
    failed engine fetch JSON_parse sourceTrack candidates w w'
| response_not_ok response w' :
    fetch sourceTrack candidates w = (Returns response, w') ->
    Gemini.ok response = false ->
    failed engine fetch JSON_parse sourceTrack candidates w w'
| body_rejects response e w' :
    fetch sourceTrack candidates w = (Returns response, w') ->
    Gemini.ok response = true -> Gemini.json response = Throws e ->
    failed engine fetch JSON_parse sourceTrack candidates w w'
| no_json_object response data w' :
    fetch sourceTrack candidates w = (Returns response, w') ->
    Gemini.ok response = true -> Gemini.json response = Returns data ->
    Gemini.search Gemini.reJsonObject (chars (default EmptyString data)) = None ->
    failed engine fetch JSON_parse sourceTrack candidates w w'
| malformed_json response data jsonMatch w' :
    fetch sourceTrack candidates w = (Returns response, w') ->
    Gemini.ok response = true -> Gemini.json response = Returns data ->
    Gemini.search Gemini.reJsonObject (chars (default EmptyString data)) = Some jsonMatch ->
    JSON_parse (of_chars jsonMatch) = None ->
    failed engine fetch JSON_parse sourceTrack candidates w w'
| answer_unreadable response data jsonMatch result w' :
    fetch sourceTrack candidates w = (Returns response, w') ->
    Gemini.ok response = true -> Gemini.json response = Returns data ->
    Gemini.search Gemini.reJsonObject (chars (default EmptyString data)) = Some jsonMatch ->
    JSON_parse (of_chars jsonMatch) = Some result ->
    unreadable engine result ->
    failed engine fetch JSON_parse sourceTrack candidates w w'.

(** The model answered with a text whose JSON object parses to [result]. *)
Definition answered {World : Type}
    (fetch : UnifiedTrack -> list UnifiedTrack -> async World Gemini.error Gemini.Response)
    (JSON_parse : string -> option json)
    (sourceTrack : UnifiedTrack) (candidates : list UnifiedTrack) (w w' : World)
    (result : json) : Prop :=
  exists response data jsonMatch,
    fetch sourceTrack candidates w = (Returns response, w') /\
    Gemini.ok response = true /\ Gemini.json response = Returns data /\
    Gemini.search Gemini.reJsonObject (chars (default EmptyString data)) = Some jsonMatch /\
    JSON_parse (of_chars jsonMatch) = Some result.


End Notions.

(** ** Further notions, for the properties beyond the claims *)

Module Views.
Import Matcher.

Local Open Scope char_scope.

(** The score of one candidate is not a number, or lies strictly below
    [s]. *)
Definition outscored (s x : number) : Prop := ge x s = false.

(** [config] with another low-confidence threshold. *)
Definition withLow (config : MatchConfig) (low : Q) : MatchConfig :=
  {| highConfidenceThreshold := highConfidenceThreshold config;
     lowConfidenceThreshold := low;
     durationToleranceMs := durationToleranceMs config;
     durationWeight := durationWeight config;
     titleWeight := titleWeight config;
     artistWeight := artistWeight config;
     maxSearchResults := maxSearchResults config |}.

(** The result that stands for "nothing found". *)
Definition nothingFound (source : UnifiedTrack) : MatchResult :=
  {| source := source; target := None; confidence := Fin 0;
     status := not_found; existingId := None |}.

(** The target identifiers of the results that are still to be added:
    those not marked already_exists. *)
Definition pendingIds (results : list MatchResult) : list string :=
  omap (fun r =>
          match status r, target r with
          | already_exists, _ => None
          | _, Some t => Some (id t)
          | _, None => None
          end) results.

(** Some result of [earlier] has a target with identifier [i]. *)
Definition claimed (earlier : list MatchResult) (i : string) : bool :=
  existsb (fun r => match target r with
                    | Some t => String.eqb (id t) i
                    | None => false
                    end) earlier.

(** A result that is not marked already_exists does not target a track of
    the destination. *)
Definition fresh (existing : gset string) (r : MatchResult) : Prop :=
  status r <> already_exists -> forall t, target r = Some t -> id t ∉ existing.


Import Js.

(** The record that the hook stores for "nothing found". *)
Definition nothingStored (source : UnifiedTrack) : Loose.MatchResult :=
  {| Loose.source := source; Loose.target := Null; Loose.confidence := Val (JNum (Fin 0));
     Loose.status := not_found; Loose.existingId := None |}.

(** A match that is no track and yet is there: the length of the list, or
    an inherited member of the array. *)
Definition foreign (m : picked) : Prop :=
  match m with
  | Length _ | Inherited _ => True
  | _ => False
  end.

(** An index that is, or converts to, a text: a string, an array, an
    object. *)
Definition textual (index : json) : Prop :=
  match index with
  | JStr _ | JArr _ | JObj _ => True
  | _ => False
  end.

(** The server-side model answered with a text whose JSON object parses
    to [result]. *)
Definition clientAnswered {World : Type}
    (fetch : UnifiedTrack -> list UnifiedTrack ->
             async World GeminiClient.error GeminiClient.Response)
    (JSON_parse : string -> option json)
    (sourceTrack : UnifiedTrack) (candidates : list UnifiedTrack) (w w' : World)
    (result : json) : Prop :=
  exists response data jsonMatch,
    fetch sourceTrack candidates w = (Returns response, w') /\
    GeminiClient.ok response = true /\ GeminiClient.json response = Returns data /\
    Gemini.search Gemini.reJsonObject (chars (default EmptyString data)) = Some jsonMatch /\
    JSON_parse (of_chars jsonMatch) = Some result.

(** What the status of a result of batchMatchWithGemini says about its
    target and its confidence. *)
Definition graded (engine : Engine) (existing : gset string) (r : Loose.MatchResult)
    : Prop :=
  match Loose.status r with
  | already_exists =>
      exists t, Loose.target r = Track t /\ id t ∈ existing /\
                Loose.existingId r = Some (id t)
  | matched =>
      truthyPicked (Loose.target r) = true /\
      (forall t, Loose.target r = Track t -> id t ∉ existing) /\
      atLeast engine (Loose.confidence r) (Fin (75 # 100)) = Some true
  | low_confidence =>
      truthyPicked (Loose.target r) = true /\
      (forall t, Loose.target r = Track t -> id t ∉ existing) /\
      atLeast engine (Loose.confidence r) (Fin (50 # 100)) = Some true /\
      atLeast engine (Loose.confidence r) (Fin (75 # 100)) = Some false
  | not_found =>
      truthyPicked (Loose.target r) = true ->
      (forall t, Loose.target r = Track t -> id t ∉ existing) /\
      atLeast engine (Loose.confidence r) (Fin (50 # 100)) = Some false
  end.

End Views.

(** ** Further sample data *)

Module MoreSamples.
Import Samples.

(** Answers the first search, refuses the later ones. *)
Definition searchOnce : string -> async nat string (list UnifiedTrack) :=
  fun q n => match n with
             | O => (Returns [helloVideo], S n)
             | S _ => (Throws "429", S n)
             end.

(** The search by code times out; the search for the normalized query
    "adele hello" answers with one poor candidate; any other query finds
    nothing. *)
Definition searchByText : string -> async nat string (list UnifiedTrack) :=
  fun q n =>
    if String.eqb q "GBBKS1500214" then (Throws "timeout", S n)
    else if String.eqb q "adele hello" then (Returns [goodbye], S n)
    else (Returns [], S n).

(** The search by code finds nothing; every later search is refused. *)
Definition searchEmptyThenDown : string -> async nat string (list UnifiedTrack) :=
  fun q n => match n with
             | O => (Returns [], S n)
             | S _ => (Throws "429", S n)
             end.

Import Js.

(** The model service cannot be reached. *)
Definition fetchDown
    : UnifiedTrack -> list UnifiedTrack -> async nat Gemini.error Gemini.Response :=
  fun _ _ n => (Throws (Gemini.NetworkError "offline"), S n).

(** The model picks the second candidate. *)
Definition pickObject : string :=
  object [("bestMatchIndex", "1"); ("confidence", "0.9")].
Definition fetchPick
    : UnifiedTrack -> list UnifiedTrack -> async nat Gemini.error Gemini.Response :=
  answering pickObject.

(** The model names a member of the list instead of an index. *)
Definition lengthObject : string :=
  object [("bestMatchIndex", quoted "length"); ("confidence", "0.9")].
Definition fetchLength
    : UnifiedTrack -> list UnifiedTrack -> async nat Gemini.error Gemini.Response :=
  answering lengthObject.

(** The server-side call, with an answer whose index is 5. *)
Definition clientAnswering (text : string)
    : UnifiedTrack -> list UnifiedTrack ->
      async nat GeminiClient.error GeminiClient.Response :=
  fun _ _ n => (Returns {| GeminiClient.ok := true; GeminiClient.httpStatus := 200;
                           GeminiClient.json := Returns (Some text) |}, S n).
Definition clientObject : string :=
  object [("bestMatchIndex", "5"); ("confidence", "0.9");
          ("reasoning", quoted "same song")].
Definition clientFetch
    : UnifiedTrack -> list UnifiedTrack ->
      async nat GeminiClient.error GeminiClient.Response :=
  clientAnswering clientObject.
Definition clientLengthObject : string :=
  object [("bestMatchIndex", quoted "length"); ("confidence", "0.9");
          ("reasoning", quoted "all of them")].
Definition clientShow (e : GeminiClient.error) : string :=
  match e with
  | GeminiClient.InvalidMatchIndex _ => "Error: Invalid match index: 5"
  | _ => "Error"
  end.
Definition clientSearch : string -> async nat GeminiClient.error (list UnifiedTrack) :=
  fun q n => (Returns [helloVideo; goodbye], S n).

End MoreSamples.

(** * Properties *)

(** ** The matcher *)

Module MatcherFacts.
Import Matcher Notions.

Section WithSearch.
Context {World Error : Type}.
Variable fuzzy : string -> string -> Q.
Variable searchFn : string -> async World Error (list UnifiedTrack).

(** The fast path never throws. *)
Lemma fastPath_returns (source : UnifiedTrack) (w : World) :
  exists o w', fastPath searchFn source w = (Returns o, w').
Proof.
  unfold fastPath, tryCatch, bind, ret.
  destruct (truthy (isrc source)); [|eauto].
  destruct (searchFn _ w) as [[[|first rest]|e] w']; eauto.
Qed.

(** Control reaches the general path exactly when the source has no usable
    code, or the search by code came back empty or failed. *)
Lemma fastPath_None (source : UnifiedTrack) (w w' : World) :
  fastPath searchFn source w = (Returns None, w') <->
  (truthy (isrc source) = false /\ w' = w) \/
  (truthy (isrc source) = true /\
   (searchFn (default "" (isrc source)) w = (Returns [], w') \/
    exists e, searchFn (default "" (isrc source)) w = (Throws e, w'))).
Proof.
  unfold fastPath, tryCatch, bind, ret.
  destruct (truthy (isrc source)).
  - destruct (searchFn _ w) as [[[|first rest]|e] w1]; split.
    + intros [= <-]. right. eauto.
    + intros [[? _]|[_ [[= <-]|[e [=]]]]]; [discriminate|reflexivity].
    + intros [=].
    + intros [[? _]|[_ [[=]|[e [=]]]]]. discriminate.
    + intros [= <-]. right. eauto.
    + intros [[? _]|[_ [[=]|[e' [= _ <-]]]]]; [discriminate|reflexivity].
  - split.
    + intros [= <-]. left. auto.
    + intros [[_ ->]|[? _]]; [reflexivity|discriminate].
Qed.

Lemma matchTrack_general (source : UnifiedTrack) (config : MatchConfig) (w w1 : World) :
  fastPath searchFn source w = (Returns None, w1) ->
  matchTrack fuzzy searchFn source config w = generalPath fuzzy searchFn source config w1.
Proof. intros H. unfold matchTrack, bind. now rewrite H. Qed.

(** C6. A source track that carries a recording code: when the search by
    code returns candidates, the first one is the match, with confidence
    0.99 and status matched, whatever the similarity function; when that
    search throws or returns nothing, matchTrack goes on to search for the
    normalized query, from the state the search by code left, and its
    outcome is that of this second search alone: the scored candidates
    when it answers, its own error when it throws. The error of the search
    by code is not seen again. *)
Theorem isrc_fast_path (source : UnifiedTrack) (config : MatchConfig)
    (code : string) (w : World) :
  isrc source = Some code -> code <> "" ->
  matchTrack fuzzy searchFn source config w =
  match searchFn code w with
  | (Returns (first :: _), w') =>
      (Returns {| source := source; target := Some first;
                  confidence := Fin (99 # 100); status := matched;
                  existingId := None |}, w')
  | (Returns [], w') | (Throws _, w') =>
      match searchFn (buildSearchQuery source) w' with
      | (Returns candidates, w'') =>
          (Returns (scoreAndClassify fuzzy source candidates config), w'')
      | (Throws e, w'') => (Throws e, w'')
      end
  end.
Proof.
  intros Hcode Hne.
  assert (Ht : truthy (isrc source) = true).
  { rewrite Hcode. simpl. apply negb_true_iff. now apply String.eqb_neq. }
  unfold matchTrack, fastPath, generalPath, tryCatch, bind, ret.
  rewrite Ht, Hcode. simpl.
  destruct (searchFn code w) as [[[|first rest]|e] w']; try reflexivity;
    destruct (searchFn (buildSearchQuery source) w') as [[candidates|e'] w''];
    reflexivity.
Qed.

(** C7. Once control is on the general path, an error thrown by the search
    for the normalized query is the outcome of matchTrack itself: the same
    error, thrown, not a result record. *)
Theorem general_search_error_propagates (source : UnifiedTrack) (config : MatchConfig)
    (e : Error) (w w1 w2 : World) :
  fastPath searchFn source w = (Returns None, w1) ->
  searchFn (buildSearchQuery source) w1 = (Throws e, w2) ->
  matchTrack fuzzy searchFn source config w = (Throws e, w2).
Proof.
  intros Hfast Hthrow. rewrite (matchTrack_general _ _ _ _ Hfast).
  unfold generalPath, bind. now rewrite Hthrow.
Qed.

(** C9. When the general search returns no candidate, matchTrack returns
    the record with a null target, confidence 0 and status not_found. *)
Theorem no_candidates_not_found (source : UnifiedTrack) (config : MatchConfig)
    (w w1 w2 : World) :
  fastPath searchFn source w = (Returns None, w1) ->
  searchFn (buildSearchQuery source) w1 = (Returns [], w2) ->
  matchTrack fuzzy searchFn source config w =
  (Returns {| source := source; target := None; confidence := Fin 0;
              status := not_found; existingId := None |}, w2).
Proof.
  intros Hfast Hnone. rewrite (matchTrack_general _ _ _ _ Hfast).
  unfold generalPath, bind. now rewrite Hnone.
Qed.

End WithSearch.

Import Samples MoreSamples.

(** The three branches: a hit; a search by code that times out, after
    which the search for "adele hello" answers with a poor candidate; and a
    search by code that finds nothing, after which the second search is
    refused and its error is the outcome. *)
Lemma isrc_fast_path_witness :
  matchTrack exactFuzzy searchHit helloCoded DEFAULT_MATCH_CONFIG 0%nat =
    (Returns (result helloCoded helloVideo (99 # 100) matched), 1%nat) /\
  matchTrack exactFuzzy searchByText helloCoded DEFAULT_MATCH_CONFIG 0%nat =
    (Returns (scoreAndClassify exactFuzzy helloCoded [goodbye] DEFAULT_MATCH_CONFIG),
     2%nat) /\
  matchTrack exactFuzzy searchEmptyThenDown helloCoded DEFAULT_MATCH_CONFIG 0%nat =
    (Throws "429", 2%nat).
Proof.
  split; [|split].
  - exact (isrc_fast_path exactFuzzy searchHit helloCoded DEFAULT_MATCH_CONFIG
             "GBBKS1500214" 0%nat eq_refl ltac:(discriminate)).
  - exact (isrc_fast_path exactFuzzy searchByText helloCoded DEFAULT_MATCH_CONFIG
             "GBBKS1500214" 0%nat eq_refl ltac:(discriminate)).
  - exact (isrc_fast_path exactFuzzy searchEmptyThenDown helloCoded DEFAULT_MATCH_CONFIG
             "GBBKS1500214" 0%nat eq_refl ltac:(discriminate)).
Defined.

(** What the second branch stored: the poor candidate, below the low
    threshold, so not_found and not the record of the fast path. *)
Example isrc_failure_then_general :
  let r := scoreAndClassify exactFuzzy helloCoded [goodbye] DEFAULT_MATCH_CONFIG in
  status r = not_found /\ target r = Some goodbye /\
  searchByText "GBBKS1500214" 0%nat = (Throws "timeout", 1%nat) /\
  buildSearchQuery helloCoded = "adele hello".
Proof. repeat split; vm_compute; reflexivity. Qed.

(** The search by code times out, the general search then answers: no
    error surfaces. *)
Example isrc_failure_is_silent :
  matchTrack exactFuzzy searchFlaky helloCoded DEFAULT_MATCH_CONFIG 0%nat =
  (Returns (result helloCoded helloVideo (99 # 100) matched), 2%nat).
Proof. vm_compute. reflexivity. Qed.

Lemma general_search_error_propagates_witness :
  matchTrack exactFuzzy searchDown hello DEFAULT_MATCH_CONFIG 0%nat = (Throws "503", 1%nat).
Proof.
  apply (general_search_error_propagates exactFuzzy searchDown hello
           DEFAULT_MATCH_CONFIG "503" 0%nat 0%nat 1%nat); reflexivity.
Defined.

Lemma no_candidates_not_found_witness :
  matchTrack exactFuzzy searchNothing hello DEFAULT_MATCH_CONFIG 0%nat =
  (Returns {| source := hello; target := None; confidence := Fin 0;
              status := not_found; existingId := None |}, 1%nat).
Proof.
  apply (no_candidates_not_found exactFuzzy searchNothing hello
           DEFAULT_MATCH_CONFIG 0%nat 0%nat 1%nat); reflexivity.
Defined.

End MatcherFacts.

(** ** The status already_exists *)

Module StatusFacts.
Import Matcher Notions.

Lemma withStatus_target (r : MatchResult) (s : MatchStatus) :
  target (withStatus r s) = target r.
Proof. reflexivity. Qed.

Lemma withStatus_twice (r : MatchResult) (s : MatchStatus) :
  withStatus (withStatus r s) s = withStatus r s.
Proof. reflexivity. Qed.

Lemma deduplicateFrom_idempotent (results : list MatchResult) :
  forall seen : gset string,
    deduplicateFrom seen (deduplicateFrom seen results) = deduplicateFrom seen results.
Proof.
  induction results as [|r rest IH]; intros seen; simpl; [reflexivity|].
  destruct (target r) as [t|] eqn:Ht.
  - destruct (bool_decide (id t ∈ seen)) eqn:Hin; simpl.
    + rewrite Ht, Hin. f_equal. apply IH.
    + rewrite Ht, Hin. f_equal. apply IH.
  - simpl. rewrite Ht. f_equal. apply IH.
Qed.

(** C10. A second deduplication pass changes nothing. *)
Theorem deduplicateResults_idempotent (xs : list MatchResult) :
  deduplicateResults (deduplicateResults xs) = deduplicateResults xs.
Proof. apply deduplicateFrom_idempotent. Qed.

Lemma keptOrEscalated_refl (r : MatchResult) : keptOrEscalated r r.
Proof. unfold keptOrEscalated. intuition congruence. Qed.

Lemma checkExisting_keptOrEscalated (existing : gset string) (r : MatchResult) :
  keptOrEscalated r (checkExisting existing r).
Proof.
  unfold checkExisting. destruct (target r) as [t|] eqn:Ht.
  - destruct (bool_decide (id t ∈ existing)).
    + unfold keptOrEscalated. simpl. rewrite Ht. intuition congruence.
    + apply keptOrEscalated_refl.
  - apply keptOrEscalated_refl.
Qed.

Lemma deduplicateFrom_keptOrEscalated (xs : list MatchResult) :
  forall (seen : gset string) (i : nat) (r : MatchResult),
    xs !! i = Some r ->
    exists r', deduplicateFrom seen xs !! i = Some r' /\ keptOrEscalated r r'.
Proof.
  induction xs as [|x rest IH]; intros seen i r Hi; [discriminate|].
  destruct i as [|i]; simpl in Hi.
  - injection Hi as ->. simpl.
    destruct (target r) as [t|] eqn:Ht.
    + destruct (bool_decide (id t ∈ seen)); simpl.
      * eexists; split; [reflexivity|].
        unfold keptOrEscalated. simpl. rewrite Ht. intuition congruence.
      * eexists; split; [reflexivity|apply keptOrEscalated_refl].
    + eexists; split; [reflexivity|apply keptOrEscalated_refl].
  - simpl. destruct (target x) as [t|].
    + destruct (bool_decide (id t ∈ seen)); simpl; apply IH, Hi.
    + simpl. apply IH, Hi.
Qed.

(** C1, as the code has it. Neither the check against the destination nor
    the deduplication pass touches a result without a target; both leave
    source, target and confidence alone; a status they change becomes
    already_exists, on a result with a target; and a result that is
    already_exists stays so. *)
Theorem already_exists_requires_target (existing : gset string)
    (xs : list MatchResult) (i : nat) (r : MatchResult) :
  xs !! i = Some r ->
  keptOrEscalated r (checkExisting existing r) /\
  exists r', deduplicateResults xs !! i = Some r' /\ keptOrEscalated r r'.
Proof.
  intros Hi. split.
  - apply checkExisting_keptOrEscalated.
  - apply deduplicateFrom_keptOrEscalated, Hi.
Qed.

Import Samples.

Lemma already_exists_requires_target_witness :
  keptOrEscalated weak (checkExisting ∅ weak) /\
  exists r', deduplicateResults [strong; weak] !! 1%nat = Some r' /\
             keptOrEscalated weak r'.
Proof.
  exact (already_exists_requires_target ∅ [strong; weak] 1 weak eq_refl).
Defined.

(** C1 as stated fails: deduplicateResults rewrites a result whose status
    is not_found to already_exists when an earlier result has the same
    target. *)
Lemma dedup_rewrites_not_found :
  status weak = not_found /\
  deduplicateResults [strong; weak] = [strong; withStatus weak already_exists] /\
  ~ (forall (xs : list MatchResult) (i : nat) (r r' : MatchResult),
       xs !! i = Some r -> deduplicateResults xs !! i = Some r' ->
       status r = not_found -> status r' <> already_exists).
Proof.
  split; [reflexivity|]. split; [reflexivity|].
  intros H.
  apply (H [strong; weak] 1%nat weak (withStatus weak already_exists));
    reflexivity.
Qed.

Section WithSearch.
Context {World Error : Type}.
Variable fuzzy : string -> string -> Q.
Variable searchFn : string -> async World Error (list UnifiedTrack).

Lemma scoreAndClassify_status (source : UnifiedTrack) (candidates : list UnifiedTrack)
    (config : MatchConfig) :
  status (scoreAndClassify fuzzy source candidates config) <> already_exists.
Proof.
  unfold scoreAndClassify. destruct candidates; [discriminate|].
  destruct (scoreAll _ _ _ _) as [bestMatch bestScore].
  destruct (_ || _)%bool; [discriminate|]. simpl.
  destruct (ge _ _); discriminate.
Qed.

(** matchTrack itself never answers already_exists. *)
Lemma matchTrack_status (source : UnifiedTrack) (config : MatchConfig)
    (w w' : World) (r : MatchResult) :
  matchTrack fuzzy searchFn source config w = (Returns r, w') ->
  status r <> already_exists.
Proof.
  unfold matchTrack, bind.
  destruct (MatcherFacts.fastPath_returns searchFn source w) as (o & w1 & Hf).
  rewrite Hf. destruct o as [fast|].
  - unfold ret. intros [= <- _]. revert Hf.
    unfold fastPath, tryCatch, bind, ret.
    destruct (truthy (isrc source)); [|discriminate].
    destruct (searchFn _ w) as [[[|first rest]|e] w2]; try discriminate.
    intros [= <- _]. discriminate.
  - unfold generalPath, bind, ret.
    destruct (searchFn _ w1) as [[candidates|e] w2]; [|discriminate].
    intros [= <- _]. apply scoreAndClassify_status.
Qed.

Lemma matchTracksLoop_flagged (sources : list UnifiedTrack) (existing : gset string)
    (config : MatchConfig) :
  forall (acc results : list MatchResult) (w w' : World),
    Forall (flagged existing) acc ->
    matchTracksLoop fuzzy searchFn sources existing config acc w = (Returns results, w') ->
    Forall (flagged existing) results.
Proof.
  induction sources as [|s rest IH]; intros acc results w w' Hacc; simpl.
  - unfold ret. now intros [= <- _].
  - unfold bind at 1.
    destruct (matchTrack fuzzy searchFn s config w) as [[r|e] w1] eqn:Hm; [|discriminate].
    apply IH. apply Forall_app. split; [assumption|].
    constructor; [|constructor].
    pose proof (matchTrack_status _ _ _ _ _ Hm) as Hst.
    unfold flagged, checkExisting.
    destruct (target r) as [t|] eqn:Ht; [|intros; contradiction].
    destruct (bool_decide (id t ∈ existing)) eqn:Hin; [|intros; contradiction].
    simpl. intros _. exists t.
    apply bool_decide_eq_true in Hin. auto.
Qed.

(** In the output of matchTracks, every result marked already_exists has a
    target, whose identifier is in the destination set. *)
Lemma matchTracks_flagged (sources : list UnifiedTrack) (existing : gset string)
    (config : MatchConfig) (results : list MatchResult) (w w' : World) :
  matchTracks fuzzy searchFn sources existing config w = (Returns results, w') ->
  Forall (flagged existing) results.
Proof. apply matchTracksLoop_flagged. constructor. Qed.

End WithSearch.
End StatusFacts.

(** ** The composite score *)

Module ScoreFacts.
Import Matcher Notions Samples.

Local Open Scope Q_scope.

Lemma Math_max_floor (a : Q) :
  0 <= a <= 1 ->
  exists q, Math_max (Fin a) (Fin (98 # 100)) = Fin q /\ 0 <= q <= 1.
Proof.
  intros Ha. unfold Math_max, compare.
  destruct (a ?= 98 # 100) eqn:E; eexists; (split; [reflexivity|lra]).
Qed.

(** The duration term under a positive tolerance. *)
Lemma durationScore_in_unit (d tol : Q) :
  0 <= d -> 0 < tol ->
  exists q,
    Math_max (Fin 0) (sub (Fin 1) (div (Fin d) (mul (Fin tol) (Fin 3)))) = Fin q /\
    0 <= q <= 1.
Proof.
  intros Hd Htol. unfold mul, div, sign.
  assert (Hpos : 0 < tol * 3) by lra.
  rewrite (proj1 (Qgt_alt _ _) Hpos).
  assert (Hx : 0 <= d / (tol * 3)).
  { apply Qle_shift_div_l; [exact Hpos|]. lra. }
  unfold sub, neg, add, Math_max, compare.
  destruct (0 ?= 1 + - (d / (tol * 3))) eqn:E; eexists; (split; [reflexivity|]).
  - lra.
  - apply Qlt_alt in E. lra.
  - lra.
Qed.

Lemma weighted_in_unit (t a d wt wa wd : Q) :
  0 <= t <= 1 -> 0 <= a <= 1 -> 0 <= d <= 1 ->
  0 <= wt -> 0 <= wa -> 0 <= wd -> wt + wa + wd <= 1 ->
  0 <= t * wt + a * wa + d * wd <= 1.
Proof.
  intros [Ht0 Ht1] [Ha0 Ha1] [Hd0 Hd1] Hwt Hwa Hwd Hsum.
  assert (0 <= t * wt) by (apply Qmult_le_0_compat; assumption).
  assert (0 <= a * wa) by (apply Qmult_le_0_compat; assumption).
  assert (0 <= d * wd) by (apply Qmult_le_0_compat; assumption).
  assert (t * wt <= 1 * wt) by (apply Qmult_le_compat_r; assumption).
  assert (a * wa <= 1 * wa) by (apply Qmult_le_compat_r; assumption).
  assert (d * wd <= 1 * wd) by (apply Qmult_le_compat_r; assumption).
  lra.
Qed.

Lemma Math_min_bonus (c : Q) :
  0 <= c -> exists q, Math_min (Fin (99 # 100)) (Fin (c + (10 # 100))) = Fin q /\ 0 <= q <= 1.
Proof.
  intros Hc. unfold Math_min, compare.
  destruct (99 # 100 ?= c + (10 # 100)) eqn:E; eexists; (split; [reflexivity|]).
  - lra.
  - lra.
  - apply Qgt_alt in E. lra.
Qed.

Section WithFuzzy.
Variable fuzzy : string -> string -> Q.

(** C8, as the code has it. With a similarity ratio in [0,1], weights that
    are non-negative and sum to at most 1, and a positive duration
    tolerance, the composite score of a candidate lies in [0,1]. *)
Theorem compositeScore_in_unit (source candidate : UnifiedTrack) (config : MatchConfig) :
  (forall a b, 0 <= fuzzy a b <= 1) ->
  0 <= titleWeight config -> 0 <= artistWeight config -> 0 <= durationWeight config ->
  titleWeight config + artistWeight config + durationWeight config <= 1 ->
  0 < durationToleranceMs config ->
  inUnit (compositeScore fuzzy source candidate config).
Proof.
  intros Hfuzzy Hwt Hwa Hwd Hsum Htol. unfold compositeScore.
  set (st := normalizeTrackTitle (title source)).
  set (ct := normalizeTrackTitle (title candidate)).
  set (sa := normalizeArtistName (artist source)).
  set (ca := normalizeArtistName (artist candidate)).
  destruct (durationScore_in_unit
              (Qabs (durationMs source - durationMs candidate))
              (durationToleranceMs config) (Qabs_nonneg _) Htol) as (d & -> & Hd).
  assert (Ht : exists t,
    (if String.eqb st ct then Math_max (Fin (fuzzy st ct)) (Fin (98 # 100))
     else Fin (fuzzy st ct)) = Fin t /\ 0 <= t <= 1).
  { destruct (String.eqb st ct); [apply Math_max_floor, Hfuzzy|].
    eexists; split; [reflexivity|apply Hfuzzy]. }
  assert (Ha : exists a,
    (if String.eqb sa ca then Math_max (Fin (fuzzy sa ca)) (Fin (98 # 100))
     else Fin (fuzzy sa ca)) = Fin a /\ 0 <= a <= 1).
  { destruct (String.eqb sa ca); [apply Math_max_floor, Hfuzzy|].
    eexists; split; [reflexivity|apply Hfuzzy]. }
  destruct Ht as (t & -> & Ht), Ha as (a & -> & Ha).
  pose proof (weighted_in_unit t a d _ _ _ Ht Ha Hd Hwt Hwa Hwd Hsum) as Hc.
  simpl mul. simpl add.
  destruct (_ && _)%bool.
  - destruct (Math_min_bonus _ (proj1 Hc)) as (q & -> & Hq). exact Hq.
  - exact Hc.
Qed.

End WithFuzzy.

Lemma exactFuzzy_in_unit (a b : string) : 0 <= exactFuzzy a b <= 1.
Proof. unfold exactFuzzy. destruct (String.eqb a b); lra. Qed.

Lemma compositeScore_in_unit_witness :
  inUnit (compositeScore exactFuzzy hello helloVideo DEFAULT_MATCH_CONFIG).
Proof.
  apply (compositeScore_in_unit exactFuzzy hello helloVideo DEFAULT_MATCH_CONFIG
           exactFuzzy_in_unit); vm_compute; congruence.
Defined.

(** C8 as stated fails: with tolerance 0 and two tracks of equal (here
    zero) duration the duration term is 0/0, and the composite score is
    NaN, which is not in [0,1], although the weights are non-negative and
    sum to 1 and the similarity ratio stays in [0,1]. *)
Lemma compositeScore_zero_tolerance :
  compositeScore exactFuzzy untimed untimedVideo strictConfig = NaN /\
  ~ (forall (fuzzy : string -> string -> Q) (source candidate : UnifiedTrack)
            (config : MatchConfig),
       (forall a b, 0 <= fuzzy a b <= 1) ->
       0 <= titleWeight config -> 0 <= artistWeight config ->
       0 <= durationWeight config ->
       titleWeight config + artistWeight config + durationWeight config <= 1 ->
       inUnit (compositeScore fuzzy source candidate config)).
Proof.
  split; [reflexivity|].
  intros H.
  apply (H exactFuzzy untimed untimedVideo strictConfig exactFuzzy_in_unit);
    vm_compute; congruence.
Qed.

(** A negative tolerance lets the duration term grow past 1: here
    1 - 295000 / (-1000 * 3). *)
Example compositeScore_negative_tolerance :
  exists q,
    compositeScore exactFuzzy hello untimed
      {| highConfidenceThreshold := 80 # 100; lowConfidenceThreshold := 55 # 100;
         durationToleranceMs := -1000; durationWeight := 1; titleWeight := 0;
         artistWeight := 0; maxSearchResults := 10 |} = Fin q /\
    q == 298 # 3.
Proof. eexists. split; [vm_compute; reflexivity|reflexivity]. Qed.

End ScoreFacts.

(** ** The worker against the sequential path *)

Module WorkerFacts.
Import Matcher Notions Samples.

Lemma lt_true_ge (x : number) (l : Q) : lt x (Fin l) = true -> ge x (Fin l) = false.
Proof.
  unfold lt, ge. destruct (compare x (Fin l)) as [[]|]; congruence.
Qed.

Lemma lt_false_ge (x : number) (l : Q) :
  x <> NaN -> lt x (Fin l) = false -> ge x (Fin l) = true.
Proof.
  unfold lt, ge. intros Hx. destruct x as [| |q|]; simpl; try congruence.
  destruct (q ?= l)%Q; intros; congruence.
Qed.

Lemma gt_not_NaN (x y : number) : gt x y = true -> x <> NaN.
Proof. unfold gt, compare. destruct x; intros H; discriminate. Qed.

Section WithFuzzy.
Variable fuzzy : string -> string -> Q.

(** The two scoring loops are one text. *)
Lemma worker_scoreStep : Worker.scoreStep fuzzy = scoreStep fuzzy.
Proof. reflexivity. Qed.

Lemma fold_scoreStep_not_NaN (source : UnifiedTrack) (config : MatchConfig)
    (candidates : list UnifiedTrack) :
  forall best : option UnifiedTrack * number,
    snd best <> NaN ->
    snd (fold_left (scoreStep fuzzy source config) candidates best) <> NaN.
Proof.
  induction candidates as [|c rest IH]; intros best Hbest; simpl; [assumption|].
  apply IH. unfold scoreStep.
  destruct (gt _ (snd best)) eqn:Hgt; [|assumption].
  simpl. eapply gt_not_NaN, Hgt.
Qed.

(** Where the two paths agree: whenever the sequential decision is not a
    not_found whose target is already at the destination. *)
Lemma worker_agrees (source : UnifiedTrack) (candidates : list UnifiedTrack)
    (config : MatchConfig) (existingIds : list string) :
  (forall t, status (scoreAndClassify fuzzy source candidates config) = not_found ->
             target (scoreAndClassify fuzzy source candidates config) = Some t ->
             id t ∉ (list_to_set existingIds : gset string)) ->
  Worker.onmessage fuzzy (message source candidates config existingIds) =
  Some (sequential fuzzy source candidates config existingIds).
Proof.
  unfold sequential, Worker.onmessage, scoreAndClassify, scoreAll. simpl.
  destruct candidates as [|c rest]; [reflexivity|].
  rewrite worker_scoreStep.
  pose proof (fold_scoreStep_not_NaN source config (c :: rest) (None, Fin 0)
                ltac:(discriminate)) as Hnan.
  destruct (fold_left _ _ _) as [bestMatch bestScore]. simpl in Hnan.
  destruct bestMatch as [best|]; simpl; [|reflexivity].
  destruct (lt bestScore _) eqn:Hlt; simpl.
  - intros Hout. rewrite (lt_true_ge _ _ Hlt).
    unfold checkExisting. simpl.
    rewrite bool_decide_eq_false_2; [reflexivity|]. now apply Hout.
  - intros _. rewrite (lt_false_ge _ _ Hnan Hlt).
    unfold checkExisting. simpl.
    destruct (bool_decide _); [reflexivity|].
    destruct (ge bestScore _); reflexivity.
Qed.

(** Where they differ: a best candidate below the low-confidence threshold
    that is already at the destination stays not_found in the worker and
    becomes already_exists on the sequential path. *)
Lemma worker_differs (source : UnifiedTrack) (candidates : list UnifiedTrack)
    (config : MatchConfig) (existingIds : list string) (t : UnifiedTrack) :
  status (scoreAndClassify fuzzy source candidates config) = not_found ->
  target (scoreAndClassify fuzzy source candidates config) = Some t ->
  id t ∈ (list_to_set existingIds : gset string) ->
  status (sequential fuzzy source candidates config existingIds) = already_exists /\
  exists r, Worker.onmessage fuzzy (message source candidates config existingIds) = Some r /\
            status r = not_found /\ target r = Some t.
Proof.
  unfold sequential, Worker.onmessage, scoreAndClassify, scoreAll. simpl.
  destruct candidates as [|c rest]; [discriminate|].
  rewrite worker_scoreStep.
  destruct (fold_left _ _ _) as [bestMatch bestScore].
  destruct bestMatch as [best|]; simpl; [|discriminate].
  destruct (lt bestScore _) eqn:Hlt; simpl.
  - intros _ [= ->] Hin. rewrite (lt_true_ge _ _ Hlt). split.
    + unfold checkExisting. simpl. now rewrite bool_decide_eq_true_2.
    + eexists. split; [reflexivity|]. split; reflexivity.
  - destruct (ge bestScore _); discriminate.
Qed.

End WithFuzzy.

(** Apart from a best candidate that scored below the low-confidence
    threshold and is already at the destination, the worker and the
    sequential path return the same MatchResult. *)
Theorem worker_agrees_with_sequential (fuzzy : string -> string -> Q)
    (source : UnifiedTrack) (candidates : list UnifiedTrack) (config : MatchConfig)
    (existingIds : list string) :
  belowThresholdAtDestination fuzzy source candidates config existingIds = false ->
  Worker.onmessage fuzzy (message source candidates config existingIds) =
  Some (sequential fuzzy source candidates config existingIds).
Proof.
  intros H. apply worker_agrees. intros t Hst Ht.
  unfold belowThresholdAtDestination in H. rewrite Hst, Ht in H.
  now apply bool_decide_eq_false in H.
Qed.

Lemma worker_agrees_with_sequential_witness :
  Worker.onmessage exactFuzzy
    (message hello [goodbye; helloVideo] DEFAULT_MATCH_CONFIG ["yt:hello"]) =
  Some (sequential exactFuzzy hello [goodbye; helloVideo] DEFAULT_MATCH_CONFIG ["yt:hello"]).
Proof.
  apply (worker_agrees_with_sequential exactFuzzy hello [goodbye; helloVideo]
           DEFAULT_MATCH_CONFIG ["yt:hello"]).
  vm_compute. reflexivity.
Defined.

(** C5. The worker misses what the sequential path does. For the source
    "Hello" by Adele, the single candidate "Goodbye" by Someone (score
    0.15, below the low threshold 0.55) and a destination that already
    holds that candidate, the worker answers not_found and the sequential
    path answers already_exists, for the same target and the same
    confidence: the worker tests the existing identifiers only under
    bestScore >= lowConfidenceThreshold, matchTracks tests them for every
    result that has a target. *)
Lemma worker_sequential_diverge :
  let worker :=
    Worker.onmessage exactFuzzy (message hello [goodbye] DEFAULT_MATCH_CONFIG ["yt:bye"]) in
  let direct := sequential exactFuzzy hello [goodbye] DEFAULT_MATCH_CONFIG ["yt:bye"] in
  option_map status worker = Some not_found /\
  status direct = already_exists /\
  option_map target worker = Some (Some goodbye) /\
  target direct = Some goodbye /\
  option_map Types.confidence worker = Some (Types.confidence direct) /\
  (exists q, Types.confidence direct = Fin q /\ (q == 15 # 100)%Q) /\
  worker <> Some direct.
Proof.
  repeat split; try (vm_compute; reflexivity).
  - eexists. split; vm_compute; reflexivity.
  - vm_compute. discriminate.
Qed.

(** The same two inputs through matchTracks itself. *)
Example matchTracks_flags_weak_candidate :
  match matchTracks exactFuzzy (fun _ n => (Returns (Error := string) [goodbye], S n))
          [hello] (list_to_set ["yt:bye"]) DEFAULT_MATCH_CONFIG 0%nat with
  | (Returns results, _) =>
      map status results = [already_exists] /\ map target results = [Some goodbye]
  | (Throws _, _) => False
  end.
Proof. vm_compute. split; reflexivity. Qed.

End WorkerFacts.

(** ** Values of a parsed answer *)

Module JsFacts.
Import Js.

Lemma get_confidence (result : Js.json) (index : value) :
  get "bestMatchIndex" result = Some index ->
  exists c, get "confidence" result = Some c.
Proof. destruct result; simpl; try discriminate; eauto. Qed.

Lemma get_reasoning (result : Js.json) (index : value) :
  get "bestMatchIndex" result = Some index ->
  exists c, get "reasoning" result = Some c.
Proof. destruct result; simpl; try discriminate; eauto. Qed.

Lemma element_Track (candidates : list UnifiedTrack) (i : nat) (t : UnifiedTrack) :
  element candidates i = Track t -> t ∈ candidates.
Proof.
  unfold element. destruct (nth_error candidates i) as [x|] eqn:E; [|discriminate].
  intros [= ->]. revert i E.
  induction candidates as [|c cs IH]; intros [|i]; simpl; try discriminate.
  - intros [= ->]. apply elem_of_cons. now left.
  - intros H. apply elem_of_cons. right. eapply IH, H.
Qed.

Lemma element_cases (candidates : list UnifiedTrack) (i : nat) :
  (exists t, element candidates i = Track t) \/ element candidates i = Missing.
Proof. unfold element. destruct (nth_error candidates i); eauto. Qed.

Section WithEngine.
Variable engine : Engine.

(** A member that is a track is one of the candidates. *)
Lemma member_Track (candidates : list UnifiedTrack) (p : prim) (t : UnifiedTrack) :
  member engine candidates p = Track t -> t ∈ candidates.
Proof.
  destruct p as [| |b|n|key]; simpl; try discriminate.
  - destruct (wholeIndex n); [apply element_Track|discriminate].
  - destruct (arrayIndex key); [apply element_Track|].
    destruct (String.eqb key "length"); [discriminate|].
    destruct (inherited engine key); discriminate.
Qed.

(** Only a text names the length or an inherited member. *)
Lemma member_textual (candidates : list UnifiedTrack) (p : prim) :
  match member engine candidates p with
  | Length n => n = length candidates /\ exists key, p = PStr key
  | Inherited _ => exists key, p = PStr key
  | _ => True
  end.
Proof.
  destruct p as [| |b|n|key]; simpl; try exact I.
  - destruct (wholeIndex n); [|exact I].
    destruct (element_cases candidates n0) as [[t ->]| ->]; exact I.
  - destruct (arrayIndex key).
    + destruct (element_cases candidates n) as [[t ->]| ->]; exact I.
    + destruct (String.eqb key "length"); [eauto|].
      destruct (inherited engine key); [eauto|exact I].
Qed.

(** Only a string, an array or an object converts to a text. *)
Lemma toPrimitive_PStr (v : value) (key : string) :
  toPrimitive engine v = Some (PStr key) ->
  exists j, v = Val j /\ match j with JStr _ | JArr _ | JObj _ => True | _ => False end.
Proof.
  destruct v as [|[]]; simpl; try discriminate; intros _; eexists; (split; [reflexivity|exact I]).
Qed.

(** A number is its own primitive value. *)
Lemma lessThan_number (n m : number) : lessThan engine (Val (JNum n)) m = Some (lt n m).
Proof. reflexivity. Qed.
Lemma atLeast_number (n m : number) : atLeast engine (Val (JNum n)) m = Some (ge n m).
Proof. reflexivity. Qed.

(** A value without a primitive value is compared with nothing. *)
Lemma toPrimitive_None (v : value) (m : number) :
  toPrimitive engine v = None ->
  strictEquals v m = false /\ isNull v = false /\
  lessThan engine v m = None /\ atLeast engine v m = None /\
  forall candidates, at_ engine candidates v = None.
Proof.
  unfold lessThan, atLeast, at_. intros H. rewrite H.
  destruct v as [|[]]; try discriminate; auto.
Qed.

(** Whoever can be compared can be used as a key. *)
Lemma lessThan_at (v : value) (m : number) (b : bool) (candidates : list UnifiedTrack) :
  lessThan engine v m = Some b ->
  exists p, toPrimitive engine v = Some p /\
            at_ engine candidates v = Some (member engine candidates p).
Proof.
  unfold lessThan, at_. destruct (toPrimitive engine v) as [p|]; [|discriminate].
  intros _. eauto.
Qed.

End WithEngine.



End JsFacts.

(** ** The call to the language model *)

Module GeminiFacts.
Import Notions Samples Js JsFacts Gemini.

Section WithWorld.
Context {World : Type}.
Variable engine : Engine.
Variable fetch : UnifiedTrack -> list UnifiedTrack -> async World error Response.
Variable JSON_parse : string -> option Js.json.

(** What [callGeminiAPI] makes of a parsed answer, inside the try block. *)
Lemma callGeminiAPI_parsed (sourceTrack : UnifiedTrack) (candidates : list UnifiedTrack)
    (w w' : World) (result : Js.json) :
  answered fetch JSON_parse sourceTrack candidates w w' result ->
  callGeminiAPI engine fetch JSON_parse sourceTrack candidates w =
  tryCatch
    (await bestMatchIndex <- orThrow (TypeError ReadOfNull) (get "bestMatchIndex" result);
     await outside <-
       orThrow (TypeError NoPrimitiveValue)
         (orElse (Some (strictEquals bestMatchIndex (Fin (-1))))
            (orElse (lessThan engine bestMatchIndex (Fin 0))
               (atLeast engine bestMatchIndex (lengthOf candidates))));
     if outside then
       await confidence <- orThrow (TypeError ReadOfNull) (get "confidence" result);
       ret {| match_ := Null; confidence := orZero confidence |}
     else
       await found <-
         orThrow (TypeError NoPrimitiveValue) (at_ engine candidates bestMatchIndex);
       await confidence <- orThrow (TypeError ReadOfNull) (get "confidence" result);
       ret {| match_ := found; confidence := orZero confidence |})
    (fun _ => ret (fallback candidates)) w'.
Proof.
  intros (response & data & jsonMatch & Hf & Hok & Hj & Hs & Hp).
  unfold callGeminiAPI, tryCatch, bind at 1. rewrite Hf, Hok. simpl.
  unfold bind at 1. rewrite Hj, Hs, Hp. reflexivity.
Qed.

(** Every run ends in the fallback or went through a parsed answer. *)
Lemma callGeminiAPI_cases (sourceTrack : UnifiedTrack) (candidates : list UnifiedTrack)
    (w : World) :
  (exists w', callGeminiAPI engine fetch JSON_parse sourceTrack candidates w =
              (Returns (fallback candidates), w')) \/
  (exists w' result, answered fetch JSON_parse sourceTrack candidates w w' result).
Proof.
  unfold callGeminiAPI, answered, tryCatch, bind at 1.
  destruct (fetch sourceTrack candidates w) as [[response|e] w'] eqn:Hf;
    [|left; eauto].
  destruct (ok response) eqn:Hok; simpl; [|left; eauto].
  unfold bind at 1.
  destruct (json response) as [data|e] eqn:Hj; [|left; eauto].
  destruct (search _ _) as [jsonMatch|] eqn:Hs; [|left; eauto].
  destruct (JSON_parse _) as [result|] eqn:Hp; [|left; eauto].
  right. exists w', result, response, data, jsonMatch. auto.
Qed.

(** The block that handles a parsed answer never throws past the catch. *)
Lemma parsed_returns (candidates : list UnifiedTrack) (result : Js.json) (w : World) :
  exists r,
    tryCatch
      (await bestMatchIndex <- orThrow (TypeError ReadOfNull) (get "bestMatchIndex" result);
       await outside <-
         orThrow (TypeError NoPrimitiveValue)
           (orElse (Some (strictEquals bestMatchIndex (Fin (-1))))
              (orElse (lessThan engine bestMatchIndex (Fin 0))
                 (atLeast engine bestMatchIndex (lengthOf candidates))));
       if outside then
         await confidence <- orThrow (TypeError ReadOfNull) (get "confidence" result);
         ret {| match_ := Null; confidence := orZero confidence |}
       else
         await found <-
           orThrow (TypeError NoPrimitiveValue) (at_ engine candidates bestMatchIndex);
         await confidence <- orThrow (TypeError ReadOfNull) (get "confidence" result);
         ret {| match_ := found; confidence := orZero confidence |})
      (fun _ => ret (fallback candidates)) w = (Returns r, w) /\
    (r = fallback candidates \/
     exists index c,
       get "bestMatchIndex" result = Some index /\ get "confidence" result = Some c /\
       confidence r = orZero c /\
       ((strictEquals index (Fin (-1)) = true \/ lessThan engine index (Fin 0) = Some true \/
         atLeast engine index (lengthOf candidates) = Some true) /\ match_ r = Null \/
        strictEquals index (Fin (-1)) = false /\ lessThan engine index (Fin 0) = Some false /\
        atLeast engine index (lengthOf candidates) = Some false /\
        exists p, toPrimitive engine index = Some p /\
                  match_ r = member engine candidates p)).
Proof.
  unfold tryCatch, bind, orThrow, ret, throw.
  destruct (get "bestMatchIndex" result) as [index|] eqn:Hi; [|eauto].
  destruct (get_confidence result index Hi) as (c & Hc). rewrite Hc.
  destruct (strictEquals index (Fin (-1))) eqn:E1; simpl.
  { eexists. split; [reflexivity|]. right. exists index, c. repeat split; auto. }
  destruct (lessThan engine index (Fin 0)) as [[|]|] eqn:E2; simpl; [| |eauto].
  { eexists. split; [reflexivity|]. right. exists index, c. repeat split; auto. }
  destruct (atLeast engine index (lengthOf candidates)) as [[|]|] eqn:E3; simpl; [| |eauto].
  { eexists. split; [reflexivity|]. right. exists index, c. repeat split; auto. }
  destruct (lessThan_at engine index _ _ candidates E2) as (p & Hp & ->).
  eexists. split; [reflexivity|]. right. exists index, c. repeat split; auto.
  right. repeat split; eauto.
Qed.

(** callGeminiAPI never throws. *)
Lemma callGeminiAPI_returns (sourceTrack : UnifiedTrack)
    (candidates : list UnifiedTrack) (w : World) :
  exists r w',
    callGeminiAPI engine fetch JSON_parse sourceTrack candidates w = (Returns r, w').
Proof.
  destruct (callGeminiAPI_cases sourceTrack candidates w) as [[w' H]|(w' & result & H)];
    [eauto|].
  rewrite (callGeminiAPI_parsed _ _ _ _ _ H).
  destruct (parsed_returns candidates result w') as (r & Hr & _). eauto.
Qed.

(** A network error, a response that is not OK, a body without a JSON
    object, malformed JSON and an answer that cannot be read all end in
    the fallback: the first candidate with confidence 0.3. *)
Lemma callGeminiAPI_fallback (sourceTrack : UnifiedTrack)
    (candidates : list UnifiedTrack) (w w' : World) :
  failed engine fetch JSON_parse sourceTrack candidates w w' ->
  callGeminiAPI engine fetch JSON_parse sourceTrack candidates w =
  (Returns (fallback candidates), w').
Proof.
  intros [e w1 Hf|response w1 Hf Hok|response e w1 Hf Hok Hj
         |response data w1 Hf Hok Hj Hs|response data jsonMatch w1 Hf Hok Hj Hs Hp
         |response data jsonMatch result w1 Hf Hok Hj Hs Hp Hu].
  1-5: unfold callGeminiAPI, tryCatch, bind, ret, throw;
    rewrite Hf; try rewrite Hok; simpl; try rewrite Hj; try rewrite Hs;
    try rewrite Hp; reflexivity.
  rewrite (callGeminiAPI_parsed sourceTrack candidates w w1 result)
    by (exists response, data, jsonMatch; auto).
  unfold tryCatch, bind, orThrow, ret, throw.
  destruct Hu as [->|(index & -> & Hn)]; [reflexivity|].
  destruct (toPrimitive_None engine index (Fin (-1)) Hn) as (-> & _ & _).
  destruct (toPrimitive_None engine index (Fin 0) Hn) as (_ & _ & -> & _).
  reflexivity.
Qed.


End WithWorld.



(** A service that answers 503 gets the fallback. *)
Example callGeminiAPI_http_error :
  callGeminiAPI engine
    (fun _ _ n => (Returns {| ok := false; httpStatus := 503;
                              json := Throws BodyError |}, S n))
    JsonText.parse hello [helloVideo; goodbye] 0%nat =
  (Returns {| match_ := Track helloVideo; confidence := Val (JNum (Fin (3 # 10))) |}, 1%nat).
Proof. reflexivity. Qed.

(** The text of the sample without its quoted keys is no JSON, and ends in
    the fallback. *)
Example callGeminiAPI_unquoted_keys :
  JsonText.parse "{bestMatchIndex: 5, confidence: 0.9}" = None /\
  callGeminiAPI engine (answering "{bestMatchIndex: 5, confidence: 0.9}")
    JsonText.parse hello [helloVideo; goodbye] 0%nat =
  (Returns (fallback [helloVideo; goodbye]), 1%nat).
Proof. split; vm_compute; reflexivity. Qed.

End GeminiFacts.

(** ** Regular expressions and replacement *)

Module RegexFacts.
Import Notions.

Lemma chars_of_chars (l : list ascii) : chars (of_chars l) = l.
Proof. apply list_ascii_of_string_of_list_ascii. Qed.

Lemma of_chars_chars (s : string) : of_chars (chars s) = s.
Proof. apply string_of_list_ascii_of_string. Qed.

Lemma shrinking_Some : shrinking Some.
Proof. intros s rest [= ->]. reflexivity. Qed.

Lemma many_suffix (p : ascii -> bool) (k : cont) :
  shrinking k -> shrinking (many p k).
Proof.
  intros Hk s. induction s as [|c s' IH]; intros rest; simpl.
  - apply Hk.
  - destruct (p c); [|apply Hk].
    destruct (many p k s') as [r|] eqn:E.
    + intros [= <-]. apply suffix_cons_r, IH. reflexivity.
    + apply Hk.
Qed.

Lemma exec_suffix (r : regex) :
  forall k, shrinking k -> shrinking (fun s => exec r s k).
Proof.
  induction r as [|p|r1 IH1 r2 IH2|r IH|p|]; intros k Hk s rest; simpl.
  - apply Hk.
  - destruct s as [|c s']; [discriminate|].
    destruct (p c); [|discriminate].
    intros H. apply suffix_cons_r, Hk, H.
  - apply (IH1 (fun s' => exec r2 s' k)). apply IH2, Hk.
  - destruct (exec r s k) as [x|] eqn:E.
    + intros [= <-]. eapply IH; eassumption.
    + apply Hk.
  - apply many_suffix, Hk.
  - destruct s; [apply Hk|discriminate].
Qed.

Lemma matchAt_suffix (r : regex) (s rest : list ascii) :
  matchAt r s = Some rest -> rest `suffix_of` s.
Proof. apply (exec_suffix r Some shrinking_Some). Qed.

Lemma suffix_drop (s rest : list ascii) :
  rest `suffix_of` s -> drop (length s - length rest) s = rest.
Proof.
  intros [pre ->]. rewrite length_app.
  replace (length pre + length rest - length rest)%nat with (length pre) by lia.
  apply drop_app_length.
Qed.

Section Replace.
Variable r : regex.
Variable rep : list ascii -> list ascii.

Lemma replaceAllFrom_skip (s : list ascii) :
  forall n : nat, (n <= length s)%nat ->
    replaceAllFrom r rep n s = replaceAll r rep (drop n s).
Proof.
  induction s as [|c s' IH]; intros n Hn.
  - simpl in Hn. assert (n = 0%nat) as -> by lia. reflexivity.
  - destruct n as [|n]; [reflexivity|].
    simpl. apply IH. simpl in Hn. lia.
Qed.

Lemma replaceAll_nil_nomatch : matchAt r [] = None -> replaceAll r rep [] = [].
Proof. unfold replaceAll. simpl. now intros ->. Qed.

Lemma replaceAll_nomatch (c : ascii) (s : list ascii) :
  matchAt r (c :: s) = None -> replaceAll r rep (c :: s) = c :: replaceAll r rep s.
Proof. unfold replaceAll. simpl. now intros ->. Qed.

(** A match that consumes something is replaced, and the scan resumes
    right after it. *)
Lemma replaceAll_match (s rest : list ascii) :
  matchAt r s = Some rest -> (length rest < length s)%nat ->
  replaceAll r rep s = rep (consumed s rest) ++ replaceAll r rep rest.
Proof.
  intros Hm Hlen. pose proof (matchAt_suffix _ _ _ Hm) as Hsuf.
  destruct s as [|c s']; [simpl in Hlen; lia|].
  unfold replaceAll at 1. cbn [replaceAllFrom]. rewrite Hm. f_equal.
  destruct (length (c :: s') - length rest)%nat as [|n] eqn:E; [lia|].
  rewrite replaceAllFrom_skip by (simpl in *; lia).
  f_equal. change (drop n s') with (drop (S n) (c :: s')).
  rewrite <- E. apply suffix_drop, Hsuf.
Qed.

Lemma replaceAll_absent (s : list ascii) :
  occurs r s = false -> replaceAll r rep s = s.
Proof.
  induction s as [|c s' IH]; simpl.
  - destruct (matchAt r []) eqn:E; [discriminate|].
    intros _. now apply replaceAll_nil_nomatch.
  - destruct (matchAt r (c :: s')) eqn:E; [discriminate|].
    intros H. rewrite replaceAll_nomatch by assumption. f_equal. now apply IH.
Qed.

Lemma replaceFirst_absent (s : list ascii) :
  occurs r s = false -> replaceFirst r rep s = s.
Proof.
  induction s as [|c s' IH]; simpl.
  - destruct (matchAt r []); [discriminate|reflexivity].
  - destruct (matchAt r (c :: s')); [discriminate|].
    intros H. f_equal. now apply IH.
Qed.

(** Replacement keeps a property of the code units that the inserted text
    has as well. *)
Variable P : ascii -> Prop.
Hypothesis rep_keeps : forall m, Forall P m -> Forall P (rep m).

Lemma replaceAllFrom_Forall (s : list ascii) :
  forall n : nat, Forall P s -> Forall P (replaceAllFrom r rep n s).
Proof.
  induction s as [|c s' IH]; intros n Hs.
  - simpl. destruct n; [|constructor].
    destruct (matchAt r []); [|constructor]. apply rep_keeps. constructor.
  - pose proof (Forall_inv Hs) as Hc. pose proof (Forall_inv_tail Hs) as Hs'.
    cbn [replaceAllFrom]. destruct n as [|n]; [|now apply IH].
    destruct (matchAt r (c :: s')) as [rest|].
    + apply Forall_app. split.
      * apply rep_keeps. unfold consumed. now apply Forall_take.
      * destruct (length (c :: s') - length rest)%nat.
        -- constructor; [assumption|now apply IH].
        -- now apply IH.
    + constructor; [assumption|now apply IH].
Qed.

Lemma replaceAll_Forall (s : list ascii) :
  Forall P s -> Forall P (replaceAll r rep s).
Proof. apply replaceAllFrom_Forall. Qed.

Lemma replaceFirst_Forall (s : list ascii) :
  Forall P s -> Forall P (replaceFirst r rep s).
Proof.
  induction s as [|c s' IH]; intros Hs; simpl.
  - destruct (matchAt r []) as [rest|] eqn:E; [|constructor].
    apply Forall_app. split.
    + apply rep_keeps. unfold consumed. now apply Forall_take.
    + apply matchAt_suffix in E. apply suffix_nil_inv in E. subst. constructor.
  - destruct (matchAt r (c :: s')) as [rest|] eqn:E.
    + apply Forall_app. split.
      * apply rep_keeps. unfold consumed. now apply Forall_take.
      * apply matchAt_suffix in E. destruct E as [pre E].
        rewrite E in Hs. now apply Forall_app in Hs.
    + constructor; [now apply Forall_inv in Hs|].
      apply IH. now apply Forall_inv_tail in Hs.
Qed.

End Replace.

Lemma many_Some (p : ascii -> bool) (s : list ascii) :
  many p Some s = Some (dropRun p s).
Proof.
  induction s as [|c s' IH]; simpl; [reflexivity|].
  destruct (p c); [|reflexivity]. now rewrite IH.
Qed.

Lemma dropRun_isSpace (s : list ascii) : dropRun isSpace s = trimStart s.
Proof. induction s as [|c s' IH]; simpl; [reflexivity|]. now rewrite IH. Qed.

Lemma dropRun_length (p : ascii -> bool) (s : list ascii) :
  (length (dropRun p s) <= length s)%nat.
Proof.
  induction s as [|c s' IH]; simpl; [lia|].
  destruct (p c); simpl; lia.
Qed.

Lemma matchAt_plus (p : ascii -> bool) (s : list ascii) :
  matchAt (plus p) s =
  match s with
  | c :: s' => if p c then Some (dropRun p s') else None
  | [] => None
  end.
Proof.
  unfold matchAt, plus. simpl. destruct s as [|c s']; [reflexivity|].
  destruct (p c); [apply many_Some|reflexivity].
Qed.

Lemma matchAt_Char (p : ascii -> bool) (s : list ascii) :
  matchAt (Char p) s =
  match s with
  | c :: s' => if p c then Some s' else None
  | [] => None
  end.
Proof. reflexivity. Qed.

(** Replacing each match of a one-unit class by the unit itself. *)
Lemma replaceAll_Char_same (p : ascii -> bool) (rep : list ascii -> list ascii)
    (s : list ascii) :
  (forall c m, p c = true -> rep m = [c]) ->
  replaceAll (Char p) rep s = s.
Proof.
  intros Hrep. induction s as [|c s' IH].
  - reflexivity.
  - destruct (p c) eqn:Hp.
    + rewrite (replaceAll_match _ _ (c :: s') s').
      * rewrite (Hrep c _ Hp), IH. reflexivity.
      * rewrite matchAt_Char, Hp. reflexivity.
      * simpl. lia.
    + rewrite replaceAll_nomatch; [now rewrite IH|].
      rewrite matchAt_Char, Hp. reflexivity.
Qed.

End RegexFacts.

(** ** The normalizer *)

Module NormalizeFacts.
Import Notions RegexFacts.

Local Open Scope char_scope.

(** *** Lower case *)

Lemma toLowerCaseChar_lowered (c : ascii) : lowered (toLowerCaseChar c).
Proof. unfold lowered. destruct c as [[] [] [] [] [] [] [] []]; reflexivity. Qed.

Lemma toLowerCase_lowered (s : list ascii) : Forall lowered (toLowerCase s).
Proof.
  induction s as [|c s' IH]; simpl; constructor; auto using toLowerCaseChar_lowered.
Qed.

Lemma toLowerCase_fixed (s : list ascii) : Forall lowered s -> toLowerCase s = s.
Proof.
  induction 1 as [|c s' Hc _ IH]; simpl; [reflexivity|]. now rewrite Hc, IH.
Qed.

Lemma lowered_not_capital (c : ascii) : lowered c -> between 65 90 c = false.
Proof.
  unfold lowered. destruct c as [[] [] [] [] [] [] [] []]; vm_compute; congruence.
Qed.

(** *** White space *)

Lemma trimStart_startsClean (s : list ascii) : startsClean (trimStart s) = true.
Proof.
  induction s as [|c s' IH]; simpl; [reflexivity|].
  destruct (isSpace c) eqn:E; [assumption|]. simpl. now rewrite E.
Qed.

Lemma startsClean_trimStart (s : list ascii) : startsClean s = true -> trimStart s = s.
Proof.
  destruct s as [|c s']; simpl; [reflexivity|].
  destruct (isSpace c); [discriminate|reflexivity].
Qed.

Lemma trimStart_length (s : list ascii) : (length (trimStart s) <= length s)%nat.
Proof. rewrite <- dropRun_isSpace. apply dropRun_length. Qed.

Lemma collapse_nil : collapse [] = [].
Proof. reflexivity. Qed.

Lemma collapse_space (c : ascii) (s : list ascii) :
  isSpace c = true -> collapse (c :: s) = " " :: collapse (trimStart s).
Proof.
  intros Hc. unfold collapse.
  rewrite (replaceAll_match _ _ (c :: s) (trimStart s)); [reflexivity| |].
  - unfold reSpaces, sp1. rewrite matchAt_plus, Hc. now rewrite dropRun_isSpace.
  - pose proof (trimStart_length s). simpl. lia.
Qed.

Lemma collapse_other (c : ascii) (s : list ascii) :
  isSpace c = false -> collapse (c :: s) = c :: collapse s.
Proof.
  intros Hc. unfold collapse. apply replaceAll_nomatch.
  unfold reSpaces, sp1. now rewrite matchAt_plus, Hc.
Qed.

Lemma collapse_startsClean (s : list ascii) :
  startsClean s = true -> startsClean (collapse s) = true.
Proof.
  destruct s as [|c s']; [reflexivity|]. simpl. intros Hc.
  rewrite collapse_other by now apply negb_true_iff. exact Hc.
Qed.

Lemma collapse_tidy_upto (n : nat) :
  forall s : list ascii, (length s <= n)%nat -> tidy (collapse s).
Proof.
  induction n as [|n IH]; intros s Hlen.
  - destruct s; [exact I|simpl in Hlen; lia].
  - destruct s as [|c s']; [exact I|]. simpl in Hlen.
    destruct (isSpace c) eqn:Hc.
    + rewrite collapse_space by assumption. simpl. split.
      * intros _. split; [reflexivity|].
        apply collapse_startsClean, trimStart_startsClean.
      * apply IH. pose proof (trimStart_length s'). lia.
    + rewrite collapse_other by assumption. simpl. split.
      * congruence.
      * apply IH. lia.
Qed.

Lemma collapse_tidy (s : list ascii) : tidy (collapse s).
Proof. apply (collapse_tidy_upto (length s)). lia. Qed.

Lemma tidy_collapse (s : list ascii) : tidy s -> collapse s = s.
Proof.
  induction s as [|c s' IH]; [reflexivity|]. simpl. intros [Hc Hs'].
  destruct (isSpace c) eqn:E.
  - destruct (Hc eq_refl) as [-> Hclean].
    rewrite collapse_space by assumption.
    rewrite startsClean_trimStart by assumption. now rewrite IH.
  - rewrite collapse_other by assumption. now rewrite IH.
Qed.

Lemma tidy_trimStart (s : list ascii) : tidy s -> tidy (trimStart s).
Proof.
  induction s as [|c s' IH]; simpl; [auto|]. intros [Hc Hs'].
  destruct (isSpace c) eqn:E; [now apply IH|].
  simpl. split; [congruence|assumption].
Qed.

(** [trimEnd] keeps the head of what it leaves. *)
Lemma trimEnd_startsClean (s : list ascii) :
  startsClean s = true -> startsClean (trimEnd s) = true.
Proof.
  destruct s as [|c s']; [reflexivity|]. simpl. intros Hc.
  destruct (trimEnd s'); [|exact Hc].
  destruct (isSpace c) eqn:E; [reflexivity|]. simpl. now rewrite E.
Qed.

Lemma tidy_trimEnd (s : list ascii) : tidy s -> tidy (trimEnd s).
Proof.
  induction s as [|c s' IH]; simpl; [auto|]. intros [Hc Hs'].
  pose proof (trimEnd_startsClean s') as Hhead.
  destruct (trimEnd s') as [|a t] eqn:E.
  - destruct (isSpace c) eqn:Hsp; [exact I|]. simpl. rewrite Hsp. split; [congruence|exact I].
  - split; [|now apply IH].
    intros Hsp. destruct (Hc Hsp) as [-> Hclean]. split; [reflexivity|].
    now apply Hhead.
Qed.

Lemma trimEnd_idempotent (s : list ascii) : trimEnd (trimEnd s) = trimEnd s.
Proof.
  induction s as [|c s' IH]; simpl; [reflexivity|].
  destruct (trimEnd s') as [|a t] eqn:E.
  - destruct (isSpace c) eqn:Hsp; [reflexivity|]. simpl. now rewrite Hsp.
  - change (trimEnd (c :: a :: t)) with
      (match trimEnd (a :: t) with
       | [] => if isSpace c then [] else [c]
       | x => c :: x
       end).
    now rewrite IH.
Qed.

Lemma trim_idempotent (s : list ascii) : trim (trim s) = trim s.
Proof.
  unfold trim.
  rewrite (startsClean_trimStart (trimEnd (trimStart s))).
  - apply trimEnd_idempotent.
  - apply trimEnd_startsClean, trimStart_startsClean.
Qed.

Lemma tidy_trim (s : list ascii) : tidy s -> tidy (trim s).
Proof. intros H. apply tidy_trimEnd, tidy_trimStart, H. Qed.

Lemma trimStart_suffix (s : list ascii) : trimStart s `suffix_of` s.
Proof.
  induction s as [|c s' IH]; simpl; [reflexivity|].
  destruct (isSpace c); [now apply suffix_cons_r|reflexivity].
Qed.

Lemma trimEnd_prefix (s : list ascii) : trimEnd s `prefix_of` s.
Proof.
  induction s as [|c s' IH]; simpl; [reflexivity|].
  destruct (trimEnd s') as [|a t].
  - destruct (isSpace c); [apply prefix_nil|]. apply prefix_cons, prefix_nil.
  - now apply prefix_cons.
Qed.

Lemma trim_Forall (P : ascii -> Prop) (s : list ascii) :
  Forall P s -> Forall P (trim s).
Proof.
  intros H. unfold trim.
  destruct (trimEnd_prefix (trimStart s)) as [post E].
  destruct (trimStart_suffix s) as [pre E'].
  rewrite E' in H. apply Forall_app in H as [_ H].
  rewrite E in H. now apply Forall_app in H.
Qed.

(** *** Separators: [\s*a\s*] for a unit [a] that is not white space *)

Lemma many_needs (a : ascii) (p : ascii -> bool) (k : cont) :
  (forall s rest, k s = Some rest -> a ∈ s /\ (length rest < length s)%nat) ->
  forall s rest, many p k s = Some rest -> a ∈ s /\ (length rest < length s)%nat.
Proof.
  intros Hk s. induction s as [|c s' IH]; intros rest; simpl; [apply Hk|].
  destruct (p c); [|apply Hk].
  destruct (many p k s') as [x|] eqn:E; [|apply Hk].
  intros [= <-]. destruct (IH x eq_refl) as [Hin Hlen].
  split; [now apply elem_of_cons; right|simpl; lia].
Qed.

Lemma separator_needs (a : ascii) (s rest : list ascii) :
  matchAt (reSeparator a) s = Some rest -> a ∈ s /\ (length rest < length s)%nat.
Proof.
  unfold matchAt, reSeparator, sp. simpl. apply many_needs.
  clear s rest. intros [|c s'] rest; [discriminate|].
  unfold one. destruct (Ascii.eqb a c) eqn:E; [|discriminate].
  apply Ascii.eqb_eq in E as <-. rewrite many_Some. intros [= <-].
  split; [apply elem_of_cons; left; reflexivity|].
  pose proof (dropRun_length isSpace s'). simpl. lia.
Qed.

Lemma separator_here (a : ascii) (s : list ascii) :
  isSpace a = false -> matchAt (reSeparator a) (a :: s) <> None.
Proof.
  intros Ha. unfold matchAt, reSeparator, sp. simpl. rewrite Ha.
  unfold one. rewrite Ascii.eqb_refl, many_Some. discriminate.
Qed.

Lemma separator_nil (a : ascii) : matchAt (reSeparator a) [] = None.
Proof. reflexivity. Qed.

Lemma separator_gone_upto (a : ascii) (rep : list ascii -> list ascii) (n : nat) :
  isSpace a = false -> (forall m, Forall (fun c => c <> a) (rep m)) ->
  forall s, (length s <= n)%nat ->
    Forall (fun c => c <> a) (replaceAll (reSeparator a) rep s).
Proof.
  intros Ha Hrep. induction n as [|n IH]; intros s Hlen.
  - destruct s; [|simpl in Hlen; lia].
    rewrite replaceAll_nil_nomatch by apply separator_nil. constructor.
  - destruct s as [|c s'].
    + rewrite replaceAll_nil_nomatch by apply separator_nil. constructor.
    + simpl in Hlen. destruct (matchAt (reSeparator a) (c :: s')) as [rest|] eqn:E.
      * destruct (separator_needs _ _ _ E) as [_ Hshort].
        rewrite (replaceAll_match _ _ _ _ E Hshort).
        apply Forall_app. split; [apply Hrep|]. apply IH. simpl in Hshort. lia.
      * rewrite replaceAll_nomatch by assumption. constructor.
        -- intros ->. now apply (separator_here a s').
        -- apply IH. lia.
Qed.

Lemma separator_gone (a : ascii) (rep : list ascii -> list ascii) (s : list ascii) :
  isSpace a = false -> (forall m, Forall (fun c => c <> a) (rep m)) ->
  Forall (fun c => c <> a) (replaceAll (reSeparator a) rep s).
Proof. intros Ha Hrep. apply (separator_gone_upto a rep (length s)); auto. Qed.

Lemma separator_absent (a : ascii) (s : list ascii) :
  Forall (fun c => c <> a) s -> occurs (reSeparator a) s = false.
Proof.
  induction 1 as [|c s' Hc Hs' IH]; [reflexivity|].
  cbn [occurs]. destruct (matchAt (reSeparator a) (c :: s')) as [rest|] eqn:E; [|exact IH].
  destruct (separator_needs _ _ _ E) as [Hin _].
  apply elem_of_cons in Hin as [->|Hin]; [congruence|].
  rewrite Forall_forall in Hs'. now apply Hs' in Hin.
Qed.

(** *** The camel-case step *)

Lemma camel_absent (s : list ascii) :
  Forall (fun c => between 65 90 c = false) s -> occurs reCamel s = false.
Proof.
  induction 1 as [|a s' Ha Hs' IH]; [reflexivity|].
  cbn [occurs]. replace (matchAt reCamel (a :: s')) with (@None (list ascii)); [exact IH|].
  unfold matchAt, reCamel. simpl. destruct (between 97 122 a); [|reflexivity].
  destruct Hs' as [|b t Hb _]; [reflexivity|]. now rewrite Hb.
Qed.

Lemma camelSpace_keeps (P : ascii -> Prop) (m : list ascii) :
  P " " -> Forall P m -> Forall P (camelSpace m).
Proof.
  intros Hsp Hm. destruct m as [|a [|b [|c t]]]; try exact Hm. simpl.
  pose proof (Forall_inv Hm). pose proof (Forall_inv (Forall_inv_tail Hm)).
  repeat constructor; assumption.
Qed.

Lemma with_keeps (P : ascii -> Prop) (w : string) (m : list ascii) :
  Forall P (chars w) -> Forall P m -> Forall P (with_ w m).
Proof. intros H _. exact H. Qed.

(** *** The two pipelines *)

Ltac keep_through :=
  repeat first
    [ apply trim_Forall
    | apply replaceAll_Forall;
        [ first [ intros m Hm; apply camelSpace_keeps; [vm_compute; congruence|exact Hm]
                | intros m Hm; repeat constructor; vm_compute; congruence ] | ]
    | apply replaceFirst_Forall;
        [ intros m Hm; repeat constructor; vm_compute; congruence | ] ].

Lemma title_shape (x : string) :
  exists y, normalizeTrackTitle x = of_chars y /\
            Forall lowered y /\ tidy y /\ trim y = y.
Proof.
  unfold normalizeTrackTitle. eexists. split; [reflexivity|]. split; [|split].
  - keep_through. apply toLowerCase_lowered.
  - apply tidy_trim, collapse_tidy.
  - apply trim_idempotent.
Qed.

Lemma artist_shape (x : string) :
  exists y, normalizeArtistName x = of_chars y /\
            Forall lowered y /\ tidy y /\ trim y = y /\
            Forall (fun c => c <> "&") y /\ Forall (fun c => c <> ",") y.
Proof.
  unfold normalizeArtistName. eexists. split; [reflexivity|].
  split; [|split; [|split; [|split]]].
  - keep_through. apply toLowerCase_lowered.
  - apply tidy_trim, collapse_tidy.
  - apply trim_idempotent.
  - apply trim_Forall.
    do 3 (apply replaceAll_Forall;
          [intros m Hm; repeat constructor; vm_compute; congruence|]).
    apply (separator_gone "&"); [reflexivity|].
    intros m. repeat constructor; vm_compute; congruence.
  - apply trim_Forall.
    do 2 (apply replaceAll_Forall;
          [intros m Hm; repeat constructor; vm_compute; congruence|]).
    apply (separator_gone ","); [reflexivity|].
    intros m. repeat constructor; vm_compute; congruence.
Qed.

Lemma apostrophe_same (s : list ascii) : replaceAll reApostrophe (with_ "'") s = s.
Proof.
  apply replaceAll_Char_same. intros c m Hc.
  apply orb_true_iff in Hc. unfold one in Hc. rewrite !Ascii.eqb_eq in Hc.
  destruct Hc as [<-|<-]; reflexivity.
Qed.

Lemma quote_same (s : list ascii) : replaceAll reQuote (fun _ => ["034"]) s = s.
Proof.
  apply replaceAll_Char_same. intros c m Hc.
  apply orb_true_iff in Hc. unfold one in Hc. rewrite !Ascii.eqb_eq in Hc.
  destruct Hc as [<-|<-]; reflexivity.
Qed.

Lemma title_second_pass (x : string) :
  free titlePatterns (normalizeTrackTitle x) = true ->
  normalizeTrackTitle (normalizeTrackTitle x) = normalizeTrackTitle x.
Proof.
  destruct (title_shape x) as (y & -> & Hlow & Htidy & Htrim).
  unfold free, titlePatterns. cbn [forallb].
  rewrite chars_of_chars, !andb_true_iff, !negb_true_iff.
  intros (H1 & H2 & H3 & H4 & H5 & H6 & H7 & H8 & H9 & H10 & _).
  unfold normalizeTrackTitle.
  rewrite chars_of_chars, (toLowerCase_fixed y Hlow).
  rewrite (replaceAll_absent _ _ y H1), (replaceAll_absent _ _ y H2),
    (replaceAll_absent _ _ y H3), (replaceAll_absent _ _ y H4),
    (replaceAll_absent _ _ y H5), (replaceAll_absent _ _ y H6),
    (replaceAll_absent _ _ y H7), (replaceAll_absent _ _ y H8),
    (replaceAll_absent _ _ y H9), (replaceAll_absent _ _ y H10).
  rewrite apostrophe_same, quote_same.
  change (replaceAll reSpaces (with_ " ") y) with (collapse y).
  now rewrite (tidy_collapse y Htidy), Htrim.
Qed.

Lemma lowered_no_capitals (y : list ascii) :
  Forall lowered y -> Forall (fun c => between 65 90 c = false) y.
Proof.
  intros H. eapply Forall_impl; [exact H|]. intros c. apply lowered_not_capital.
Qed.

Lemma artist_second_pass (x : string) :
  free artistSuffixes (normalizeArtistName x) = true ->
  normalizeArtistName (normalizeArtistName x) = normalizeArtistName x.
Proof.
  destruct (artist_shape x) as (y & -> & Hlow & Htidy & Htrim & Hamp & Hcomma).
  unfold free, artistSuffixes. cbn [forallb].
  rewrite chars_of_chars, !andb_true_iff, !negb_true_iff.
  intros (H1 & H2 & H3 & _).
  unfold normalizeArtistName.
  rewrite chars_of_chars, (toLowerCase_fixed y Hlow).
  rewrite (replaceFirst_absent _ _ y H1), (replaceFirst_absent _ _ y H2),
    (replaceFirst_absent _ _ y H3).
  rewrite (replaceAll_absent reCamel _ y (camel_absent y (lowered_no_capitals y Hlow))).
  rewrite (replaceAll_absent reAmpersand _ y (separator_absent "&" y Hamp)).
  rewrite (replaceAll_absent reComma _ y (separator_absent "," y Hcomma)).
  rewrite apostrophe_same.
  change (replaceAll reSpaces (with_ " ") y) with (collapse y).
  now rewrite (tidy_collapse y Htidy), Htrim.
Qed.

Local Open Scope string_scope.

(** C2, as the code has it. A second pass of normalizeTrackTitle changes
    nothing when the normalized title holds no further match of the ten
    deleted patterns, and a second pass of normalizeArtistName changes
    nothing when the normalized name does not itself end in vevo, topic or
    official. *)
Theorem normalize_idempotent_when_free (title artist : string) :
  free titlePatterns (normalizeTrackTitle title) = true ->
  free artistSuffixes (normalizeArtistName artist) = true ->
  normalizeTrackTitle (normalizeTrackTitle title) = normalizeTrackTitle title /\
  normalizeArtistName (normalizeArtistName artist) = normalizeArtistName artist.
Proof.
  intros Ht Ha. split; [now apply title_second_pass|now apply artist_second_pass].
Qed.

Lemma normalize_idempotent_when_free_witness :
  normalizeTrackTitle (normalizeTrackTitle "Blinding Lights (Official Video)") =
    normalizeTrackTitle "Blinding Lights (Official Video)" /\
  normalizeArtistName (normalizeArtistName "The Weeknd VEVO") =
    normalizeArtistName "The Weeknd VEVO".
Proof.
  apply (normalize_idempotent_when_free "Blinding Lights (Official Video)"
           "The Weeknd VEVO"); vm_compute; reflexivity.
Defined.

(** C2 as stated fails, for both functions: deleting one annotation can
    put together another one, and deleting one suffix can uncover
    another. *)
Lemma normalize_not_idempotent :
  normalizeTrackTitle "Song (Lyrics (Audio))" = "song (lyrics)" /\
  normalizeTrackTitle (normalizeTrackTitle "Song (Lyrics (Audio))") = "song" /\
  normalizeTrackTitle (normalizeTrackTitle "Song (Lyrics (Audio))") <>
    normalizeTrackTitle "Song (Lyrics (Audio))" /\
  normalizeArtistName "ArtistVEVO - Topic" = "artistvevo" /\
  normalizeArtistName (normalizeArtistName "ArtistVEVO - Topic") = "artist" /\
  normalizeArtistName (normalizeArtistName "ArtistVEVO - Topic") <>
    normalizeArtistName "ArtistVEVO - Topic".
Proof. repeat split; vm_compute; solve [reflexivity | discriminate]. Qed.

(** The camel-case step of normalizeArtistName never changes its input:
    it runs on text that is already in lower case. *)
Lemma camel_step_idle (artist : string) :
  let lowerCased :=
    replaceFirst reOfficial (with_ "")
      (replaceFirst reTopic (with_ "")
         (replaceFirst reVevo (with_ "") (toLowerCase (chars artist)))) in
  replaceAll reCamel camelSpace lowerCased = lowerCased.
Proof.
  intros lowerCased. apply replaceAll_absent, camel_absent, lowered_no_capitals.
  unfold lowerCased. keep_through. apply toLowerCase_lowered.
Qed.

(** C3 fails on the code: the channel name JeremyZuckerVEVO comes out as
    one word, not as "jeremy zucker". *)
Theorem normalizeArtistName_keeps_camel_case_joined :
  normalizeArtistName "JeremyZuckerVEVO" = "jeremyzucker" /\
  normalizeArtistName "JeremyZuckerVEVO" <> "jeremy zucker".
Proof. split; [vm_compute; reflexivity|vm_compute; discriminate]. Qed.

End NormalizeFacts.

(** * Properties beyond the claims *)

(** ** Order on numbers *)

Module NumFacts.
Import Views.

Local Open Scope Q_scope.

Lemma gt_Fin (x y : Q) : gt (Fin x) (Fin y) = true <-> y < x.
Proof.
  unfold gt, compare. rewrite Qgt_alt.
  destruct (x ?= y); split; congruence.
Qed.

Lemma gt_Fin_false (x y : Q) : gt (Fin x) (Fin y) = false <-> x <= y.
Proof.
  rewrite <- not_true_iff_false, gt_Fin. split; [apply Qnot_lt_le|apply Qle_not_lt].
Qed.

Lemma ge_Fin (x y : Q) : ge (Fin x) (Fin y) = true <-> y <= x.
Proof.
  unfold ge, compare. rewrite Qle_alt.
  destruct (x ?= y) eqn:E.
  - apply Qeq_alt in E. rewrite (proj1 (Qeq_alt y x)); [split; congruence|].
    now symmetry.
  - apply Qlt_alt in E. rewrite (proj1 (Qgt_alt y x) E). split; congruence.
  - apply Qgt_alt in E. rewrite (proj1 (Qlt_alt y x) E). split; congruence.
Qed.

Lemma ge_Fin_false (x y : Q) : ge (Fin x) (Fin y) = false <-> x < y.
Proof.
  rewrite <- not_true_iff_false, ge_Fin. split; [apply Qnot_le_lt|apply Qlt_not_le].
Qed.

Lemma lt_Fin (x y : Q) : lt (Fin x) (Fin y) = true <-> x < y.
Proof.
  unfold lt, compare. rewrite Qlt_alt.
  destruct (x ?= y); split; congruence.
Qed.

Lemma gt_irrefl (x : number) : gt x x = false.
Proof.
  destruct x as [| |q|]; try reflexivity. apply gt_Fin_false. apply Qle_refl.
Qed.

Lemma gt_left_number (x y : number) : gt x y = true -> x <> NaN /\ y <> NaN.
Proof.
  unfold gt, compare. destruct x, y; intros H; try discriminate; split; discriminate.
Qed.

(** [z <= y < x] gives [z <= x], where [z] may also be no number. *)
Lemma gt_false_trans (x y z : number) :
  gt x y = true -> gt z y = false -> gt z x = false.
Proof.
  destruct x as [| |x|], y as [| |y|], z as [| |z|]; try reflexivity;
    try discriminate; rewrite ?gt_Fin, ?gt_Fin_false; intros; lra.
Qed.

Lemma gt_trans (x y z : number) : gt x y = true -> gt y z = true -> gt x z = true.
Proof.
  destruct x as [| |x|], y as [| |y|], z as [| |z|]; try reflexivity;
    try discriminate; rewrite ?gt_Fin; intros; lra.
Qed.

Lemma gt_outscored (s x : number) : gt s x = true -> outscored s x.
Proof.
  unfold outscored.
  destruct s as [| |s|], x as [| |x|]; try reflexivity; try discriminate.
  rewrite gt_Fin, ge_Fin_false. auto.
Qed.

(** [x <= s < s'] gives [x < s'], where [x] may also be no number. *)
Lemma outscored_later (s s' x : number) :
  gt s' s = true -> gt x s = false -> outscored s' x.
Proof.
  unfold outscored.
  destruct s as [| |s|], s' as [| |s'|], x as [| |x|]; try reflexivity;
    try discriminate; rewrite ?gt_Fin, ?gt_Fin_false, ?ge_Fin_false; intros; lra.
Qed.

Lemma ge_of_gt_false (x y : number) :
  x <> NaN -> y <> NaN -> gt y x = false -> ge x y = true.
Proof.
  destruct x as [| |x|], y as [| |y|]; try reflexivity; try discriminate;
    try congruence.
  rewrite gt_Fin_false, ge_Fin. auto.
Qed.

Lemma ge_trans (x y z : number) : ge x y = true -> ge y z = true -> ge x z = true.
Proof.
  destruct x as [| |x|], y as [| |y|], z as [| |z|]; try reflexivity;
    try discriminate; rewrite ?ge_Fin; intros; lra.
Qed.

End NumFacts.

(** ** The choice of the best candidate *)

Module ChoiceFacts.
Import Matcher Views NumFacts.

Section WithFuzzy.
Variable fuzzy : string -> string -> Q.
Variable source : UnifiedTrack.
Variable config : MatchConfig.

Local Notation "'score' c" := (compositeScore fuzzy source c config)
  (at level 10, c at level 9).
Local Notation "'step'" := (scoreStep fuzzy source config).

Lemma fold_scoreStep_cons (c : UnifiedTrack) (l : list UnifiedTrack)
    (o : option UnifiedTrack) (s : number) :
  fold_left step (c :: l) (o, s) =
  fold_left step l (if gt (score c) s then (Some c, score c) else (o, s)).
Proof. reflexivity. Qed.

(** The loop from a running best [(o, s)]: either nothing beats [s], or
    the first candidate that ends up on top is singled out. *)
Lemma fold_scoreStep_choice (l : list UnifiedTrack) :
  forall (o : option UnifiedTrack) (s : number),
    (fold_left step l (o, s) = (o, s) /\
     forall c, c ∈ l -> gt (score c) s = false) \/
    (exists b l1 l2,
       l = l1 ++ b :: l2 /\
       fold_left step l (o, s) = (Some b, score b) /\
       gt (score b) s = true /\
       (forall c, c ∈ l1 -> outscored (score b) (score c)) /\
       (forall c, c ∈ l2 -> gt (score c) (score b) = false)).
Proof.
  induction l as [|c l' IH]; intros o s.
  - left. split; [reflexivity|]. intros c Hc. inversion Hc.
  - rewrite fold_scoreStep_cons.
    destruct (gt (score c) s) eqn:Hgt.
    + right. destruct (IH (Some c) (score c)) as [[Hsame Hall]|(b & l1 & l2 & -> & Hf & Hb & H1 & H2)].
      * exists c, [], l'. rewrite Hsame. repeat split; auto.
        intros x Hx. inversion Hx.
      * exists b, (c :: l1), l2. rewrite Hf. repeat split; auto.
        -- eapply gt_trans; eassumption.
        -- intros x Hx. apply elem_of_cons in Hx as [->|Hx]; [|now apply H1].
           now apply gt_outscored.
    + destruct (IH o s) as [[Hsame Hall]|(b & l1 & l2 & -> & Hf & Hb & H1 & H2)].
      * left. split; [assumption|].
        intros x Hx. apply elem_of_cons in Hx as [->|Hx]; [assumption|now apply Hall].
      * right. exists b, (c :: l1), l2. rewrite Hf. repeat split; auto.
        intros x Hx. apply elem_of_cons in Hx as [->|Hx]; [|now apply H1].
        eapply outscored_later; eassumption.
Qed.

Lemma scoreAll_bounds (candidates : list UnifiedTrack) :
  ge (snd (scoreAll fuzzy source candidates config)) (Fin 0) = true /\
  (forall c, c ∈ candidates ->
     gt (score c) (snd (scoreAll fuzzy source candidates config)) = false) /\
  match fst (scoreAll fuzzy source candidates config) with
  | Some b =>
      b ∈ candidates /\
      snd (scoreAll fuzzy source candidates config) = score b /\
      gt (score b) (Fin 0) = true
  | None => snd (scoreAll fuzzy source candidates config) = Fin 0
  end.
Proof.
  unfold scoreAll.
  destruct (fold_scoreStep_choice candidates None (Fin 0))
    as [[-> Hall]|(b & l1 & l2 & E & -> & Hb & H1 & H2)]; cbn [fst snd].
  - repeat split; auto.
  - split; [|split; [|repeat split; auto]].
    + apply ge_of_gt_false; [apply (gt_left_number _ _ Hb)|discriminate|].
      apply gt_false_trans with (y := Fin 0); [assumption|reflexivity].
    + intros c Hc. rewrite E in Hc.
      apply elem_of_app in Hc as [Hc|Hc].
      * apply H1 in Hc. unfold outscored, ge in Hc. unfold gt.
        destruct (compare (score c) (score b)) as [[]|]; congruence.
      * apply elem_of_cons in Hc as [->|Hc]; [apply gt_irrefl|now apply H2].
    + rewrite E. apply elem_of_app. right. apply elem_of_cons. now left.
Qed.

(** X6. The pair that the scoring loop ends with: the best score is at
    least 0 and no candidate scores above it; the best match, when there
    is one, is a candidate whose score is that best score and is positive;
    without a best match the best score is 0. *)
Theorem scoreAll_maximal (candidates : list UnifiedTrack) :
  ge (snd (scoreAll fuzzy source candidates config)) (Fin 0) = true /\
  (forall c, c ∈ candidates ->
     gt (score c) (snd (scoreAll fuzzy source candidates config)) = false) /\
  match fst (scoreAll fuzzy source candidates config) with
  | Some b =>
      b ∈ candidates /\
      snd (scoreAll fuzzy source candidates config) = score b /\
      gt (score b) (Fin 0) = true
  | None => snd (scoreAll fuzzy source candidates config) = Fin 0
  end.
Proof. apply scoreAll_bounds. Qed.

(** X7. Ties go to the candidate seen first: every candidate before the
    best match scores strictly below it (or has no score), every candidate
    after it scores at most as much. *)
Theorem scoreAll_first_of_the_best (candidates : list UnifiedTrack) (b : UnifiedTrack) :
  fst (scoreAll fuzzy source candidates config) = Some b ->
  exists before after,
    candidates = before ++ b :: after /\
    (forall c, c ∈ before -> outscored (score b) (score c)) /\
    (forall c, c ∈ after -> gt (score c) (score b) = false).
Proof.
  unfold scoreAll.
  destruct (fold_scoreStep_choice candidates None (Fin 0))
    as [[-> _]|(b' & l1 & l2 & E & -> & _ & H1 & H2)]; cbn [fst].
  - discriminate.
  - intros [= <-]. eauto.
Qed.

(** X8. A non-empty candidate list can still end without a target: the
    result has a null target exactly when no candidate scores above 0,
    and it is then the nothing-found record. *)
Theorem scoreAndClassify_no_target (candidates : list UnifiedTrack) :
  (target (scoreAndClassify fuzzy source candidates config) = None <->
   forall c, c ∈ candidates -> gt (score c) (Fin 0) = false) /\
  (target (scoreAndClassify fuzzy source candidates config) = None ->
   scoreAndClassify fuzzy source candidates config = nothingFound source).
Proof.
  unfold scoreAndClassify, scoreAll.
  destruct candidates as [|c0 rest].
  - split; [|reflexivity]. split; [|reflexivity]. intros _ c Hc. inversion Hc.
  - destruct (fold_scoreStep_choice (c0 :: rest) None (Fin 0))
      as [[-> Hall]|(b & l1 & l2 & E & -> & Hb & H1 & H2)].
    + cbn. split; [|reflexivity]. split; auto.
    + assert (Hshape : forall x y : MatchResult,
                target x = Some b -> target y = Some b ->
                target (if (false || lt (score b) (Fin (lowConfidenceThreshold config)))%bool
                        then x else y) = Some b).
      { intros x y Hx Hy. destruct (_ || _)%bool; assumption. }
      cbn [fst snd]. rewrite Hshape by reflexivity.
      split; [|discriminate]. split; [discriminate|].
      intros Hall. rewrite Hall in Hb; [discriminate|].
      rewrite E. apply elem_of_app. right. apply elem_of_cons. now left.
Qed.

End WithFuzzy.

Import Samples.

Lemma scoreAll_first_of_the_best_witness :
  exists before after,
    [goodbye; helloVideo; helloVideo] = before ++ helloVideo :: after /\
    (forall c, c ∈ before ->
       outscored (compositeScore exactFuzzy hello helloVideo DEFAULT_MATCH_CONFIG)
                 (compositeScore exactFuzzy hello c DEFAULT_MATCH_CONFIG)) /\
    (forall c, c ∈ after ->
       gt (compositeScore exactFuzzy hello c DEFAULT_MATCH_CONFIG)
          (compositeScore exactFuzzy hello helloVideo DEFAULT_MATCH_CONFIG) = false).
Proof.
  apply (scoreAll_first_of_the_best exactFuzzy hello DEFAULT_MATCH_CONFIG
           [goodbye; helloVideo; helloVideo] helloVideo).
  vm_compute. reflexivity.
Defined.

End ChoiceFacts.

(** ** Thresholds, exact matches, symmetry *)

Module ClassifyFacts.
Import Matcher Views NumFacts Samples.

Local Open Scope Q_scope.

Lemma scoreAll_withLow (fuzzy : string -> string -> Q) (source : UnifiedTrack)
    (candidates : list UnifiedTrack) (config : MatchConfig) (low : Q) :
  scoreAll fuzzy source candidates (withLow config low) =
  scoreAll fuzzy source candidates config.
Proof. reflexivity. Qed.

Lemma lt_Fin_mono (s : number) (low low' : Q) :
  low <= low' -> lt s (Fin low) = true -> lt s (Fin low') = true.
Proof.
  intros Hle. destruct s as [| |q|]; try discriminate; try reflexivity.
  rewrite !lt_Fin. intros. lra.
Qed.

(** X9. Raising the low-confidence threshold leaves target and confidence
    alone, and a result that is still not not_found under the higher
    threshold had the same status under the lower one. *)
Theorem raising_low_threshold (fuzzy : string -> string -> Q) (source : UnifiedTrack)
    (candidates : list UnifiedTrack) (config : MatchConfig) (low low' : Q) :
  low <= low' ->
  let before := scoreAndClassify fuzzy source candidates (withLow config low) in
  let after := scoreAndClassify fuzzy source candidates (withLow config low') in
  target after = target before /\
  Types.confidence after = Types.confidence before /\
  (status after <> not_found -> status after = status before).
Proof.
  intros Hle. unfold scoreAndClassify. rewrite !scoreAll_withLow.
  destruct candidates as [|c rest]; [repeat split|].
  destruct (scoreAll fuzzy source (c :: rest) config) as [[b|] s]; cbn.
  - pose proof (lt_Fin_mono s low low' Hle) as Hmono.
    destruct (lt s (Fin low')) eqn:E'; destruct (lt s (Fin low)) eqn:E; cbn;
      repeat split; try congruence.
    discriminate (Hmono eq_refl).
  - repeat split.
Qed.

Lemma raising_low_threshold_witness :
  let before :=
    scoreAndClassify exactFuzzy hello [goodbye; helloVideo]
      (withLow DEFAULT_MATCH_CONFIG (55 # 100)) in
  let after :=
    scoreAndClassify exactFuzzy hello [goodbye; helloVideo]
      (withLow DEFAULT_MATCH_CONFIG (70 # 100)) in
  target after = target before /\
  Types.confidence after = Types.confidence before /\
  (status after <> not_found -> status after = status before).
Proof.
  apply (raising_low_threshold exactFuzzy hello [goodbye; helloVideo]
           DEFAULT_MATCH_CONFIG (55 # 100) (70 # 100)).
  vm_compute. congruence.
Defined.

Lemma Math_max_floor_any (a : Q) :
  exists q, Math_max (Fin a) (Fin (98 # 100)) = Fin q /\ 98 # 100 <= q.
Proof.
  unfold Math_max, compare.
  destruct (a ?= 98 # 100) eqn:E; eexists; (split; [reflexivity|]).
  - apply Qeq_alt in E. lra.
  - lra.
  - apply Qgt_alt in E. lra.
Qed.

(** With the default configuration, a candidate whose normalized title and
    normalized artist equal those of the source scores between 0.933 and
    0.99, whatever the similarity function and the durations. *)
Lemma exact_match_score (fuzzy : string -> string -> Q) (source candidate : UnifiedTrack) :
  normalizeTrackTitle (title source) = normalizeTrackTitle (title candidate) ->
  normalizeArtistName (artist source) = normalizeArtistName (artist candidate) ->
  exists q, compositeScore fuzzy source candidate DEFAULT_MATCH_CONFIG = Fin q /\
            933 # 1000 <= q <= 99 # 100.
Proof.
  intros Ht Ha. unfold compositeScore. rewrite <- Ht, <- Ha, !String.eqb_refl.
  destruct (ScoreFacts.durationScore_in_unit
              (Qabs (durationMs source - durationMs candidate))
              (durationToleranceMs DEFAULT_MATCH_CONFIG) (Qabs_nonneg _) eq_refl)
    as (d & -> & Hd).
  destruct (Math_max_floor_any
              (fuzzy (normalizeTrackTitle (title source)) (normalizeTrackTitle (title source))))
    as (t & -> & Ht').
  destruct (Math_max_floor_any
              (fuzzy (normalizeArtistName (artist source)) (normalizeArtistName (artist source))))
    as (a & -> & Ha').
  cbn [andb mul add titleWeight artistWeight durationWeight DEFAULT_MATCH_CONFIG].
  unfold Math_min, compare.
  set (c := t * (55 # 100) + a * (30 # 100) + d * (15 # 100) + (10 # 100)).
  assert (Hc : 933 # 1000 <= c) by (unfold c; lra).
  destruct (99 # 100 ?= c) eqn:E; eexists; (split; [reflexivity|]).
  - lra.
  - lra.
  - apply Qgt_alt in E. lra.
Qed.

(** X10. With the default configuration, a candidate list that holds an
    exact match (equal normalized title and equal normalized artist) is
    always classified matched, with a target and a confidence of at least
    0.93. (In exact arithmetic the floor is 0.933, see [exact_match_score];
    the bound is stated with a margin of 0.003, far above what the rounding
    of the score's three products and three sums in double precision can
    take away, and the threshold for matched, 0.80, lies further below.) *)
Theorem exact_candidate_is_matched (fuzzy : string -> string -> Q)
    (source candidate : UnifiedTrack) (candidates : list UnifiedTrack) :
  candidate ∈ candidates ->
  normalizeTrackTitle (title source) = normalizeTrackTitle (title candidate) ->
  normalizeArtistName (artist source) = normalizeArtistName (artist candidate) ->
  let result := scoreAndClassify fuzzy source candidates DEFAULT_MATCH_CONFIG in
  status result = matched /\
  target result <> None /\
  ge (Types.confidence result) (Fin (93 # 100)) = true.
Proof.
  intros Hin Ht Ha.
  destruct (exact_match_score fuzzy source candidate Ht Ha) as (q & Hq & Hlo & Hhi).
  destruct (ChoiceFacts.scoreAll_bounds fuzzy source DEFAULT_MATCH_CONFIG candidates)
    as (Hge0 & Hmax & Hbest).
  specialize (Hmax candidate Hin). rewrite Hq in Hmax.
  unfold scoreAndClassify. destruct candidates as [|c0 rest]; [inversion Hin|].
  destruct (scoreAll fuzzy source (c0 :: rest) DEFAULT_MATCH_CONFIG) as [o s].
  cbn [fst snd] in *.
  assert (Hs : exists x, s = Fin x /\ q <= x \/ s = PosInf).
  { destruct s as [| |x|]; try discriminate.
    - exists x. left. split; [reflexivity|]. now apply gt_Fin_false.
    - exists 0. now right. }
  destruct o as [b|].
  - destruct Hs as (x & [[-> Hx] | ->]).
    + assert (Hlow : lt (Fin x) (Fin (lowConfidenceThreshold DEFAULT_MATCH_CONFIG)) = false).
      { apply not_true_iff_false. rewrite lt_Fin. cbn. lra. }
      assert (Hhigh : ge (Fin x) (Fin (highConfidenceThreshold DEFAULT_MATCH_CONFIG)) = true).
      { apply ge_Fin. cbn. lra. }
      rewrite Hlow. cbn [orb]. cbv zeta. cbn [status target Types.confidence].
      rewrite Hhigh. repeat split; [discriminate|]. apply ge_Fin. lra.
    + cbn. repeat split. discriminate.
  - rewrite Hbest in Hmax. apply gt_Fin_false in Hmax. lra.
Qed.

Lemma exact_candidate_is_matched_witness :
  let result := scoreAndClassify exactFuzzy hello [goodbye; helloVideo] DEFAULT_MATCH_CONFIG in
  status result = matched /\
  target result <> None /\
  ge (Types.confidence result) (Fin (93 # 100)) = true.
Proof.
  apply (exact_candidate_is_matched exactFuzzy hello helloVideo [goodbye; helloVideo]).
  - apply elem_of_cons. right. apply elem_of_cons. now left.
  - vm_compute. reflexivity.
  - vm_compute. reflexivity.
Defined.

Lemma Qabs_minus_sym (x y : Q) : Qabs (x - y) = Qabs (y - x).
Proof.
  destruct x as [a b], y as [c d]. unfold Qabs, Qminus, Qplus, Qopp. cbn.
  f_equal; [lia|apply Pos.mul_comm].
Qed.

(** X11. The score is symmetric in source and candidate whenever the
    similarity function is. *)
Theorem compositeScore_symmetric (fuzzy : string -> string -> Q)
    (a b : UnifiedTrack) (config : MatchConfig) :
  (forall s t, fuzzy s t = fuzzy t s) ->
  compositeScore fuzzy a b config = compositeScore fuzzy b a config.
Proof.
  intros Hsym. unfold compositeScore.
  rewrite (Hsym (normalizeTrackTitle (title a))),
    (Hsym (normalizeArtistName (artist a))),
    (String.eqb_sym (normalizeTrackTitle (title a))),
    (String.eqb_sym (normalizeArtistName (artist a))),
    (Qabs_minus_sym (durationMs a)).
  reflexivity.
Qed.

Lemma exactFuzzy_symmetric (s t : string) : exactFuzzy s t = exactFuzzy t s.
Proof. unfold exactFuzzy. now rewrite String.eqb_sym. Qed.

Lemma compositeScore_symmetric_witness :
  compositeScore exactFuzzy hello helloVideo DEFAULT_MATCH_CONFIG =
  compositeScore exactFuzzy helloVideo hello DEFAULT_MATCH_CONFIG.
Proof.
  exact (compositeScore_symmetric exactFuzzy hello helloVideo DEFAULT_MATCH_CONFIG
           exactFuzzy_symmetric).
Defined.

End ClassifyFacts.

(** ** The batch loop *)

Module BatchFacts.
Import Matcher Views Samples.

Section WithSearch.
Context {World Error : Type}.
Variable fuzzy : string -> string -> Q.
Variable searchFn : string -> async World Error (list UnifiedTrack).

Lemma scoreAndClassify_source (source : UnifiedTrack) (candidates : list UnifiedTrack)
    (config : MatchConfig) :
  Types.source (scoreAndClassify fuzzy source candidates config) = source.
Proof.
  unfold scoreAndClassify. destruct candidates; [reflexivity|].
  destruct (scoreAll _ _ _ _) as [bestMatch bestScore].
  destruct (_ || _)%bool; reflexivity.
Qed.

Lemma matchTrack_source (source : UnifiedTrack) (config : MatchConfig)
    (w w' : World) (r : MatchResult) :
  matchTrack fuzzy searchFn source config w = (Returns r, w') ->
  Types.source r = source.
Proof.
  unfold matchTrack, fastPath, generalPath, tryCatch, bind, ret.
  destruct (truthy (isrc source)).
  - destruct (searchFn _ w) as [[[|first rest]|e] w1].
    + destruct (searchFn _ w1) as [[candidates|e] w2]; [|discriminate].
      intros [= <- _]. apply scoreAndClassify_source.
    + now intros [= <- _].
    + destruct (searchFn _ w1) as [[candidates|e'] w2]; [|discriminate].
      intros [= <- _]. apply scoreAndClassify_source.
  - destruct (searchFn _ w) as [[candidates|e] w2]; [|discriminate].
    intros [= <- _]. apply scoreAndClassify_source.
Qed.

Lemma checkExisting_source (existing : gset string) (r : MatchResult) :
  Types.source (checkExisting existing r) = Types.source r.
Proof.
  unfold checkExisting. destruct (target r); [|reflexivity].
  destruct (bool_decide _); reflexivity.
Qed.

Lemma matchTracksLoop_sources (sources : list UnifiedTrack) (existing : gset string)
    (config : MatchConfig) :
  forall (acc results : list MatchResult) (w w' : World),
    matchTracksLoop fuzzy searchFn sources existing config acc w = (Returns results, w') ->
    map Types.source results = map Types.source acc ++ sources.
Proof.
  induction sources as [|s rest IH]; intros acc results w w'; simpl.
  - unfold ret. intros [= <- _]. now rewrite app_nil_r.
  - unfold bind at 1.
    destruct (matchTrack fuzzy searchFn s config w) as [[r|e] w1] eqn:Hm; [|discriminate].
    intros H. apply IH in H. rewrite H, map_app. simpl.
    rewrite checkExisting_source, (matchTrack_source _ _ _ _ _ Hm).
    now rewrite <- app_assoc.
Qed.

(** X12. matchTracks answers with one result per source track, in the
    order of the input: the sources of the results are the input list. *)
Theorem matchTracks_keeps_order (sources : list UnifiedTrack) (existing : gset string)
    (config : MatchConfig) (results : list MatchResult) (w w' : World) :
  matchTracks fuzzy searchFn sources existing config w = (Returns results, w') ->
  map Types.source results = sources /\ length results = length sources.
Proof.
  intros H. apply matchTracksLoop_sources in H. simpl in H. split; [exact H|].
  rewrite <- H. now rewrite length_map.
Qed.

(** The accumulator is only ever extended. *)
Lemma matchTracksLoop_acc (sources : list UnifiedTrack) (existing : gset string)
    (config : MatchConfig) :
  forall (acc : list MatchResult) (w : World),
    matchTracksLoop fuzzy searchFn sources existing config acc w =
    match matchTracksLoop fuzzy searchFn sources existing config [] w with
    | (Returns results, w') => (Returns (acc ++ results), w')
    | (Throws e, w') => (Throws e, w')
    end.
Proof.
  induction sources as [|s rest IH]; intros acc w; simpl.
  - unfold ret. now rewrite app_nil_r.
  - unfold bind.
    destruct (matchTrack fuzzy searchFn s config w) as [[r|e] w1]; [|reflexivity].
    rewrite (IH (acc ++ [checkExisting existing r])), (IH [checkExisting existing r]).
    destruct (matchTracksLoop _ _ rest _ _ [] w1) as [[results|e'] w2]; [|reflexivity].
    now rewrite <- app_assoc.
Qed.

Lemma matchTracksLoop_app (pre post : list UnifiedTrack) (existing : gset string)
    (config : MatchConfig) :
  forall (acc : list MatchResult) (w : World),
    matchTracksLoop fuzzy searchFn (pre ++ post) existing config acc w =
    match matchTracksLoop fuzzy searchFn pre existing config acc w with
    | (Returns results, w') =>
        matchTracksLoop fuzzy searchFn post existing config results w'
    | (Throws e, w') => (Throws e, w')
    end.
Proof.
  induction pre as [|s rest IH]; intros acc w; simpl; [reflexivity|].
  unfold bind.
  destruct (matchTrack fuzzy searchFn s config w) as [[r|e] w1]; [|reflexivity].
  apply IH.
Qed.

(** X13. Splitting a batch: matching a list in one call is matching a
    first part and then, from the state this leaves, the rest, with the two
    result lists put end to end; an error in the first part is the outcome
    of the whole. *)
Theorem matchTracks_split (pre post : list UnifiedTrack) (existing : gset string)
    (config : MatchConfig) (w : World) :
  matchTracks fuzzy searchFn (pre ++ post) existing config w =
  match matchTracks fuzzy searchFn pre existing config w with
  | (Returns first, w1) =>
      match matchTracks fuzzy searchFn post existing config w1 with
      | (Returns second, w2) => (Returns (first ++ second), w2)
      | (Throws e, w2) => (Throws e, w2)
      end
  | (Throws e, w1) => (Throws e, w1)
  end.
Proof.
  unfold matchTracks. rewrite matchTracksLoop_app.
  destruct (matchTracksLoop _ _ pre _ _ [] w) as [[first|e] w1]; [|reflexivity].
  apply matchTracksLoop_acc.
Qed.

(** X14. No partial results: when matching one source track throws, the
    whole batch throws that error, whatever was matched before and
    whatever would come after. *)
Theorem matchTracks_aborts (pre post : list UnifiedTrack) (source : UnifiedTrack)
    (existing : gset string) (config : MatchConfig) (e : Error)
    (first : list MatchResult) (w w1 w2 : World) :
  matchTracks fuzzy searchFn pre existing config w = (Returns first, w1) ->
  matchTrack fuzzy searchFn source config w1 = (Throws e, w2) ->
  matchTracks fuzzy searchFn (pre ++ source :: post) existing config w = (Throws e, w2).
Proof.
  intros Hpre Hthrow. unfold matchTracks in *. rewrite matchTracksLoop_app, Hpre.
  simpl. unfold bind. now rewrite Hthrow.
Qed.

Lemma checkExisting_fresh (existing : gset string) (r : MatchResult) :
  fresh existing (checkExisting existing r).
Proof.
  unfold fresh, checkExisting. destruct (target r) as [t|] eqn:Ht.
  - destruct (bool_decide (id t ∈ existing)) eqn:E.
    + simpl. congruence.
    + apply bool_decide_eq_false in E. intros _ t' Ht'.
      rewrite Ht in Ht'. now injection Ht' as <-.
  - intros _ t Ht'. congruence.
Qed.

Lemma matchTracksLoop_fresh (sources : list UnifiedTrack) (existing : gset string)
    (config : MatchConfig) :
  forall (acc results : list MatchResult) (w w' : World),
    Forall (fresh existing) acc ->
    matchTracksLoop fuzzy searchFn sources existing config acc w = (Returns results, w') ->
    Forall (fresh existing) results.
Proof.
  induction sources as [|s rest IH]; intros acc results w w' Hacc; simpl.
  - unfold ret. now intros [= <- _].
  - unfold bind at 1.
    destruct (matchTrack fuzzy searchFn s config w) as [[r|e] w1]; [|discriminate].
    apply IH. apply Forall_app. split; [assumption|].
    constructor; [apply checkExisting_fresh|constructor].
Qed.

End WithSearch.
End BatchFacts.

(** ** Deduplication and the route around it *)

Module DedupFacts.
Import Matcher Views Samples.

Lemma pendingIds_cons (r : MatchResult) (rest : list MatchResult) :
  pendingIds (r :: rest) =
  match status r, target r with
  | already_exists, _ => pendingIds rest
  | _, Some t => id t :: pendingIds rest
  | _, None => pendingIds rest
  end.
Proof.
  unfold pendingIds. simpl. destruct (status r), (target r); reflexivity.
Qed.

Lemma pendingIds_escalated (r : MatchResult) (rest : list MatchResult) :
  pendingIds (withStatus r already_exists :: rest) = pendingIds rest.
Proof. now rewrite pendingIds_cons. Qed.

Lemma pendingIds_no_target (r : MatchResult) (rest : list MatchResult) :
  target r = None -> pendingIds (r :: rest) = pendingIds rest.
Proof. intros H. rewrite pendingIds_cons, H. now destruct (status r). Qed.

Lemma deduplicateFrom_pending (xs : list MatchResult) :
  forall seen : gset string,
    NoDup (pendingIds (deduplicateFrom seen xs)) /\
    forall i, i ∈ pendingIds (deduplicateFrom seen xs) -> i ∉ seen.
Proof.
  induction xs as [|r rest IH]; intros seen; simpl.
  - split; [constructor|]. intros i Hi. inversion Hi.
  - destruct (target r) as [t|] eqn:Ht.
    + destruct (bool_decide (id t ∈ seen)) eqn:Hin.
      * rewrite pendingIds_escalated. apply IH.
      * apply bool_decide_eq_false in Hin.
        destruct (IH ({[id t]} ∪ seen)) as [Hnd Hout].
        rewrite pendingIds_cons, Ht.
        assert (Hrest : NoDup (pendingIds (deduplicateFrom ({[id t]} ∪ seen) rest)) /\
                        forall i, i ∈ pendingIds (deduplicateFrom ({[id t]} ∪ seen) rest) ->
                                  i ∉ seen).
        { split; [assumption|]. intros i Hi. apply Hout in Hi.
          intros Hs. apply Hi, elem_of_union. now right. }
        assert (Hcons : NoDup (id t :: pendingIds (deduplicateFrom ({[id t]} ∪ seen) rest)) /\
                        forall i, i ∈ id t :: pendingIds (deduplicateFrom ({[id t]} ∪ seen) rest) ->
                                  i ∉ seen).
        { split.
          - constructor; [|assumption]. intros Hi. apply Hout in Hi.
            apply Hi, elem_of_union. left. now apply elem_of_singleton.
          - intros i Hi. apply elem_of_cons in Hi as [->|Hi]; [assumption|].
            now apply Hrest. }
        destruct (status r); assumption.
    + rewrite pendingIds_no_target by assumption. apply IH.
Qed.

(** X16. After deduplicateResults no target is left to be added twice:
    the results that are not marked already_exists have pairwise distinct
    target identifiers. *)
Theorem deduplicateResults_distinct_targets (xs : list MatchResult) :
  NoDup (pendingIds (deduplicateResults xs)).
Proof. apply deduplicateFrom_pending. Qed.

Lemma claimed_cons (x : MatchResult) (earlier : list MatchResult) (i : string) :
  claimed (x :: earlier) i =
  (match target x with Some t => String.eqb (id t) i | None => false end
   || claimed earlier i)%bool.
Proof. reflexivity. Qed.

Local Arguments claimed : simpl never.

Lemma deduplicateFrom_lookup (xs : list MatchResult) :
  forall (seen : gset string) (i : nat) (r : MatchResult),
    xs !! i = Some r ->
    deduplicateFrom seen xs !! i =
    Some match target r with
         | Some t =>
             if (bool_decide (id t ∈ seen) || claimed (take i xs) (id t))%bool
             then withStatus r already_exists else r
         | None => r
         end.
Proof.
  induction xs as [|x rest IH]; intros seen i r Hi; [discriminate|].
  destruct i as [|i]; simpl in Hi.
  - injection Hi as ->. simpl. destruct (target r) as [t|]; [|reflexivity].
    change (claimed [] (id t)) with false.
    rewrite orb_false_r. now destruct (bool_decide (id t ∈ seen)).
  - cbn [take]. simpl.
    assert (Hsame : forall seen' : gset string,
      (forall t, target r = Some t ->
         (bool_decide (id t ∈ seen') || claimed (take i rest) (id t))%bool =
         (bool_decide (id t ∈ seen) || claimed (x :: take i rest) (id t))%bool) ->
      forall out : list MatchResult,
        out !! S i = deduplicateFrom seen' rest !! i ->
        out !! S i =
        Some match target r with
             | Some t =>
                 if (bool_decide (id t ∈ seen) || claimed (x :: take i rest) (id t))%bool
                 then withStatus r already_exists else r
             | None => r
             end).
    { intros seen' Heq out ->. rewrite (IH seen' i r Hi).
      destruct (target r) as [t|]; [|reflexivity]. now rewrite (Heq t eq_refl). }
    destruct (target x) as [tx|] eqn:Hx.
    + destruct (bool_decide (id tx ∈ seen)) eqn:Hin.
      * apply (Hsame seen); [|reflexivity].
        intros t _. rewrite claimed_cons, Hx.
        destruct (String.eqb (id tx) (id t)) eqn:E; [|reflexivity].
        apply String.eqb_eq in E. rewrite <- E, Hin. reflexivity.
      * apply (Hsame ({[id tx]} ∪ seen)); [|reflexivity].
        intros t _. rewrite claimed_cons, Hx.
        destruct (String.eqb (id tx) (id t)) eqn:E.
        -- apply String.eqb_eq in E. rewrite <- E.
           rewrite bool_decide_eq_true_2
             by (apply elem_of_union; left; now apply elem_of_singleton).
           now rewrite orb_true_r.
        -- apply String.eqb_neq in E. simpl.
           f_equal. apply bool_decide_ext.
           rewrite elem_of_union, elem_of_singleton.
           split; [intros [H|H]; [congruence|exact H]|auto].
    + apply (Hsame seen); [|reflexivity].
      intros t _. now rewrite claimed_cons, Hx.
Qed.

Lemma deduplicateFrom_length (xs : list MatchResult) :
  forall seen : gset string, length (deduplicateFrom seen xs) = length xs.
Proof.
  induction xs as [|r rest IH]; intros seen; simpl; [reflexivity|].
  destruct (target r) as [t|]; [destruct (bool_decide _)|]; simpl; now rewrite IH.
Qed.

(** X17. deduplicateResults position by position: the result at an index
    is rewritten to already_exists exactly when it has a target whose
    identifier an earlier result of the list has as well; any other result
    is handed back as it is. The length of the list does not change. *)
Theorem deduplicateResults_lookup (xs : list MatchResult) (i : nat) (r : MatchResult) :
  xs !! i = Some r ->
  deduplicateResults xs !! i =
    Some match target r with
         | Some t =>
             if claimed (take i xs) (id t) then withStatus r already_exists else r
         | None => r
         end /\
  length (deduplicateResults xs) = length xs.
Proof.
  intros Hi. split; [|apply deduplicateFrom_length].
  unfold deduplicateResults. rewrite (deduplicateFrom_lookup xs ∅ i r Hi).
  destruct (target r) as [t|]; [|reflexivity].
  now rewrite bool_decide_eq_false_2 by apply not_elem_of_empty.
Qed.

Lemma deduplicateResults_lookup_witness :
  deduplicateResults [strong; weak] !! 1%nat = Some (withStatus weak already_exists) /\
  length (deduplicateResults [strong; weak]) = 2%nat.
Proof.
  exact (deduplicateResults_lookup [strong; weak] 1 weak eq_refl).
Defined.

Lemma deduplicateFrom_sources (xs : list MatchResult) :
  forall seen : gset string,
    map Types.source (deduplicateFrom seen xs) = map Types.source xs.
Proof.
  induction xs as [|r rest IH]; intros seen; simpl; [reflexivity|].
  destruct (target r) as [t|]; [destruct (bool_decide _)|]; simpl; now rewrite IH.
Qed.

Lemma deduplicateFrom_fresh (existing : gset string) (xs : list MatchResult) :
  forall seen : gset string,
    Forall (fresh existing) xs -> Forall (fresh existing) (deduplicateFrom seen xs).
Proof.
  induction xs as [|r rest IH]; intros seen Hxs; simpl; [constructor|].
  pose proof (Forall_inv Hxs) as Hr. pose proof (Forall_inv_tail Hxs) as Hrest.
  destruct (target r) as [t|] eqn:Ht.
  - destruct (bool_decide (id t ∈ seen)).
    + constructor; [|now apply IH]. unfold fresh. simpl. congruence.
    + constructor; [assumption|now apply IH].
  - constructor; [assumption|now apply IH].
Qed.

Lemma filter_cons_length (f : MatchResult -> bool) (r : MatchResult)
    (rest : list MatchResult) :
  length (List.filter f (r :: rest)) =
  ((if f r then 1 else 0) + length (List.filter f rest))%nat.
Proof. simpl. destruct (f r); reflexivity. Qed.

Lemma stats_total (results : list MatchResult) :
  (SyncRoute.statMatched (SyncRoute.stats results) +
   SyncRoute.lowConfidence (SyncRoute.stats results) +
   SyncRoute.notFound (SyncRoute.stats results) +
   SyncRoute.alreadyExists (SyncRoute.stats results))%nat = length results.
Proof.
  unfold SyncRoute.stats. cbn [SyncRoute.statMatched SyncRoute.lowConfidence
    SyncRoute.notFound SyncRoute.alreadyExists].
  induction results as [|r rest IH]; [reflexivity|].
  rewrite !filter_cons_length. cbn [length].
  unfold SyncRoute.hasStatus in *. destruct (status r); lia.
Qed.

Section WithSearch.
Context {World Error : Type}.
Variable fuzzy : string -> string -> Q.
Variable searchFn : string -> async World Error (list UnifiedTrack).

(** X18. What the matching route sends back: of the results that are not
    marked already_exists, none targets a track that is already at the
    destination and no two target the same track. *)
Theorem route_results_are_addable (sourceTracks : list UnifiedTrack)
    (existing : gset string) (results : list MatchResult) (st : SyncRoute.Stats)
    (w w' : World) :
  SyncRoute.matchAndDeduplicate fuzzy searchFn sourceTracks existing w =
    (Returns (results, st), w') ->
  Forall (fresh existing) results /\ NoDup (pendingIds results).
Proof.
  unfold SyncRoute.matchAndDeduplicate, bind, ret.
  destruct (matchTracks fuzzy searchFn sourceTracks existing DEFAULT_MATCH_CONFIG w)
    as [[raw|e] w1] eqn:Hm; [|discriminate].
  intros [= <- _ _]. split.
  - apply deduplicateFrom_fresh.
    apply (BatchFacts.matchTracksLoop_fresh fuzzy searchFn sourceTracks existing
             DEFAULT_MATCH_CONFIG [] raw w w1); [constructor|exact Hm].
  - apply deduplicateFrom_pending.
Qed.

(** X19. What the matching route sends back: one result per source track,
    in the order of the request, and four counts that add up to the
    number of source tracks. *)
Theorem route_counts_add_up (sourceTracks : list UnifiedTrack)
    (existing : gset string) (results : list MatchResult) (st : SyncRoute.Stats)
    (w w' : World) :
  SyncRoute.matchAndDeduplicate fuzzy searchFn sourceTracks existing w =
    (Returns (results, st), w') ->
  map Types.source results = sourceTracks /\
  (SyncRoute.statMatched st + SyncRoute.lowConfidence st +
   SyncRoute.notFound st + SyncRoute.alreadyExists st)%nat = length sourceTracks.
Proof.
  unfold SyncRoute.matchAndDeduplicate, bind, ret.
  destruct (matchTracks fuzzy searchFn sourceTracks existing DEFAULT_MATCH_CONFIG w)
    as [[raw|e] w1] eqn:Hm; [|discriminate].
  intros [= <- <- _].
  apply (BatchFacts.matchTracksLoop_sources fuzzy searchFn) in Hm. simpl in Hm.
  split.
  - unfold deduplicateResults. now rewrite deduplicateFrom_sources.
  - rewrite stats_total. unfold deduplicateResults.
    rewrite deduplicateFrom_length, <- Hm. now rewrite length_map.
Qed.

End WithSearch.
End DedupFacts.

(** ** The shape of normalized text *)

Module ShapeFacts.
Import Matcher Notions Views RegexFacts NormalizeFacts.

Local Open Scope char_scope.

(** X1. A normalized title is in lower case, its only white space is
    single spaces between other code units, and it neither starts nor ends
    with white space. *)
Theorem normalizeTrackTitle_shape (title : string) :
  toLowerCase (chars (normalizeTrackTitle title)) = chars (normalizeTrackTitle title) /\
  Forall (fun c => between 65 90 c = false) (chars (normalizeTrackTitle title)) /\
  tidy (chars (normalizeTrackTitle title)) /\
  trim (chars (normalizeTrackTitle title)) = chars (normalizeTrackTitle title).
Proof.
  destruct (title_shape title) as (y & -> & Hlow & Htidy & Htrim).
  rewrite chars_of_chars.
  auto using toLowerCase_fixed, lowered_no_capitals.
Qed.

(** X2. A normalized artist name is in lower case, holds neither an
    ampersand nor a comma, its only white space is single spaces between
    other code units, and it neither starts nor ends with white space. *)
Theorem normalizeArtistName_shape (artist : string) :
  toLowerCase (chars (normalizeArtistName artist)) = chars (normalizeArtistName artist) /\
  Forall (fun c => between 65 90 c = false) (chars (normalizeArtistName artist)) /\
  Forall (fun c => c <> "&" /\ c <> ",") (chars (normalizeArtistName artist)) /\
  tidy (chars (normalizeArtistName artist)) /\
  trim (chars (normalizeArtistName artist)) = chars (normalizeArtistName artist).
Proof.
  destruct (artist_shape artist) as (y & -> & Hlow & Htidy & Htrim & Hamp & Hcomma).
  rewrite chars_of_chars.
  repeat split; auto using toLowerCase_fixed, lowered_no_capitals.
  rewrite Forall_forall in *. intros c Hc. split; [now apply Hamp|now apply Hcomma].
Qed.

Lemma chars_append (a b : string) : chars (String.append a b) = chars a ++ chars b.
Proof.
  induction a as [|c a IH]; simpl; [reflexivity|].
  unfold chars in *. simpl. now rewrite IH.
Qed.

Lemma toLowerCase_app (a b : list ascii) :
  toLowerCase (a ++ b) = toLowerCase a ++ toLowerCase b.
Proof. apply map_app. Qed.

(** X4. The search query is the normalized artist, one space, the
    normalized title: it is never empty and it is in lower case. *)
Theorem buildSearchQuery_shape (track : UnifiedTrack) :
  chars (buildSearchQuery track) =
    chars (normalizeArtistName (artist track)) ++ " " ::
    chars (normalizeTrackTitle (title track)) /\
  buildSearchQuery track <> EmptyString /\
  toLowerCase (chars (buildSearchQuery track)) = chars (buildSearchQuery track).
Proof.
  assert (E : chars (buildSearchQuery track) =
              chars (normalizeArtistName (artist track)) ++ " " ::
              chars (normalizeTrackTitle (title track))).
  { unfold buildSearchQuery. now rewrite !chars_append. }
  split; [exact E|]. split.
  - intros H. rewrite H in E. destruct (chars (normalizeArtistName (artist track)));
      discriminate.
  - rewrite E, toLowerCase_app. cbn [toLowerCase map].
    change (map toLowerCaseChar) with toLowerCase.
    destruct (artist_shape (artist track)) as (ya & -> & Hla & _).
    destruct (title_shape (title track)) as (yt & -> & Hlt & _).
    now rewrite !chars_of_chars, (toLowerCase_fixed ya Hla), (toLowerCase_fixed yt Hlt).
Qed.

(** [/vevo$/i] matches a text of exactly four code units. *)
Lemma reVevo_length (s rest : list ascii) :
  matchAt reVevo s = Some rest -> length s = 4%nat /\ rest = [].
Proof.
  unfold matchAt, reVevo, textI. cbn.
  destruct s as [|a [|b [|c [|d [|e t]]]]]; cbn; try discriminate;
    repeat match goal with
           | |- context [if ?x then _ else _] => destruct x
           end; try discriminate.
  intros [= <-]. auto.
Qed.

Lemma replaceFirst_vevo (s v : list ascii) :
  toLowerCase v = chars "vevo" ->
  replaceFirst reVevo (with_ "") (s ++ toLowerCase v) = s.
Proof.
  intros ->. induction s as [|a s' IH].
  - reflexivity.
  - cbn [app replaceFirst].
    destruct (matchAt reVevo (a :: s' ++ chars "vevo")) as [rest|] eqn:E.
    + apply reVevo_length in E as [E _]. cbn in E. rewrite length_app in E.
      cbn in E. lia.
    + now rewrite IH.
Qed.

(** X3. For a channel name made of code units up to U+00FF, on which
    toLowerCase works unit by unit: the name with VEVO (in any case) put at
    its end normalizes like the name alone, provided the name does not
    itself end in vevo. (Beyond U+00FF lower-casing depends on what
    follows a letter, as for a final capital sigma, and the property is
    not claimed there.) *)
Theorem normalizeArtistName_vevo (name vevo : string) :
  toLowerCase (chars vevo) = chars "vevo" ->
  occurs reVevo (toLowerCase (chars name)) = false ->
  normalizeArtistName (String.append name vevo) = normalizeArtistName name.
Proof.
  intros Hv Hname. unfold normalizeArtistName.
  rewrite chars_append, toLowerCase_app, (replaceFirst_vevo _ _ Hv).
  now rewrite (replaceFirst_absent reVevo _ _ Hname).
Qed.

Lemma normalizeArtistName_vevo_witness :
  normalizeArtistName (String.append "JeremyZucker" "VEVO") =
  normalizeArtistName "JeremyZucker".
Proof.
  apply (normalizeArtistName_vevo "JeremyZucker" "VEVO"); vm_compute; reflexivity.
Defined.

(** *** The pipe *)










Local Open Scope string_scope.


End ShapeFacts.

(** ** The worker *)

Module WorkerMore.
Import Matcher Notions Views NumFacts Samples.

Section WithFuzzy.
Variable fuzzy : string -> string -> Q.

(** X20. The worker marks a result already_exists only when its best
    candidate reached the low-confidence threshold and is among the
    existing identifiers; the result then carries that identifier. *)
Theorem worker_already_exists (data : Worker.WorkerMessage) (r : MatchResult) :
  Worker.onmessage fuzzy data = Some r ->
  status r = already_exists ->
  exists t,
    target r = Some t /\ id t ∈ Worker.existingIds data /\
    existingId r = Some (id t) /\
    ge (Types.confidence r) (Fin (lowConfidenceThreshold (Worker.config data))) = true.
Proof.
  unfold Worker.onmessage.
  destruct (negb _); [discriminate|].
  destruct (Worker.candidates data) as [|c rest]; [intros [= <-]; cbn; intros H; discriminate H|].
  destruct (fold_left _ _ _) as [bestMatch bestScore].
  destruct bestMatch as [best|]; [|intros [= <-]; cbn; intros H; discriminate H].
  destruct (ge bestScore _) eqn:Hge; [|intros [= <-]; cbn; intros H; discriminate H].
  destruct (bool_decide (id best ∈ _)) eqn:Hin.
  - intros [= <-] _. exists best. cbn.
    apply bool_decide_eq_true in Hin. rewrite elem_of_list_to_set in Hin. auto.
  - intros [= <-]. cbn.
    destruct (ge bestScore (Fin (highConfidenceThreshold _))); intros H; discriminate H.
Qed.

End WithFuzzy.

Lemma worker_already_exists_witness :
  exists t,
    Some (A := UnifiedTrack) helloVideo = Some t /\ id t ∈ ["yt:hello"] /\
    Some "yt:hello" = Some (id t) /\
    ge (Fin (99 # 100)) (Fin (lowConfidenceThreshold DEFAULT_MATCH_CONFIG)) = true.
Proof.
  exact (worker_already_exists exactFuzzy
           (message hello [goodbye; helloVideo] DEFAULT_MATCH_CONFIG ["yt:hello"])
           {| source := hello; target := Some helloVideo; confidence := Fin (99 # 100);
              status := already_exists; existingId := Some "yt:hello" |}
           eq_refl eq_refl).
Defined.

End WorkerMore.

(** ** The hook around the model call *)

Module HookFacts.
Import Matcher Notions Views Samples Js JsFacts.

Section WithModel.
Context {World : Type}.
Variable engine : Engine.
Variable fetch : UnifiedTrack -> list UnifiedTrack -> async World Gemini.error Gemini.Response.
Variable JSON_parse : string -> option Js.json.

(** What the match of an answer can be, by the kind of the index. *)
Lemma callGeminiAPI_match (sourceTrack : UnifiedTrack) (candidates : list UnifiedTrack)
    (w w' : World) (r : Gemini.GeminiResult) :
  Gemini.callGeminiAPI engine fetch JSON_parse sourceTrack candidates w = (Returns r, w') ->
  (forall t, Gemini.match_ r = Track t -> t ∈ candidates) /\
  (forall n, Gemini.match_ r = Length n -> n = length candidates) /\
  (foreign (Gemini.match_ r) ->
   exists result index,
     answered fetch JSON_parse sourceTrack candidates w w' result /\
     get "bestMatchIndex" result = Some (Val index) /\ textual index).
Proof.
  assert (Hfb : forall w1 : World,
            (Returns (Error := Gemini.error) (fallback candidates), w1) = (Returns r, w') ->
            (forall t, Gemini.match_ r = Track t -> t ∈ candidates) /\
            (forall n, Gemini.match_ r = Length n -> n = length candidates) /\
            (foreign (Gemini.match_ r) ->
             exists result index,
               answered fetch JSON_parse sourceTrack candidates w w' result /\
               get "bestMatchIndex" result = Some (Val index) /\ textual index)).
  { intros w1 [= <- _]. unfold fallback. cbn. split; [|split].
    - destruct candidates as [|c cs]; cbn; intros t H; [discriminate H|].
      injection H as ->. apply elem_of_cons. now left.
    - destruct candidates; cbn; intros n H; discriminate H.
    - destruct candidates; cbn; intros []. }
  destruct (GeminiFacts.callGeminiAPI_cases engine fetch JSON_parse sourceTrack candidates w)
    as [[w1 H]|(w1 & result & Ha)].
  { rewrite H. apply Hfb. }
  rewrite (GeminiFacts.callGeminiAPI_parsed engine fetch JSON_parse _ _ _ _ _ Ha).
  destruct (GeminiFacts.parsed_returns engine candidates result w1)
    as (r1 & -> & Hr1).
  intros [= -> ->].
  destruct Hr1 as [->|(index & c & Hi & Hc & _ & [[_ Hm]|(_ & _ & _ & p & Hp & Hm)])].
  - now apply (Hfb w').
  - rewrite Hm. repeat split; try discriminate. intros [].
  - rewrite Hm. pose proof (member_textual engine candidates p) as Htext.
    split; [intros t; apply member_Track|]. split.
    + intros n Hn. rewrite Hn in Htext. tauto.
    + intros Hforeign.
      assert (Hkey : exists key, p = PStr key).
      { destruct (member engine candidates p); try destruct Hforeign; tauto. }
      destruct Hkey as (key & ->).
      destruct (toPrimitive_PStr engine index key Hp) as (j & -> & Hj).
      exists result, j. auto.
Qed.

(** X21. callGeminiAPI never makes up a track: a match that is a track is
    one of the candidates it was given. A match that is there and is no
    track (the length of the list, or an inherited member of the array)
    comes only from an answer whose bestMatchIndex is a string, an array
    or an object, which the code uses as a key without checking it; for a
    number, a boolean, null or a missing index the match is a candidate,
    null or undefined. *)
Theorem callGeminiAPI_match_is_candidate (sourceTrack : UnifiedTrack)
    (candidates : list UnifiedTrack) (w w' : World) (r : Gemini.GeminiResult) :
  Gemini.callGeminiAPI engine fetch JSON_parse sourceTrack candidates w = (Returns r, w') ->
  (forall t, Gemini.match_ r = Track t -> t ∈ candidates) /\
  (foreign (Gemini.match_ r) ->
   exists result index,
     answered fetch JSON_parse sourceTrack candidates w w' result /\
     get "bestMatchIndex" result = Some (Val index) /\ textual index).
Proof.
  intros H. destruct (callGeminiAPI_match _ _ _ _ _ H) as (Ht & _ & Hf). auto.
Qed.

End WithModel.

Section WithWorld.
Context {World Error : Type}.
Variable engine : Engine.
Variable searchFn : string -> async World Error (list UnifiedTrack).
Variable fetch : UnifiedTrack -> list UnifiedTrack -> async World Gemini.error Gemini.Response.
Variable JSON_parse : string -> option Js.json.
Variable cancelled : Error.
Variable wrap : Gemini.error -> Error.

Lemma liftGemini_callGeminiAPI (source : UnifiedTrack) (candidates : list UnifiedTrack)
    (w : World) :
  exists r w',
    Gemini.callGeminiAPI engine fetch JSON_parse source candidates w = (Returns r, w') /\
    GeminiHook.liftGemini wrap
      (Gemini.callGeminiAPI engine fetch JSON_parse source candidates) w =
    (Returns r, w').
Proof.
  destruct (GeminiFacts.callGeminiAPI_returns engine fetch JSON_parse source candidates w)
    as (r & w' & H).
  exists r, w'. split; [exact H|]. unfold GeminiHook.liftGemini. now rewrite H.
Qed.

(** A match that is there is not the empty length when there are
    candidates. *)
Lemma truthyPicked_false (m : picked) (candidates : list UnifiedTrack) :
  candidates <> [] ->
  (forall n, m = Length n -> n = length candidates) ->
  truthyPicked m = false -> m = Null \/ m = Missing.
Proof.
  intros Hne Hlen. destruct m as [t| | |n|k]; simpl; try discriminate; auto.
  specialize (Hlen n eq_refl). subst n.
  destruct candidates; [congruence|discriminate].
Qed.

(** X22. A task that is not cancelled always stores a result, for its own
    source track: a failed search is recorded as the nothing-found
    record, the status is not_found exactly when there is no target (null
    or undefined), and already_exists only for a target that is a track
    among the existing identifiers. *)
Theorem processTrack_settles (source : UnifiedTrack) (existingIdsArray : list string)
    (w : World) :
  exists r w',
    GeminiHook.processTrack engine searchFn fetch JSON_parse cancelled wrap
      false source existingIdsArray w = (Returns r, w') /\
    Loose.source r = source /\
    (Loose.status r = not_found <->
     Loose.target r = Null \/ Loose.target r = Missing) /\
    (Loose.status r = already_exists ->
     exists t, Loose.target r = Track t /\ id t ∈ existingIdsArray) /\
    (forall e w1, searchFn (buildSearchQuery source) w = (Throws e, w1) ->
                  r = nothingStored source /\ w' = w1).
Proof.
  unfold GeminiHook.processTrack, tryCatch. unfold bind at 1.
  destruct (searchFn (buildSearchQuery source) w) as [[[|c cs]|e] w1].
  - exists (nothingStored source), w1. unfold ret.
    repeat split; intros; cbn in *; try congruence; auto.
  - unfold bind at 1.
    destruct (liftGemini_callGeminiAPI source (c :: cs) w1) as (g & w2 & Hg & ->).
    destruct (callGeminiAPI_match engine fetch JSON_parse _ _ _ _ _ Hg) as (_ & Hlen & _).
    pose proof (truthyPicked_false (Gemini.match_ g) (c :: cs) ltac:(discriminate) Hlen)
      as Hno.
    unfold bind, ret, throw, orThrow, GeminiHook.includes.
    destruct (truthyPicked (Gemini.match_ g)) eqn:Htruthy.
    + assert (Hyes : ~ (Gemini.match_ g = Null \/ Gemini.match_ g = Missing)).
      { intros [H|H]; rewrite H in Htruthy; discriminate. }
      destruct (idOf (Gemini.match_ g)) as [i|] eqn:Hid.
      * destruct (Gemini.match_ g) as [t| | | |] eqn:Hm; try discriminate.
        injection Hid as <-.
        destruct (bool_decide (id t ∈ existingIdsArray)) eqn:Hin.
        -- apply bool_decide_eq_true in Hin. eexists _, _. split; [reflexivity|].
           cbn. repeat split; try congruence; try tauto; eauto.
        -- destruct (atLeast engine (Gemini.confidence g) _) as [[|]|];
             eexists _, _; (split; [reflexivity|]); cbn;
             repeat split; try congruence; try tauto; auto;
             intros [H|H]; discriminate H.
      * destruct (atLeast engine (Gemini.confidence g) _) as [[|]|];
          eexists _, _; (split; [reflexivity|]); cbn;
          repeat split; try congruence; try tauto; auto.
    + eexists _, _. split; [reflexivity|]. cbn.
      repeat split; try congruence; auto.
  - exists (nothingStored source), w1. unfold ret.
    repeat split; intros; cbn in *; try congruence; auto.
Qed.

(** X23. When the model call fails (network error, response not OK, no
    JSON object, malformed JSON, an answer that cannot be read) the task
    stores the first candidate with confidence 0.3, as low_confidence, or
    as already_exists when that candidate is among the existing
    identifiers. *)
Theorem processTrack_model_failure (source first : UnifiedTrack)
    (others : list UnifiedTrack) (existingIdsArray : list string) (w w1 w2 : World) :
  searchFn (buildSearchQuery source) w = (Returns (first :: others), w1) ->
  failed engine fetch JSON_parse source (first :: others) w1 w2 ->
  GeminiHook.processTrack engine searchFn fetch JSON_parse cancelled wrap
    false source existingIdsArray w =
  (Returns {| Loose.source := source; Loose.target := Track first;
              Loose.confidence := Val (JNum (Fin (3 # 10)));
              Loose.status := if bool_decide (id first ∈ existingIdsArray)
                              then already_exists else low_confidence;
              Loose.existingId := if bool_decide (id first ∈ existingIdsArray)
                                  then Some (id first) else None |}, w2).
Proof.
  intros Hs Hf. apply (GeminiFacts.callGeminiAPI_fallback engine fetch JSON_parse) in Hf.
  unfold GeminiHook.processTrack, GeminiHook.liftGemini, tryCatch, bind, ret.
  rewrite Hs, Hf. cbn.
  destruct (bool_decide (id first ∈ existingIdsArray)); reflexivity.
Qed.

End WithWorld.
End HookFacts.

(** ** The server-side model call *)

Module ClientFacts.
Import Matcher Notions Views Samples Js JsFacts.

Section WithWorld.
Context {World : Type}.
Variable engine : Engine.
Variable GEMINI_API_KEY : string.
Variable fetch : UnifiedTrack -> list UnifiedTrack ->
                 async World GeminiClient.error GeminiClient.Response.
Variable JSON_parse : string -> option Js.json.
Variable showError : GeminiClient.error -> string.

Local Notation "'matchWithGemini'" :=
  (GeminiClient.matchWithGemini engine GEMINI_API_KEY fetch JSON_parse showError).

(** The answer of the catch block. *)
Local Notation "'rescue' candidates e" :=
  {| GeminiClient.match_ := first candidates;
     GeminiClient.matchConfidence := Val (JNum (Fin (3 # 10)));
     GeminiClient.matchReasoning :=
       Val (JStr (String.append "Gemini matching failed: "
                    (String.append (showError e)
                       ". Using first candidate as fallback."))) |}
  (at level 10, candidates at level 9, e at level 9).

(** With a key and candidates, every run ends in the catch block or went
    through a parsed answer. *)
Lemma matchWithGemini_cases (sourceTrack c : UnifiedTrack) (cs : list UnifiedTrack)
    (w : World) :
  GEMINI_API_KEY <> EmptyString ->
  (exists e w', matchWithGemini sourceTrack (c :: cs) w =
                (Returns (rescue (c :: cs) e), w')) \/
  (exists w' result, clientAnswered fetch JSON_parse sourceTrack (c :: cs) w w' result).
Proof.
  intros Hkey. apply String.eqb_neq in Hkey.
  unfold GeminiClient.matchWithGemini, clientAnswered. rewrite Hkey.
  unfold tryCatch, bind at 1.
  destruct (fetch sourceTrack (c :: cs) w) as [[response|e] w'] eqn:Hf;
    [|left; eauto].
  destruct (GeminiClient.ok response) eqn:Hok; simpl; [|left; eauto].
  unfold bind at 1.
  destruct (GeminiClient.json response) as [data|e] eqn:Hj; [|left; eauto].
  destruct (Gemini.search _ _) as [jsonMatch|] eqn:Hs; [|left; eauto].
  destruct (JSON_parse _) as [result|] eqn:Hp; [|left; eauto].
  right. exists w', result, response, data, jsonMatch. auto.
Qed.

(** What [matchWithGemini] makes of a parsed answer. *)
Lemma matchWithGemini_parsed (sourceTrack c : UnifiedTrack) (cs : list UnifiedTrack)
    (w w' : World) (result : Js.json) :
  GEMINI_API_KEY <> EmptyString ->
  clientAnswered fetch JSON_parse sourceTrack (c :: cs) w w' result ->
  exists m,
    matchWithGemini sourceTrack (c :: cs) w = (Returns m, w') /\
    ((exists e, m = rescue (c :: cs) e /\
                forall index, get "bestMatchIndex" result = Some index ->
                  (toPrimitive engine index = None /\
                   e = GeminiClient.TypeError NoPrimitiveValue) \/
                  (strictEquals index (Fin (-1)) = false /\ isNull index = false /\
                   orElse (lessThan engine index (Fin 0))
                     (atLeast engine index (lengthOf (c :: cs))) = Some true /\
                   e = GeminiClient.InvalidMatchIndex index)) \/
     (exists index conf reasoning,
        get "bestMatchIndex" result = Some index /\
        get "confidence" result = Some conf /\ get "reasoning" result = Some reasoning /\
        GeminiClient.matchConfidence m = conf /\
        GeminiClient.matchReasoning m = reasoning /\
        (((strictEquals index (Fin (-1)) || isNull index)%bool = true /\
          GeminiClient.match_ m = Null) \/
         (exists p, toPrimitive engine index = Some p /\
                    GeminiClient.match_ m = member engine (c :: cs) p)))).
Proof.
  intros Hkey (response & data & jsonMatch & Hf & Hok & Hj & Hs & Hp).
  apply String.eqb_neq in Hkey.
  unfold GeminiClient.matchWithGemini. rewrite Hkey.
  unfold tryCatch, bind at 1. rewrite Hf, Hok. simpl.
  unfold bind at 1. rewrite Hj, Hs, Hp.
  unfold bind, orThrow, ret, throw.
  destruct (get "bestMatchIndex" result) as [index|] eqn:Hi.
  2:{ eexists. split; [reflexivity|]. left. eexists. split; [reflexivity|].
      intros index H. discriminate H. }
  destruct (get_confidence result index Hi) as (conf & Hc).
  destruct (get_reasoning result index Hi) as (reasoning & Hr).
  rewrite Hc, Hr.
  destruct (strictEquals index (Fin (-1)) || isNull index)%bool eqn:E1.
  { eexists. split; [reflexivity|]. right. exists index, conf, reasoning.
    repeat split; auto. }
  apply orb_false_iff in E1 as [E1 E1'].
  destruct (toPrimitive engine index) as [p|] eqn:Hprim.
  - unfold lessThan, atLeast, at_. rewrite Hprim. cbn [option_map orElse].
    destruct (lt (toNumber engine p) (Fin 0)) eqn:E2.
    + eexists. split; [reflexivity|]. left. eexists. split; [reflexivity|].
      intros index' [= <-]. right. unfold lessThan, atLeast. rewrite Hprim.
      cbn [option_map orElse]. rewrite E2. auto.
    + destruct (ge (toNumber engine p) (lengthOf (c :: cs))) eqn:E3.
      * eexists. split; [reflexivity|]. left. eexists. split; [reflexivity|].
        intros index' [= <-]. right. unfold lessThan, atLeast. rewrite Hprim.
        cbn [option_map orElse]. rewrite E2, E3. auto.
      * eexists. split; [reflexivity|]. right. exists index, conf, reasoning.
        repeat split; auto. right. eauto.
  - destruct (toPrimitive_None engine index (Fin 0) Hprim) as (_ & _ & -> & _).
    cbn [orElse]. eexists. split; [reflexivity|]. left. eexists.
    split; [reflexivity|]. intros index' [= <-]. left. auto.
Qed.

(** X24. Without an API key matchWithGemini throws before doing anything
    else. With a key it never throws; an empty candidate list is answered
    without a request; a match that is a track is one of the candidates;
    and a match that is there and is no track (the length of the list, or
    an inherited member of the array) comes only from an answer whose
    bestMatchIndex is a string, an array or an object. *)
Theorem matchWithGemini_settles (sourceTrack : UnifiedTrack)
    (candidates : list UnifiedTrack) (w : World) :
  (GEMINI_API_KEY = EmptyString ->
   matchWithGemini sourceTrack candidates w = (Throws GeminiClient.ApiKeyMissing, w)) /\
  (GEMINI_API_KEY <> EmptyString ->
   exists m w',
     matchWithGemini sourceTrack candidates w = (Returns m, w') /\
     (candidates = [] -> w' = w /\ GeminiClient.match_ m = Null) /\
     (forall t, GeminiClient.match_ m = Track t -> t ∈ candidates) /\
     (foreign (GeminiClient.match_ m) ->
      exists result index,
        clientAnswered fetch JSON_parse sourceTrack candidates w w' result /\
        get "bestMatchIndex" result = Some (Val index) /\ textual index)).
Proof.
  split.
  - intros ->. reflexivity.
  - intros Hkey. destruct candidates as [|c cs].
    + apply String.eqb_neq in Hkey. unfold GeminiClient.matchWithGemini. rewrite Hkey.
      eexists _, w. split; [reflexivity|]. cbn.
      repeat split; try discriminate. intros [].
    + assert (Hrescue : forall e,
                (forall t, GeminiClient.match_ (rescue (c :: cs) e) = Track t ->
                           t ∈ c :: cs) /\
                ~ foreign (GeminiClient.match_ (rescue (c :: cs) e))).
      { intros e. cbn. split; [|tauto]. intros t [= ->]. apply elem_of_cons. now left. }
      destruct (matchWithGemini_cases sourceTrack c cs w Hkey)
        as [(e & w' & H)|(w' & result & Ha)].
      { exists (rescue (c :: cs) e), w'. split; [exact H|]. split; [discriminate|].
        destruct (Hrescue e) as [H1 H2]. split; [exact H1|]. intros Hf. now destruct H2. }
      destruct (matchWithGemini_parsed sourceTrack c cs w w' result Hkey Ha)
        as (m & Hm & [(e & -> & _)|(index & conf & reasoning & Hi & _ & _ & _ & _ & Hcase)]).
      { exists (rescue (c :: cs) e), w'. split; [exact Hm|]. split; [discriminate|].
        destruct (Hrescue e) as [H1 H2]. split; [exact H1|]. intros Hf. now destruct H2. }
      exists m, w'. split; [exact Hm|]. split; [discriminate|].
      destruct Hcase as [[_ ->]|(p & Hp & ->)].
      { split; [discriminate|]. intros []. }
      pose proof (member_textual engine (c :: cs) p) as Htext.
      split; [intros t; apply member_Track|].
      intros Hforeign.
      assert (Hkey' : exists key, p = PStr key).
      { destruct (member engine (c :: cs) p); try destruct Hforeign; tauto. }
      destruct Hkey' as (key & ->).
      destruct (toPrimitive_PStr engine index key Hp) as (j & -> & Hj).
      exists result, j. auto.
Qed.

(** X25. For matchWithGemini a numeric index that is neither -1 nor in
    range is a failure like the others: the answer is the first candidate
    with confidence 0.3, and the reasoning names the invalid index. *)
Theorem matchWithGemini_invalid_index (sourceTrack first : UnifiedTrack)
    (others : list UnifiedTrack) (w w' : World) (result : Js.json) (n : number) :
  GEMINI_API_KEY <> EmptyString ->
  clientAnswered fetch JSON_parse sourceTrack (first :: others) w w' result ->
  get "bestMatchIndex" result = Some (Val (JNum n)) ->
  compare n (Fin (-1)) <> Some Eq ->
  lt n (Fin 0) = true \/ ge n (lengthOf (first :: others)) = true ->
  matchWithGemini sourceTrack (first :: others) w =
  (Returns {| GeminiClient.match_ := Track first;
              GeminiClient.matchConfidence := Val (JNum (Fin (3 # 10)));
              GeminiClient.matchReasoning :=
                Val (JStr (String.append "Gemini matching failed: "
                             (String.append
                                (showError (GeminiClient.InvalidMatchIndex (Val (JNum n))))
                                ". Using first candidate as fallback."))) |}, w').
Proof.
  intros Hkey (response & data & jsonMatch & Hf & Hok & Hj & Hs & Hp) Hi Hne Hrange.
  apply String.eqb_neq in Hkey.
  unfold GeminiClient.matchWithGemini. rewrite Hkey.
  unfold tryCatch, bind at 1. rewrite Hf, Hok. simpl.
  unfold bind at 1. rewrite Hj, Hs, Hp.
  unfold bind, orThrow, ret, throw. rewrite Hi.
  rewrite lessThan_number, atLeast_number.
  assert (E1 : strictEquals (Val (JNum n)) (Fin (-1)) = false).
  { unfold strictEquals. destruct (compare n (Fin (-1))) as [[]|]; congruence. }
  rewrite E1. cbn [orb isNull].
  assert (E2 : orElse (Some (lt n (Fin 0))) (Some (ge n (lengthOf (first :: others)))) =
               Some true).
  { destruct Hrange as [H|H]; rewrite H; [reflexivity|].
    now destruct (lt n (Fin 0)). }
  rewrite E2. reflexivity.
Qed.

End WithWorld.
End ClientFacts.

(** ** The server-side batch *)

Module BatchClientFacts.
Import Matcher Notions Views Samples MoreSamples Js.

Section WithWorld.
Context {World : Type}.
Variable engine : Engine.
Variable GEMINI_API_KEY : string.
Variable fetch : UnifiedTrack -> list UnifiedTrack ->
                 async World GeminiClient.error GeminiClient.Response.
Variable JSON_parse : string -> option Js.json.
Variable showError : GeminiClient.error -> string.
Variable searchFn : string -> async World GeminiClient.error (list UnifiedTrack).

Local Notation "'batchLoop'" :=
  (GeminiClient.batchLoop engine GEMINI_API_KEY fetch JSON_parse showError searchFn).

Lemma batch_entry_graded (existing : gset string) (source : UnifiedTrack)
    (m : GeminiClient.GeminiMatch) (status : MatchStatus) :
  GeminiClient.batchStatus engine existing m = Some status ->
  graded engine existing
    {| Loose.source := source; Loose.target := GeminiClient.match_ m;
       Loose.confidence := GeminiClient.matchConfidence m;
       Loose.status := status;
       Loose.existingId :=
         match status with
         | already_exists => idOf (GeminiClient.match_ m)
         | _ => None
         end |}.
Proof.
  unfold graded, GeminiClient.batchStatus, GeminiClient.has. cbn.
  destruct (truthyPicked (GeminiClient.match_ m)) eqn:Htruthy.
  2:{ intros [= <-]. discriminate. }
  assert (Hout : idOf (GeminiClient.match_ m) = None \/
                 exists t, GeminiClient.match_ m = Track t /\
                           idOf (GeminiClient.match_ m) = Some (id t)).
  { destruct (GeminiClient.match_ m); cbn; eauto. }
  assert (Hfresh : (match idOf (GeminiClient.match_ m) with
                    | Some i => bool_decide (i ∈ existing)
                    | None => false
                    end) = false ->
                   forall t, GeminiClient.match_ m = Track t -> id t ∉ existing).
  { intros H t Ht. rewrite Ht in H. cbn in H. now apply bool_decide_eq_false in H. }
  destruct (match idOf (GeminiClient.match_ m) with
            | Some i => bool_decide (i ∈ existing)
            | None => false
            end) eqn:Hin.
  - intros [= <-]. destruct Hout as [Hn|(t & Ht & Hid)].
    + rewrite Hn in Hin. discriminate.
    + rewrite Hid in Hin. apply bool_decide_eq_true in Hin. eauto.
  - specialize (Hfresh eq_refl).
    destruct (atLeast engine _ (Fin (75 # 100))) as [[|]|] eqn:H75; [| |discriminate].
    + intros [= <-]. auto.
    + destruct (atLeast engine _ (Fin (50 # 100))) as [[|]|] eqn:H50; [| |discriminate];
        intros [= <-]; auto.
Qed.

Lemma batchLoop_results (sources : list UnifiedTrack) (existing : gset string) :
  forall (acc results : list Loose.MatchResult) (w w' : World),
    Forall (graded engine existing) acc ->
    batchLoop sources existing acc w = (Returns results, w') ->
    map Loose.source results = map Loose.source acc ++ sources /\
    Forall (graded engine existing) results.
Proof.
  induction sources as [|s rest IH]; intros acc results w w' Hacc; simpl.
  - unfold ret. intros [= <- _]. now rewrite app_nil_r.
  - unfold bind at 1.
    destruct (searchFn _ w) as [[candidates|e] w1]; [|discriminate].
    unfold bind at 1.
    destruct (GeminiClient.matchWithGemini _ _ _ _ _ s candidates w1) as [[m|e] w2];
      [|discriminate].
    unfold bind at 1, orThrow.
    destruct (GeminiClient.batchStatus engine existing m) as [status|] eqn:Hst;
      [|discriminate].
    unfold ret at 1.
    intros H. apply IH in H as [Hsrc Hgr].
    + split; [|exact Hgr]. rewrite Hsrc, map_app. simpl. now rewrite <- app_assoc.
    + apply Forall_app. split; [assumption|].
      constructor; [now apply batch_entry_graded|constructor].
Qed.

(** X26. batchMatchWithGemini answers with one result per source track,
    in the order of the input, and each status tells the confidence:
    matched from 0.75 on, low_confidence from 0.50 up to 0.75, not_found
    below 0.50 or without a target, already_exists for a target among the
    existing identifiers whatever the confidence. *)
Theorem batchMatchWithGemini_results (sources : list UnifiedTrack)
    (existing : gset string) (results : list Loose.MatchResult) (w w' : World) :
  GeminiClient.batchMatchWithGemini engine GEMINI_API_KEY fetch JSON_parse showError
    searchFn sources existing w = (Returns results, w') ->
  map Loose.source results = sources /\ Forall (graded engine existing) results.
Proof.
  intros H. apply batchLoop_results in H; [exact H|constructor].
Qed.

End WithWorld.

Lemma batchMatchWithGemini_results_witness :
  match GeminiClient.batchMatchWithGemini engine "key" clientFetch JsonText.parse
          clientShow clientSearch [hello; helloCoded] (list_to_set ["yt:bye"]) 0%nat with
  | (Returns results, _) =>
      map Loose.source results = [hello; helloCoded] /\
      Forall (graded engine (list_to_set ["yt:bye"])) results
  | (Throws _, _) => False
  end.
Proof.
  destruct (GeminiClient.batchMatchWithGemini engine "key" clientFetch JsonText.parse
              clientShow clientSearch [hello; helloCoded] (list_to_set ["yt:bye"]) 0%nat)
    as [[results|e] n] eqn:E.
  - exact (batchMatchWithGemini_results engine "key" clientFetch JsonText.parse clientShow
             clientSearch [hello; helloCoded] (list_to_set ["yt:bye"]) results 0%nat n E).
  - vm_compute in E. discriminate E.
Defined.

End BatchClientFacts.

(** ** The mark already_exists in a batch *)

Module MarkFacts.
Import Matcher Notions Views Samples.

Section WithSearch.
Context {World Error : Type}.
Variable fuzzy : string -> string -> Q.
Variable searchFn : string -> async World Error (list UnifiedTrack).

(** X15. In the output of matchTracks a result with a target is marked
    already_exists exactly when that target is among the existing
    identifiers, and it then carries the identifier; a result without a
    target is never marked. *)
Theorem matchTracks_marks_exactly (sources : list UnifiedTrack) (existing : gset string)
    (config : MatchConfig) (results : list MatchResult) (w w' : World) :
  matchTracks fuzzy searchFn sources existing config w = (Returns results, w') ->
  Forall (fun r =>
            (status r = already_exists -> target r <> None) /\
            forall t, target r = Some t ->
                      (status r = already_exists <-> id t ∈ existing) /\
                      (id t ∈ existing -> existingId r = Some (id t)))
         results.
Proof.
  intros H.
  pose proof (StatusFacts.matchTracksLoop_flagged fuzzy searchFn sources existing config
                [] results w w' ltac:(constructor) H) as Hflag.
  pose proof (BatchFacts.matchTracksLoop_fresh fuzzy searchFn sources existing config
                [] results w w' ltac:(constructor) H) as Hfresh.
  rewrite Forall_forall in *. intros r Hr.
  specialize (Hflag r Hr). specialize (Hfresh r Hr). unfold flagged, fresh in *.
  split.
  - intros Hst. destruct (Hflag Hst) as (t & -> & _). discriminate.
  - intros t Ht.
    assert (Hiff : status r = already_exists <-> id t ∈ existing).
    { split.
      - intros Hst. destruct (Hflag Hst) as (t' & Ht' & Hin & _). congruence.
      - intros Hin. destruct (status r) eqn:Hst; try reflexivity;
          exfalso; apply (Hfresh ltac:(discriminate) t Ht Hin). }
    split; [exact Hiff|].
    intros Hin. apply Hiff in Hin. destruct (Hflag Hin) as (t' & Ht' & _ & Hid).
    congruence.
Qed.

End WithSearch.

Lemma matchTracks_marks_exactly_witness :
  match matchTracks exactFuzzy searchHit [hello; helloCoded] (list_to_set ["yt:hello"])
          DEFAULT_MATCH_CONFIG 0%nat with
  | (Returns results, _) =>
      Forall (fun r =>
                (status r = already_exists -> target r <> None) /\
                forall t, target r = Some t ->
                          (status r = already_exists <->
                           id t ∈ (list_to_set ["yt:hello"] : gset string)) /\
                          (id t ∈ (list_to_set ["yt:hello"] : gset string) ->
                           existingId r = Some (id t)))
             results
  | (Throws _, _) => False
  end.
Proof.
  destruct (matchTracks exactFuzzy searchHit [hello; helloCoded] (list_to_set ["yt:hello"])
              DEFAULT_MATCH_CONFIG 0%nat) as [[results|e] n] eqn:E.
  - exact (matchTracks_marks_exactly exactFuzzy searchHit [hello; helloCoded]
             (list_to_set ["yt:hello"]) DEFAULT_MATCH_CONFIG results 0%nat n E).
  - vm_compute in E. discriminate E.
Defined.

End MarkFacts.

(** ** Instances *)

Module Instances.
Import Matcher Notions Views Samples MoreSamples Js.

Lemma matchTracks_keeps_order_witness :
  match matchTracks exactFuzzy searchHit [hello; helloCoded] ∅ DEFAULT_MATCH_CONFIG 0%nat with
  | (Returns results, _) =>
      map Types.source results = [hello; helloCoded] /\ length results = 2%nat
  | (Throws _, _) => False
  end.
Proof.
  destruct (matchTracks exactFuzzy searchHit [hello; helloCoded] ∅
              DEFAULT_MATCH_CONFIG 0%nat) as [[results|e] n] eqn:E.
  - exact (BatchFacts.matchTracks_keeps_order exactFuzzy searchHit [hello; helloCoded] ∅
             DEFAULT_MATCH_CONFIG results 0%nat n E).
  - vm_compute in E. discriminate E.
Defined.

Lemma matchTracks_aborts_witness :
  matchTracks exactFuzzy searchOnce ([hello] ++ hello :: [hello]) ∅
    DEFAULT_MATCH_CONFIG 0%nat = (Throws "429", 2%nat).
Proof.
  eapply (BatchFacts.matchTracks_aborts exactFuzzy searchOnce [hello] [hello] hello ∅
            DEFAULT_MATCH_CONFIG "429" _ 0%nat 1%nat 2%nat); reflexivity.
Defined.

Lemma route_results_are_addable_witness :
  match SyncRoute.matchAndDeduplicate exactFuzzy searchHit [hello; helloCoded]
          (list_to_set ["yt:bye"]) 0%nat with
  | (Returns (results, _), _) =>
      Forall (fresh (list_to_set ["yt:bye"])) results /\ NoDup (pendingIds results)
  | (Throws _, _) => False
  end.
Proof.
  destruct (SyncRoute.matchAndDeduplicate exactFuzzy searchHit [hello; helloCoded]
              (list_to_set ["yt:bye"]) 0%nat) as [[[results st]|e] n] eqn:E.
  - exact (DedupFacts.route_results_are_addable exactFuzzy searchHit [hello; helloCoded]
             (list_to_set ["yt:bye"]) results st 0%nat n E).
  - vm_compute in E. discriminate E.
Defined.

Lemma route_counts_add_up_witness :
  match SyncRoute.matchAndDeduplicate exactFuzzy searchHit [hello; helloCoded]
          (list_to_set ["yt:bye"]) 0%nat with
  | (Returns (results, st), _) =>
      map Types.source results = [hello; helloCoded] /\
      (SyncRoute.statMatched st + SyncRoute.lowConfidence st +
       SyncRoute.notFound st + SyncRoute.alreadyExists st)%nat = 2%nat
  | (Throws _, _) => False
  end.
Proof.
  destruct (SyncRoute.matchAndDeduplicate exactFuzzy searchHit [hello; helloCoded]
              (list_to_set ["yt:bye"]) 0%nat) as [[[results st]|e] n] eqn:E.
  - exact (DedupFacts.route_counts_add_up exactFuzzy searchHit [hello; helloCoded]
             (list_to_set ["yt:bye"]) results st 0%nat n E).
  - vm_compute in E. discriminate E.
Defined.

Lemma callGeminiAPI_match_is_candidate_witness :
  ((forall t, Track goodbye = Track t -> t ∈ [helloVideo; goodbye]) /\
   (foreign (Track goodbye) ->
    exists result index,
      answered fetchPick JsonText.parse hello [helloVideo; goodbye] 0%nat 1%nat result /\
      get "bestMatchIndex" result = Some (Val index) /\ textual index)) /\
  ((forall t, Length 2 = Track t -> t ∈ [helloVideo; goodbye]) /\
   (foreign (Length 2) ->
    exists result index,
      answered fetchLength JsonText.parse hello [helloVideo; goodbye] 0%nat 1%nat result /\
      get "bestMatchIndex" result = Some (Val index) /\ textual index)).
Proof.
  split.
  - exact (HookFacts.callGeminiAPI_match_is_candidate engine fetchPick JsonText.parse
             hello [helloVideo; goodbye] 0%nat 1%nat
             {| Gemini.match_ := Track goodbye;
                Gemini.confidence := Val (JNum (Fin (9 # 10))) |}
             ltac:(vm_compute; reflexivity)).
  - exact (HookFacts.callGeminiAPI_match_is_candidate engine fetchLength JsonText.parse
             hello [helloVideo; goodbye] 0%nat 1%nat
             {| Gemini.match_ := Length 2;
                Gemini.confidence := Val (JNum (Fin (9 # 10))) |}
             ltac:(vm_compute; reflexivity)).
Defined.

(** The answer {"bestMatchIndex": "length", "confidence": 0.9}: the match
    is the number of candidates, stored as the target with status
    matched. *)
Example processTrack_length :
  lengthObject = String.append "{" (String.append quote (String.append "bestMatchIndex"
                   (String.append quote (String.append ": " (String.append quote
                     (String.append "length" (String.append quote (String.append ", "
                       (String.append quote (String.append "confidence"
                         (String.append quote ": 0.9}"))))))))))) /\
  GeminiHook.processTrack engine searchHit fetchLength JsonText.parse "Matching cancelled"
    (fun _ => "model") false hello ["yt:hello"] 0%nat =
  (Returns {| Loose.source := hello; Loose.target := Length 2;
              Loose.confidence := Val (JNum (Fin (9 # 10)));
              Loose.status := matched; Loose.existingId := None |}, 2%nat).
Proof. split; [reflexivity|vm_compute; reflexivity]. Qed.

Lemma processTrack_model_failure_witness :
  GeminiHook.processTrack engine searchHit fetchDown JsonText.parse "Matching cancelled"
    (fun _ => "model") false hello ["yt:hello"] 0%nat =
  (Returns {| Loose.source := hello; Loose.target := Track helloVideo;
              Loose.confidence := Val (JNum (Fin (3 # 10)));
              Loose.status := already_exists; Loose.existingId := Some "yt:hello" |},
   2%nat).
Proof.
  apply (HookFacts.processTrack_model_failure engine searchHit fetchDown JsonText.parse
           "Matching cancelled" (fun _ => "model") hello helloVideo [goodbye]
           ["yt:hello"] 0%nat 1%nat 2%nat).
  - reflexivity.
  - apply (fetch_rejects engine fetchDown JsonText.parse hello [helloVideo; goodbye] 1%nat
             (Gemini.NetworkError "offline") 2%nat). reflexivity.
Defined.

Lemma matchWithGemini_invalid_index_witness :
  GeminiClient.matchWithGemini engine "key" clientFetch JsonText.parse clientShow hello
    [helloVideo; goodbye] 0%nat =
  (Returns {| GeminiClient.match_ := Track helloVideo;
              GeminiClient.matchConfidence := Val (JNum (Fin (3 # 10)));
              GeminiClient.matchReasoning :=
                Val (JStr "Gemini matching failed: Error: Invalid match index: 5. Using first candidate as fallback.") |},
   1%nat).
Proof.
  apply (ClientFacts.matchWithGemini_invalid_index engine "key" clientFetch JsonText.parse
           clientShow hello helloVideo [goodbye] 0%nat 1%nat
           (JObj [("reasoning", JStr "same song"); ("confidence", JNum (Fin (9 # 10)));
                  ("bestMatchIndex", JNum (Fin 5))])
           (Fin 5)).
  - discriminate.
  - exists {| GeminiClient.ok := true; GeminiClient.httpStatus := 200;
              GeminiClient.json := Returns (Some clientObject) |},
      (Some clientObject), (chars clientObject).
    repeat split; vm_compute; reflexivity.
  - reflexivity.
  - vm_compute. discriminate.
  - right. vm_compute. reflexivity.
Defined.

End Instances.
